(** * IPS recordings: loading, interpolation and the rectangular grid

    A shallow embedding of [main.py] (class [IPSRecording]) and the proofs of
    its specification.

    - numbers are IEEE binary64 values, as numpy and pandas hold them: Rocq's
      primitive [float] with its operations;
    - a pandas [DataFrame] is a list of column names and a list of labelled
      rows; [.loc] looks a row up by its label, not by its position;
    - a method is a function on the object's state that returns the new state
      together with an outcome, so that the state a raised exception leaves
      behind can be observed;
    - what the program takes from outside, the file system, the deserializer
      of the schema module and the C library's [pow], is an environment the
      methods are given. *)

From Stdlib Require Import ZArith List String Ascii Bool Lia Floats.
Import ListNotations.

(** ** Binary64 numbers *)

Module Float64.

(** [float(z)] for a Python [int]. *)
Definition of_Z (z : Z) : float :=
  match z with
  | Z0 => zero
  | Zpos _ => of_uint63 (Uint63.of_Z z)
  | Zneg p => opp (of_uint63 (Uint63.of_Z (Zpos p)))
  end.

(** The exact integer part of a finite number, rounded down: the value of
    [S754_finite s m e] is [(-1)^s * m * 2^e], and [Z.shiftl] by a negative
    amount is the flooring division by a power of two. *)
Definition SFfloor (x : spec_float) : option Z :=
  match x with
  | S754_zero _ => Some 0%Z
  | S754_finite s m e => Some (Z.shiftl (cond_Zopp s (Zpos m)) e)
  | S754_infinity _ | S754_nan => None
  end.

Definition SFceil (x : spec_float) : option Z :=
  option_map Z.opp (SFfloor (SFopp x)).

Definition floor (x : float) : option Z := SFfloor (Prim2SF x).
Definition ceil (x : float) : option Z := SFceil (Prim2SF x).

(** [Series.max()] and [Series.min()]: missing values (NaN) are skipped, and
    the result is NaN when nothing is left. *)
Definition max_step (acc v : float) : float :=
  if is_nan v then acc
  else if is_nan acc then v
  else if ltb acc v then v else acc.

Definition min_step (acc v : float) : float :=
  if is_nan v then acc
  else if is_nan acc then v
  else if ltb v acc then v else acc.

Definition nanmax (l : list float) : float := fold_left max_step l nan.
Definition nanmin (l : list float) : float := fold_left min_step l nan.

End Float64.

(** ** Exceptions and outcomes *)

Inductive exn : Type :=
| FileNotFoundError (msg : string)
| IsADirectoryError
| DecodeError
| KeyError
| ValueError
| OverflowError
| IndexError.

(** What an expression or a call ends in: a value, or a raised exception. *)
Inductive result (A : Type) : Type :=
| Ok (a : A)
| Raise (e : exn).

Arguments Ok {A} a.
Arguments Raise {A} e.

Definition bind {A B : Type} (r : result A) (k : A -> result B) : result B :=
  match r with
  | Ok a => k a
  | Raise e => Raise e
  end.

Declare Scope result_scope.
Delimit Scope result_scope with result.
Notation "x <- r ;; k" := (bind r (fun x => k))
  (at level 61, r at next level, right associativity) : result_scope.

(** ** Data frames *)

Module DataFrame.

Record t : Type := make {
  columns : list string;
  rows : list (nat * list float)   (* index label, cells in column order *)
}.

(** [pd.DataFrame(columns = cols)] *)
Definition empty (cols : list string) : t := make cols [].

Definition index (df : t) : list nat := map fst (rows df).

(** [len(df.index)] *)
Definition len (df : t) : nat := List.length (rows df).

Fixpoint col_pos (cols : list string) (c : string) : option nat :=
  match cols with
  | [] => None
  | c' :: cols' =>
      if String.eqb c' c then Some 0
      else option_map S (col_pos cols' c)
  end.

Fixpoint find_row (rs : list (nat * list float)) (label : nat)
  : option (list float) :=
  match rs with
  | [] => None
  | (l, cells) :: rs' => if Nat.eqb l label then Some cells else find_row rs' label
  end.

Fixpoint put_row (rs : list (nat * list float)) (label : nat)
  (cells : list float) : list (nat * list float) :=
  match rs with
  | [] => [(label, cells)]
  | (l, old) :: rs' =>
      if Nat.eqb l label then (l, cells) :: rs'
      else (l, old) :: put_row rs' label cells
  end.

(** [df.loc[label] = cells]: the row is replaced, or appended when the label
    is new. *)
Definition loc_set_row (df : t) (label : nat) (cells : list float) : t :=
  make (columns df) (put_row (rows df) label cells).

Fixpoint assoc (mapping : list (string * string)) (c : string) : option string :=
  match mapping with
  | [] => None
  | (k, v) :: mapping' => if String.eqb k c then Some v else assoc mapping' c
  end.

(** [df.rename(columns = mapping, inplace = True)] *)
Definition rename (df : t) (mapping : list (string * string)) : t :=
  make (map (fun c => match assoc mapping c with Some c' => c' | None => c end)
            (columns df))
       (rows df).

Fixpoint set_nth (k : nat) (v : float) (cells : list float) : list float :=
  match k, cells with
  | _, [] => []
  | O, _ :: cells' => v :: cells'
  | S k', c :: cells' => c :: set_nth k' v cells'
  end.

(** [df[c] = v] for a scalar [v]: the column is overwritten, or added as the
    last one. *)
Definition setitem (df : t) (c : string) (v : float) : t :=
  match col_pos (columns df) c with
  | Some k => make (columns df) (map (fun r => (fst r, set_nth k v (snd r))) (rows df))
  | None => make (columns df ++ [c]) (map (fun r => (fst r, snd r ++ [v])) (rows df))
  end.

(** [df[c]]: the values of a column, in row order. *)
Definition getitem (df : t) (c : string) : result (list float) :=
  match col_pos (columns df) c with
  | Some k => Ok (map (fun r => nth k (snd r) nan) (rows df))
  | None => Raise KeyError
  end.

(** [df[mask]]: the rows whose mask entry is true, labels kept. *)
Definition getitem_mask (df : t) (mask : list bool) : t :=
  make (columns df)
       (map fst (filter (fun rb => snd rb) (combine (rows df) mask))).

(** [df.loc[label][c]] *)
Definition loc (df : t) (label : nat) (c : string) : result float :=
  match find_row (rows df) label with
  | None => Raise KeyError
  | Some cells =>
      match col_pos (columns df) c with
      | None => Raise KeyError
      | Some k => Ok (nth k cells nan)
      end
  end.

(** [df.loc[label, c] = v]: sets one cell; a new label or a new column
    enlarges the frame, the other new cells being NaN. *)
Definition loc_set (df : t) (label : nat) (c : string) (v : float) : t :=
  let df1 :=
    match col_pos (columns df) c with
    | Some _ => df
    | None => setitem df c nan
    end in
  let k := match col_pos (columns df1) c with Some k => k | None => 0 end in
  match find_row (rows df1) label with
  | Some cells => make (columns df1) (put_row (rows df1) label (set_nth k v cells))
  | None =>
      make (columns df1)
           (rows df1 ++ [(label, set_nth k v (repeat nan (List.length (columns df1))))])
  end.

End DataFrame.

(** [enumerate(l)] *)
Definition enumerate {A : Type} (l : list A) : list (nat * A) :=
  combine (seq 0 (List.length l)) l.

(** ** The recording file *)

(** Modelled from the spec: the schema module [ips_protocol.recordings_pb2]
    is vendored and not part of the sources.  A deserialized [Recording]
    message holds two ordered record sequences; [t], [x], [y], [z] and
    [accuracy] are floating-point fields, [floor] and [type] integer ones. *)
Module proto.

Record Position : Type := {
  pos_t : float; pos_x : float; pos_y : float;
  pos_floor : Z; pos_type : Z; pos_accuracy : float
}.

Record Magnetic : Type := {
  mag_t : float; mag_x : float; mag_y : float; mag_z : float;
  mag_accuracy : float
}.

Record Recording : Type := {
  positions : list Position;
  magnetics : list Magnetic
}.

End proto.

Inductive node : Type :=
| RegularFile (content : list Byte.byte)
| Directory.

(** What the program is run against: the file system, the deserializer
    [recordings_proto.FromString] of the vendored schema module, which gives
    no message for bytes that are not one, and the C library's [pow], which
    [pow(v, 2)] calls on a float64 number: its result need not be the
    float64 product [v * v], and differs between libraries. *)
Record env : Type := {
  fs : string -> option node;
  FromString : list Byte.byte -> option proto.Recording;
  pow : float -> float -> float
}.

(** The file-system calls a run performs, in order. *)
Inductive io_event : Type :=
| IsFile (path : string)
| OpenRead (path : string).

(** [os.path.isfile] *)
Definition isfile (E : env) (path : string) : bool :=
  match fs E path with
  | Some (RegularFile _) => true
  | _ => false
  end.

(** ** The object and its methods *)

Definition ndarray : Type := list (list float).

Record IPSRecording : Type := {
  pb_file : string;
  positions : DataFrame.t;
  magnetics : DataFrame.t;
  rect_grid : option ndarray;      (* unset until [set_rect_grid] *)
  cell_size : option (Z * Z)
}.

Record world : Type := {
  self : IPSRecording;
  io : list io_event
}.

(** State and exceptions: a run ends in a value or an exception, together with
    the state it leaves (the state a raised exception leaves is kept).  [None]
    is the bounded loop of the model running out of fuel, which does not
    happen on a loaded recording ([PosCalcFacts.magnetics_pos_calc_frame]). *)
Definition M (A : Type) : Type := world -> option (result A * world).

Definition ret {A : Type} (a : A) : M A := fun w => Some (Ok a, w).
Definition lift {A : Type} (r : result A) : M A := fun w => Some (r, w).
Definition raise {A : Type} (e : exn) : M A := lift (Raise e).
Definition out_of_fuel {A : Type} : M A := fun _ => None.

Definition mbind {A B : Type} (m : M A) (k : A -> M B) : M B :=
  fun w =>
    match m w with
    | Some (Ok a, w') => k a w'
    | Some (Raise e, w') => Some (Raise e, w')
    | None => None
    end.

Definition gets {A : Type} (f : IPSRecording -> A) : M A :=
  fun w => Some (Ok (f (self w)), w).

Definition modify (f : IPSRecording -> IPSRecording) : M unit :=
  fun w => Some (Ok tt, {| self := f (self w); io := io w |}).

Definition emit (ev : io_event) : M unit :=
  fun w => Some (Ok tt, {| self := self w; io := io w ++ [ev] |}).

Declare Scope monad_scope.
Delimit Scope monad_scope with monad.
Notation "x <- m ;; k" := (mbind m (fun x => k))
  (at level 61, m at next level, right associativity) : monad_scope.
Notation "m ;;; k" := (mbind m (fun _ => k))
  (at level 61, right associativity) : monad_scope.

Definition set_positions (df : DataFrame.t) (o : IPSRecording) : IPSRecording :=
  {| pb_file := pb_file o; positions := df; magnetics := magnetics o;
     rect_grid := rect_grid o; cell_size := cell_size o |}.

Definition set_magnetics (df : DataFrame.t) (o : IPSRecording) : IPSRecording :=
  {| pb_file := pb_file o; positions := positions o; magnetics := df;
     rect_grid := rect_grid o; cell_size := cell_size o |}.

Definition set_rect_grid_attr (g : ndarray) (o : IPSRecording) : IPSRecording :=
  {| pb_file := pb_file o; positions := positions o; magnetics := magnetics o;
     rect_grid := Some g; cell_size := cell_size o |}.

Definition set_cell_size (c : Z * Z) (o : IPSRecording) : IPSRecording :=
  {| pb_file := pb_file o; positions := positions o; magnetics := magnetics o;
     rect_grid := rect_grid o; cell_size := Some c |}.

(** [open(path, 'rb').read()] *)
Definition open_read (E : env) (path : string) : M (list Byte.byte) :=
  (emit (OpenRead path) ;;;
   match fs E path with
   | Some (RegularFile content) => ret content
   | Some Directory => raise IsADirectoryError
   | None => raise (FileNotFoundError path)
   end)%monad.

Definition position_row (p : proto.Position) : list float :=
  [ proto.pos_t p; proto.pos_x p; proto.pos_y p;
    Float64.of_Z (proto.pos_floor p); Float64.of_Z (proto.pos_type p);
    proto.pos_accuracy p ].

Definition magnetic_row (m : proto.Magnetic) : list float :=
  [ proto.mag_t m; proto.mag_x m; proto.mag_y m; proto.mag_z m;
    proto.mag_accuracy m ].

(** The two frames [read_recording] builds from a deserialized message. *)
Definition build_frames (measurements : proto.Recording)
  : result (DataFrame.t * DataFrame.t) :=
  let positions := DataFrame.empty ["t"; "x"; "y"; "floor"; "type"; "accuracy"]%string in
  let magnetics := DataFrame.empty ["t"; "mx"; "my"; "mz"; "accuracy"]%string in
  let positions :=
    fold_left (fun df ip => DataFrame.loc_set_row df (fst ip) (position_row (snd ip)))
              (enumerate (proto.positions measurements)) positions in
  let magnetics :=
    fold_left (fun df jm => DataFrame.loc_set_row df (fst jm) (magnetic_row (snd jm)))
              (enumerate (proto.magnetics measurements)) magnetics in
  let magnetics :=
    DataFrame.rename magnetics [("x", "mx"); ("y", "my"); ("z", "mz")]%string in
  let magnetics := DataFrame.setitem magnetics "x" 0%float in
  let magnetics := DataFrame.setitem magnetics "y" 0%float in
  (mt <- DataFrame.getitem magnetics "t" ;;
   pt <- DataFrame.getitem positions "t" ;;
   let mask := map (fun t => leb t (Float64.nanmax pt)) mt in
   Ok (positions, DataFrame.getitem_mask magnetics mask))%result.

(** [recordings_proto.FromString(file)]: malformed input raises the schema
    library's [DecodeError]. *)
Definition from_string (E : env) (file : list Byte.byte) : result proto.Recording :=
  match FromString E file with
  | Some measurements => Ok measurements
  | None => Raise DecodeError
  end.

Definition read_recording (E : env) : M (DataFrame.t * DataFrame.t) :=
  (path <- gets pb_file ;;
   file <- open_read E path ;;
   measurements <- lift (from_string E file) ;;
   pm <- lift (build_frames measurements) ;;
   modify (set_positions (fst pm)) ;;;
   modify (set_magnetics (snd pm)) ;;;
   ret pm)%monad.

(** [self.positions.loc[label][c]] and [self.magnetics.loc[label][c]] *)
Definition positions_loc (label : nat) (c : string) : M float :=
  (df <- gets positions ;; lift (DataFrame.loc df label c))%monad.

Definition magnetics_loc (label : nat) (c : string) : M float :=
  (df <- gets magnetics ;; lift (DataFrame.loc df label c))%monad.

(** [self.magnetics.loc[label, c] = v] *)
Definition magnetics_loc_set (label : nat) (c : string) (v : float) : M unit :=
  modify (fun o => set_magnetics (DataFrame.loc_set (magnetics o) label c v) o).

(** How the inner [while] loop of [magnetics_pos_calc] is left: its condition
    failed with the cursor at [row] and the timestamp [tj] read there, or the
    method returned from inside the loop. *)
Inductive flow : Type :=
| Next (row : nat) (tj : float)
| Return.

(** The [while] loop for the ground-truth pair [(i, i+1)].  Every turn moves
    the cursor one row on, and the method returns once the cursor reaches
    [len(self.magnetics.index)]: the body runs at most once more than there
    are rows from the cursor on, which is the [fuel] the [for] loop gives. *)
Fixpoint while_loop (fuel : nat) (i : nat) (speed_x speed_y : float)
  (row : nat) (tj : float) : M flow :=
  (t1 <- positions_loc (i + 1) "t" ;;
   if ltb tj t1 then
     match fuel with
     | O => out_of_fuel
     | S fuel' =>
         ti <- positions_loc i "t" ;;
         xi <- positions_loc i "x" ;;
         magnetics_loc_set row "x" ((tj - ti) * speed_x + xi)%float ;;;
         ti <- positions_loc i "t" ;;
         yi <- positions_loc i "y" ;;
         magnetics_loc_set row "y" ((tj - ti) * speed_y + yi)%float ;;;
         let row := S row in
         n <- gets (fun o => DataFrame.len (magnetics o)) ;;
         if Nat.leb n row then ret Return
         else
           tj <- magnetics_loc row "t" ;;
           while_loop fuel' i speed_x speed_y row tj
     end
   else ret (Next row tj))%monad.

(** The [for] loop over [self.positions.index[:-1]]. *)
Fixpoint for_loop (labels : list nat) (row : nat) (tj : float) : M unit :=
  match labels with
  | [] => ret tt
  | i :: labels' =>
      (x1 <- positions_loc (i + 1) "x" ;;
       x0 <- positions_loc i "x" ;;
       t1 <- positions_loc (i + 1) "t" ;;
       t0 <- positions_loc i "t" ;;
       let speed_x := ((x1 - x0) / (t1 - t0))%float in
       y1 <- positions_loc (i + 1) "y" ;;
       y0 <- positions_loc i "y" ;;
       t1 <- positions_loc (i + 1) "t" ;;
       t0 <- positions_loc i "t" ;;
       let speed_y := ((y1 - y0) / (t1 - t0))%float in
       n <- gets (fun o => DataFrame.len (magnetics o)) ;;
       f <- while_loop (S (n - row)) i speed_x speed_y row tj ;;
       match f with
       | Return => ret tt
       | Next row tj => for_loop labels' row tj
       end)%monad
  end.

Definition magnetics_pos_calc : M unit :=
  (tj <- magnetics_loc 0 "t" ;;
   idx <- gets (fun o => DataFrame.index (positions o)) ;;
   for_loop (removelast idx) 0 tj)%monad.

(** [IPSRecording.__init__]; [IPSRecording_new] below runs it on a fresh object. *)
Definition __init__ (E : env) (path : string) : M unit :=
  (emit (IsFile path) ;;;
   if negb (isfile E path) then
     raise (FileNotFoundError
              ("The specified path " ++ path ++ " isn't a proper file!")%string)
   else
     modify (fun o => {| pb_file := path; positions := positions o;
                         magnetics := magnetics o; rect_grid := rect_grid o;
                         cell_size := cell_size o |}) ;;;
     read_recording E ;;;
     magnetics_pos_calc ;;;
     ret tt)%monad.

(** An object before [__init__] has run: no attribute is set yet, and none is
    read before it is assigned. *)
Definition fresh : world :=
  {| self := {| pb_file := ""%string;
                positions := DataFrame.empty [];
                magnetics := DataFrame.empty [];
                rect_grid := None; cell_size := None |};
     io := [] |}.

(** [IPSRecording(path)] *)
Definition IPSRecording_new (E : env) (path : string)
  : option (result unit * world) :=
  __init__ E path fresh.

(** ** The rectangular grid *)

(** [int(v)] for a number whose integer part is [z]: NaN and the infinities
    have none, and [int] raises [ValueError], respectively [OverflowError]. *)
Definition int_of (v : float) (z : option Z) : result Z :=
  match z with
  | Some z => Ok z
  | None => if is_nan v then Raise ValueError else Raise OverflowError
  end.

(** [int(np.floor(v))] and [int(np.ceil(v))] *)
Definition int_floor (v : float) : result Z := int_of v (Float64.floor v).
Definition int_ceil (v : float) : result Z := int_of v (Float64.ceil v).

(** [int(np.ceil(v) // c)] for a Python [int] [c].  The quotient of the two
    whole numbers is taken exactly ([Z.div] floors, as [//] does); numpy's
    result is that quotient as long as [np.ceil(v)] is below [2^53] in
    magnitude.  A zero divisor makes the quotient infinite or NaN, an infinite
    [v] makes it NaN, and [int] raises on both. *)
Definition int_ceil_floordiv (v : float) (c : Z) : result Z :=
  match Float64.ceil v with
  | Some z =>
      if (c =? 0)%Z then
        if (z =? 0)%Z then Raise ValueError else Raise OverflowError
      else Ok (z / c)%Z
  | None =>
      if is_nan v then Raise ValueError
      else if (c =? 0)%Z then Raise OverflowError else Raise ValueError
  end.

(** [len(range(a, b, c))] and [range(a, b, c)] *)
Definition range_len (a b c : Z) : nat :=
  if (0 <? c)%Z then Z.to_nat ((b - a + c - 1) / c)
  else Z.to_nat ((a - b - c - 1) / (- c)).

Definition range (a b c : Z) : result (list Z) :=
  if (c =? 0)%Z then Raise ValueError
  else Ok (map (fun k => (a + Z.of_nat k * c)%Z) (seq 0 (range_len a b c))).

(** [np.zeros((n, m))] *)
Definition zeros (n m : nat) : ndarray := repeat (repeat 0%float m) n.

Definition shape (g : ndarray) : nat * nat :=
  (List.length g, match g with [] => 0 | r :: _ => List.length r end).

(** An index along an axis of length [n]: a negative one counts from the end. *)
Definition norm_index (n : nat) (i : Z) : option nat :=
  if ((0 <=? i) && (i <? Z.of_nat n))%Z then Some (Z.to_nat i)
  else if ((- Z.of_nat n <=? i) && (i <? 0))%Z then Some (Z.to_nat (i + Z.of_nat n))
  else None.

(** The cell [g[row, col]] addresses, or [IndexError]. *)
Definition index2 (g : ndarray) (row col : Z) : result (nat * nat) :=
  match norm_index (fst (shape g)) row, norm_index (snd (shape g)) col with
  | Some r, Some c => Ok (r, c)
  | _, _ => Raise IndexError
  end.

Definition get2 (g : ndarray) (rc : nat * nat) : float :=
  nth (snd rc) (nth (fst rc) g []) nan.

Fixpoint upd_nth {A : Type} (k : nat) (f : A -> A) (l : list A) : list A :=
  match k, l with
  | _, [] => []
  | O, a :: l' => f a :: l'
  | S k', a :: l' => a :: upd_nth k' f l'
  end.

Definition upd2 (g : ndarray) (rc : nat * nat) (f : float -> float) : ndarray :=
  upd_nth (fst rc) (upd_nth (snd rc) f) g.

(** [magnetic[c]] for a row of [iterrows()] *)
Definition row_get (cols : list string) (cells : list float) (c : string)
  : result float :=
  match DataFrame.col_pos cols c with
  | Some k => Ok (nth k cells nan)
  | None => Raise KeyError
  end.

(** [np.sqrt(pow(mx, 2) + pow(my, 2) + pow(mz, 2))] *)
Definition magnitude (E : env) (mx my mz : float) : float :=
  sqrt (pow E mx 2 + pow E my 2 + pow E mz 2)%float.

Definition the_grid (o : IPSRecording) : ndarray :=
  match rect_grid o with Some g => g | None => [] end.

(** The cell indices of one magnetic sample. *)
Definition cell_of (cols : list string) (x_min y_min : float) (cs : Z * Z)
  (magnetic : list float) : result (Z * Z) :=
  (x <- row_get cols magnetic "x" ;;
   r <- int_ceil_floordiv (x - x_min)%float (fst cs) ;;
   y <- row_get cols magnetic "y" ;;
   c <- int_ceil_floordiv (y - y_min)%float (snd cs) ;;
   Ok (- r, - c)%Z)%result.

(** The loop over [self.magnetics.iterrows()]; [cnt] is the local array of
    counts, [self.rect_grid] is updated in place. *)
Fixpoint grid_loop (E : env) (cols : list string) (x_min y_min : float) (cs : Z * Z)
  (rs : list (nat * list float)) (cnt : ndarray) : M ndarray :=
  match rs with
  | [] => ret cnt
  | (_, magnetic) :: rs' =>
      (rowcol <- lift (cell_of cols x_min y_min cs magnetic) ;;
       g <- gets the_grid ;;
       rc <- lift (index2 g (fst rowcol) (snd rowcol)) ;;
       mx <- lift (row_get cols magnetic "mx") ;;
       my <- lift (row_get cols magnetic "my") ;;
       mz <- lift (row_get cols magnetic "mz") ;;
       modify (set_rect_grid_attr
                 (upd2 g rc (fun v => (v + magnitude E mx my mz)%float))) ;;;
       rc' <- lift (index2 cnt (fst rowcol) (snd rowcol)) ;;
       grid_loop E cols x_min y_min cs rs'
                 (upd2 cnt rc' (fun v => (v + 1)%float)))%monad
  end.

(** [cnt[cnt == 0] = np.NaN] *)
Definition nan_where_zero (cnt : ndarray) : ndarray :=
  map (map (fun c => if eqb c 0 then nan else c)) cnt.

(** [np.divide(a, b)], elementwise on arrays of one shape *)
Definition divide (a b : ndarray) : ndarray :=
  map (fun rr => map (fun p => (fst p / snd p)%float) (combine (fst rr) (snd rr)))
      (combine a b).

(** [set_rect_grid(cell_size, plot)]: [cell_size] is a list of two Python
    [int]s.  Drawing the figure when [plot] is set changes neither the object
    nor the value returned, and is left out. *)
Definition set_rect_grid (E : env) (cs : Z * Z) : M ndarray :=
  (modify (set_cell_size cs) ;;;
   px <- gets positions ;;
   xs <- lift (DataFrame.getitem px "x") ;;
   x_lo <- lift (int_floor (Float64.nanmin xs)) ;;
   x_hi <- lift (int_ceil (Float64.nanmax xs)) ;;
   x_axis <- lift (range x_lo x_hi (fst cs)) ;;
   ys <- lift (DataFrame.getitem px "y") ;;
   y_lo <- lift (int_floor (Float64.nanmin ys)) ;;
   y_hi <- lift (int_ceil (Float64.nanmax ys)) ;;
   y_axis <- lift (range y_lo y_hi (snd cs)) ;;
   let n := (List.length x_axis + 1)%nat in
   let m := (List.length y_axis + 1)%nat in
   modify (set_rect_grid_attr (zeros n m)) ;;;
   let cnt := zeros n m in
   let x_min := Float64.nanmin xs in
   let y_min := Float64.nanmin ys in
   mg <- gets magnetics ;;
   cnt <- grid_loop E (DataFrame.columns mg) x_min y_min cs (DataFrame.rows mg) cnt ;;
   let cnt := nan_where_zero cnt in
   g <- gets the_grid ;;
   modify (set_rect_grid_attr (divide g cnt)) ;;;
   gets the_grid)%monad.

(** ** The vocabulary of the statements *)

(** *** Loaded tables *)

Definition positions_columns : list string :=
  ["t"; "x"; "y"; "floor"; "type"; "accuracy"]%string.

Definition magnetics_columns : list string :=
  ["t"; "mx"; "my"; "mz"; "accuracy"; "x"; "y"]%string.

(** The magnetic row as loaded: the record's five fields and the two
    position cells, still zero. *)
Definition loaded_magnetic_row (m : proto.Magnetic) : list float :=
  (magnetic_row m ++ [0%float]) ++ [0%float].

(** The timestamp cell of a labelled row. *)
Definition row_t (r : nat * list float) : float := nth 0 (snd r) nan.

(** The largest ground-truth timestamp of a message. *)
Definition max_position_t (measurements : proto.Recording) : float :=
  Float64.nanmax (map proto.pos_t (proto.positions measurements)).

Definition positions_of (ps : list proto.Position) : DataFrame.t :=
  DataFrame.make positions_columns (enumerate (map position_row ps)).

Definition loaded_positions (measurements : proto.Recording) : DataFrame.t :=
  positions_of (proto.positions measurements).

Definition loaded_magnetics (measurements : proto.Recording) : DataFrame.t :=
  DataFrame.make magnetics_columns
    (filter (fun r => leb (row_t r) (max_position_t measurements))
            (enumerate (map loaded_magnetic_row (proto.magnetics measurements)))).

(** The message a run of [read_recording] deserializes. *)
Definition deserialized (E : env) (w : world) (measurements : proto.Recording) : Prop :=
  exists content,
    fs E (pb_file (self w)) = Some (RegularFile content) /\
    FromString E content = Some measurements.

(** The state after the file has been opened. *)
Definition opened (w : world) : world :=
  {| self := self w; io := io w ++ [OpenRead (pb_file (self w))] |}.

(** A recording whose tables have been loaded, after any further calls. *)
Inductive loaded : world -> Prop :=
| loaded_read E w0 pm w :
    read_recording E w0 = Some (Ok pm, w) -> loaded w
| loaded_reread E w0 r w :
    loaded w0 -> read_recording E w0 = Some (r, w) -> loaded w
| loaded_calc w0 r w :
    loaded w0 -> magnetics_pos_calc w0 = Some (r, w) -> loaded w
| loaded_grid E cs w0 r w :
    loaded w0 -> set_rect_grid E cs w0 = Some (r, w) -> loaded w.

(** *** Cells of the two tables *)

Definition cell (df : DataFrame.t) (label : nat) (c : string) : option float :=
  match DataFrame.loc df label c with
  | Ok v => Some v
  | Raise _ => None
  end.

(** The ground-truth row [i]: its [t], [x] and [y]. *)
Definition position_at (w : world) (i : nat) : option (float * float * float) :=
  match cell (positions (self w)) i "t", cell (positions (self w)) i "x",
        cell (positions (self w)) i "y" with
  | Some t, Some x, Some y => Some (t, x, y)
  | _, _, _ => None
  end.

Definition position_t (w : world) (i : nat) : option float :=
  cell (positions (self w)) i "t".

(** The timestamp of the magnetic sample [r], and its estimated position. *)
Definition magnetic_t (w : world) (r : nat) : option float :=
  cell (magnetics (self w)) r "t".

Definition estimate (w : world) (r : nat) : option (float * float) :=
  match cell (magnetics (self w)) r "x", cell (magnetics (self w)) r "y" with
  | Some x, Some y => Some (x, y)
  | _, _ => None
  end.

(** The timestamps [f 0 .. f n] are there and in ascending order. *)
Definition ascending (f : nat -> option float) (n : nat) : Prop :=
  forall k, k < n -> exists a b, f k = Some a /\ f (S k) = Some b /\ leb a b = true.

(** *** Interpolation *)

(** The velocity between two ground-truth records, and the position the
    interpolation gives a sample taken at [tm], in the order the code computes
    them. *)
Definition speed_x (p0 p1 : proto.Position) : float :=
  ((proto.pos_x p1 - proto.pos_x p0) / (proto.pos_t p1 - proto.pos_t p0))%float.

Definition speed_y (p0 p1 : proto.Position) : float :=
  ((proto.pos_y p1 - proto.pos_y p0) / (proto.pos_t p1 - proto.pos_t p0))%float.

Definition interp_x (p0 p1 : proto.Position) (tm : float) : float :=
  ((tm - proto.pos_t p0) * speed_x p0 p1 + proto.pos_x p0)%float.

Definition interp_y (p0 p1 : proto.Position) (tm : float) : float :=
  ((tm - proto.pos_t p0) * speed_y p0 p1 + proto.pos_y p0)%float.

(** The shape of a loaded magnetic table, and of a loaded object: every call
    keeps them. *)
Definition mag_wf (M : DataFrame.t) : Prop :=
  DataFrame.columns M = magnetics_columns /\
  Forall (fun r => List.length (snd r) = 7) (DataFrame.rows M).

Definition Inv (ps : list proto.Position) (w : world) : Prop :=
  positions (self w) = positions_of ps /\ mag_wf (magnetics (self w)).

(** The state one turn of the [while] loop leaves, and the row it writes. *)
Definition set_xy (w : world) (row : nat) (vx vy : float) : world :=
  {| self := set_magnetics
               (DataFrame.loc_set
                  (DataFrame.loc_set (magnetics (self w)) row "x" vx) row "y" vy)
               (self w);
     io := io w |}.

Definition upd_xy (cells : list float) (vx vy : float) : list float :=
  DataFrame.set_nth 6 vy (DataFrame.set_nth 5 vx cells).

(** What a run of the loops keeps: the labels, every timestamp, and the rows
    above the cursor. *)
Definition same_upto (row : nat) (w w' : world) : Prop :=
  map fst (DataFrame.rows (magnetics (self w')))
  = map fst (DataFrame.rows (magnetics (self w))) /\
  (forall k,
     option_map (fun c => nth 0 c nan)
                (DataFrame.find_row (DataFrame.rows (magnetics (self w'))) k)
     = option_map (fun c => nth 0 c nan)
                  (DataFrame.find_row (DataFrame.rows (magnetics (self w))) k)) /\
  (forall k, k < row ->
     DataFrame.find_row (DataFrame.rows (magnetics (self w'))) k
     = DataFrame.find_row (DataFrame.rows (magnetics (self w))) k).

(** The magnetic row labelled [row] is there, with the timestamp [tj]. *)
Definition cursor (w : world) (row : nat) (tj : float) : Prop :=
  exists cells,
    DataFrame.find_row (DataFrame.rows (magnetics (self w))) row = Some cells /\
    nth 0 cells nan = tj.

(** The magnetic rows labelled [0 .. r] are there. *)
Definition present (w : world) (r : nat) : Prop :=
  forall k, k <= r ->
    DataFrame.find_row (DataFrame.rows (magnetics (self w))) k <> None.

(** *** The grid *)

Definition with_grid (g : ndarray) (w : world) : world :=
  {| self := set_rect_grid_attr g (self w); io := io w |}.

Definition with_cell_size (cs : Z * Z) (w : world) : world :=
  {| self := set_cell_size cs (self w); io := io w |}.

(** The cell of an [n] by [m] grid a magnetic sample is counted in, when its
    indices are in range. *)
Definition cell_index (cols : list string) (x_min y_min : float) (cs : Z * Z)
  (n m : nat) (magnetic : list float) : option (nat * nat) :=
  match cell_of cols x_min y_min cs magnetic with
  | Ok (r, c) =>
      match norm_index n r, norm_index m c with
      | Some a, Some b => Some (a, b)
      | _, _ => None
      end
  | Raise _ => None
  end.

Definition same_cell (ab : nat * nat) (o : option (nat * nat)) : bool :=
  match o with
  | Some ab' => Nat.eqb (fst ab) (fst ab') && Nat.eqb (snd ab) (snd ab')
  | None => false
  end.

(** The samples of a table counted in the cell [ab], in table order. *)
Definition samples_in (cols : list string) (x_min y_min : float) (cs : Z * Z)
  (n m : nat) (ab : nat * nat) (rs : list (nat * list float)) : list (list float) :=
  filter (fun magnetic => same_cell ab (cell_index cols x_min y_min cs n m magnetic))
         (map snd rs).

(** The magnitude [sqrt(mx^2 + my^2 + mz^2)] of a row of the magnetic table. *)
Definition magnitude_of (E : env) (magnetic : list float) : float :=
  match row_get magnetics_columns magnetic "mx",
        row_get magnetics_columns magnetic "my",
        row_get magnetics_columns magnetic "mz" with
  | Ok mx, Ok my, Ok mz => magnitude E mx my mz
  | _, _, _ => nan
  end.

(** The sum of numbers added one by one to an array cell that starts at zero,
    and the count the cell of [cnt] holds after [k] increments. *)
Definition fsum (l : list float) : float := fold_left add l 0%float.

Fixpoint count_float (k : nat) : float :=
  match k with
  | O => 0%float
  | S k' => (count_float k' + 1)%float
  end.

(** The arithmetic mean of the magnitudes of the samples of a cell, as the
    code computes it: their sum divided by their count, and NaN for no
    sample. *)
Definition cell_mean (E : env) (samples : list (list float)) : float :=
  match samples with
  | [] => nan
  | _ :: _ => (fsum (map (magnitude_of E) samples) / count_float (List.length samples))%float
  end.

(** *** The grid in the words of the specification *)





(** An array of [n] rows of [m] cells. *)
Definition rect (n m : nat) (g : ndarray) : Prop :=
  List.length g = n /\ Forall (fun r => List.length r = m) g.

(** *** Binary64 values *)

(** The signed mantissa of a finite number, and the numbers above zero. *)
Definition num (s : bool) (m : positive) : Z := cond_Zopp s (Zpos m).

Definition SFpos (x : spec_float) : Prop :=
  match x with
  | S754_finite false _ _ | S754_infinity false => True
  | _ => False
  end.

(** ** Small recordings the statements are run on *)

Module Example.

Definition P (t x y : float) : proto.Position :=
  {| proto.pos_t := t; proto.pos_x := x; proto.pos_y := y;
     proto.pos_floor := 0; proto.pos_type := 1; proto.pos_accuracy := 1 |}.

Definition Mg (t x y z : float) : proto.Magnetic :=
  {| proto.mag_t := t; proto.mag_x := x; proto.mag_y := y; proto.mag_z := z;
     proto.mag_accuracy := 1 |}.

(** Three ground-truth points; the second sample is taken at the second
    point's timestamp and the last one after the last point. *)
Definition walk : proto.Recording :=
  {| proto.positions := [P 0 0 0; P 2 4 2; P 4 4 6];
     proto.magnetics := [Mg 0.5 3 4 0; Mg 2 1 0 0; Mg 3 0 0 2; Mg 5 1 1 1] |}.

(** The first sample is taken before the first ground-truth point. *)
Definition early : proto.Recording :=
  {| proto.positions := [P 1 0 0; P 3 4 2];
     proto.magnetics := [Mg 0.5 3 4 0; Mg 2 1 0 0] |}.

(** The only sample is taken after the only ground-truth point. *)
Definition late : proto.Recording :=
  {| proto.positions := [P 1 0 0];
     proto.magnetics := [Mg 2 3 4 0] |}.

(** The device does not move. *)
Definition still : proto.Recording :=
  {| proto.positions := [P 0 0 0; P 2 0 0];
     proto.magnetics := [Mg 1 3 4 0] |}.

(** Two samples of one cell, and a sample of another. *)
Definition pair : proto.Recording :=
  {| proto.positions := [P 0 0 0; P 4 2 0];
     proto.magnetics := [Mg 1 3 4 0; Mg 2 6 8 0; Mg 3 0 0 1] |}.

Definition files : list (string * node) :=
  [ ("walk.pb", RegularFile [Byte.x00]); ("early.pb", RegularFile [Byte.x01]);
    ("late.pb", RegularFile [Byte.x02]); ("still.pb", RegularFile [Byte.x03]);
    ("pair.pb", RegularFile [Byte.x04]); ("bad.pb", RegularFile []);
    ("recordings", Directory) ]%string.

Fixpoint lookup (l : list (string * node)) (path : string) : option node :=
  match l with
  | [] => None
  | (p, n) :: l' => if String.eqb p path then Some n else lookup l' path
  end.

(** [pow(v, 2)] on the recordings of the runs: each of their fields is a
    small whole number, whose square is a float64 number, the product
    [v * v]. *)
Definition square (v exponent : float) : float := (v * v)%float.

Definition E : env :=
  {| fs := lookup files;
     FromString := fun content =>
       match content with
       | [Byte.x00] => Some walk
       | [Byte.x01] => Some early
       | [Byte.x02] => Some late
       | [Byte.x03] => Some still
       | [Byte.x04] => Some pair
       | _ => None
       end;
     pow := square |}.

(** An object whose [pb_file] is set, and the object [read_recording] leaves. *)
Definition at_path (path : string) : world :=
  {| self := {| pb_file := path; positions := DataFrame.empty [];
                magnetics := DataFrame.empty [];
                rect_grid := None; cell_size := None |};
     io := [] |}.

Definition state_of {A : Type} (w0 : world) (run : option (result A * world)) : world :=
  match run with
  | Some (_, w) => w
  | None => w0
  end.

Definition read (path : string) : world :=
  state_of (at_path path) (read_recording E (at_path path)).

(** The object [IPSRecording(path)] leaves. *)
Definition new (path : string) : world :=
  state_of fresh (IPSRecording_new E path).

(** The grid [IPSRecording(path).set_rect_grid(cs)] returns, and the object
    the call leaves. *)
Definition grid (path : string) (cs : Z * Z) : ndarray :=
  match set_rect_grid E cs (new path) with
  | Some (Ok g, _) => g
  | _ => []
  end.

Definition gridded (path : string) (cs : Z * Z) : world :=
  state_of (new path) (set_rect_grid E cs (new path)).

End Example.

(** *** What a call leaves alone *)

(** Everything but the magnetic table is as it was. *)
Definition same_but_magnetics (w w' : world) : Prop :=
  pb_file (self w') = pb_file (self w) /\
  positions (self w') = positions (self w) /\
  rect_grid (self w') = rect_grid (self w) /\
  cell_size (self w') = cell_size (self w) /\
  io w' = io w.

(** The measured cells of a magnetic row: [t], [mx], [my], [mz], [accuracy]. *)
Definition measured (cells : list float) : list float := firstn 5 cells.

(** Two magnetic tables with the same columns, the same labels in the same
    order, and the same measured cells in every row. *)
Definition same_measurements (M M' : DataFrame.t) : Prop :=
  DataFrame.columns M' = DataFrame.columns M /\
  DataFrame.index M' = DataFrame.index M /\
  forall label,
    option_map measured (DataFrame.find_row (DataFrame.rows M') label)
    = option_map measured (DataFrame.find_row (DataFrame.rows M) label).

(** Everything but the grid and the cell size is as it was. *)
Definition same_but_grid (w w' : world) : Prop :=
  pb_file (self w') = pb_file (self w) /\
  positions (self w') = positions (self w) /\
  magnetics (self w') = magnetics (self w) /\
  io w' = io w.

(** ** Recordings at the edges: one ground-truth point, a sample at the last
    ground-truth timestamp, and an empty message *)

Module Runs.

Definition lone : proto.Recording :=
  {| proto.positions := [Example.P 1 0 0];
     proto.magnetics := [Example.Mg 1 3 4 0] |}.

Definition ending : proto.Recording :=
  {| proto.positions := [Example.P 0 0 0; Example.P 2 4 2];
     proto.magnetics := [Example.Mg 1 3 4 0; Example.Mg 2 1 0 0] |}.

Definition nothing : proto.Recording :=
  {| proto.positions := []; proto.magnetics := [] |}.

Definition files : list (string * node) :=
  [ ("lone.pb", RegularFile [Byte.x10]); ("ending.pb", RegularFile [Byte.x11]);
    ("nothing.pb", RegularFile [Byte.x12]); ("bad.pb", RegularFile []);
    ("recordings", Directory) ]%string.

Definition E : env :=
  {| fs := Example.lookup files;
     FromString := fun content =>
       match content with
       | [Byte.x10] => Some lone
       | [Byte.x11] => Some ending
       | [Byte.x12] => Some nothing
       | _ => None
       end;
     pow := Example.square |}.

(** The object [read_recording] leaves, and the one a further call of
    [magnetics_pos_calc] leaves. *)
Definition read (path : string) : world :=
  Example.state_of (Example.at_path path) (read_recording E (Example.at_path path)).

Definition calc (w : world) : world :=
  Example.state_of w (magnetics_pos_calc w).

End Runs.

(** ** A recording with a sample that carries no time *)

Module Unstamped.

(** The second magnetic record has a NaN timestamp. *)
Definition gap : proto.Recording :=
  {| proto.positions := [Example.P 0 0 0; Example.P 2 4 2];
     proto.magnetics := [Example.Mg 1 3 4 0; Example.Mg nan 1 0 0;
                         Example.Mg 2 0 0 2] |}.

Definition files : list (string * node) :=
  [ ("gap.pb", RegularFile [Byte.x20]) ]%string.

Definition E : env :=
  {| fs := Example.lookup files;
     FromString := fun content =>
       match content with
       | [Byte.x20] => Some gap
       | _ => None
       end;
     pow := Example.square |}.

Definition read (path : string) : world :=
  Example.state_of (Example.at_path path) (read_recording E (Example.at_path path)).

End Unstamped.

(** ** Facts on binary64 numbers *)

Module Float64Facts.
Import Float64.

Ltac cmp_cases :=
  repeat match goal with
  | |- context [Z.compare ?a ?b] => destruct (Z.compare_spec a b)
  | H : context [Z.compare ?a ?b] |- _ => destruct (Z.compare_spec a b)
  | |- context [Pos.compare_cont Eq ?a ?b] =>
      change (Pos.compare_cont Eq a b) with (Pos.compare a b);
      destruct (Pos.compare_spec a b)
  | H : context [Pos.compare_cont Eq ?a ?b] |- _ =>
      change (Pos.compare_cont Eq a b) with (Pos.compare a b) in H;
      destruct (Pos.compare_spec a b)
  end.

Ltac sf_order :=
  unfold SFleb, SFltb, SFeqb, SFcompare in *;
  repeat match goal with
  | x : spec_float |- _ => destruct x
  | s : bool |- _ => destruct s
  end; simpl in *; try congruence;
  cmp_cases; simpl in *; subst; try congruence; try lia;
  try (left; congruence); try (right; congruence).

Lemma SFleb_trans a b c :
  SFleb a b = true -> SFleb b c = true -> SFleb a c = true.
Proof. intros; sf_order. Qed.

Lemma SFltb_leb_trans a b c :
  SFltb a b = true -> SFleb b c = true -> SFltb a c = true.
Proof. intros; sf_order. Qed.

Lemma SFleb_ltb_trans a b c :
  SFleb a b = true -> SFltb b c = true -> SFltb a c = true.
Proof. intros; sf_order. Qed.

Lemma SFleb_not_ltb a b : SFleb a b = true -> SFltb b a = false.
Proof. intros; sf_order. Qed.

Lemma SFltb_leb a b : SFltb a b = true -> SFleb a b = true.
Proof. intros; sf_order. Qed.

Lemma SFleb_total a b :
  a <> S754_nan -> b <> S754_nan -> SFltb a b = false -> SFleb b a = true.
Proof. intros; sf_order. Qed.

Lemma SFleb_refl a : a <> S754_nan -> SFleb a a = true.
Proof. intros; sf_order. Qed.

Lemma SFeqb_refl a : SFeqb a a = negb (match a with S754_nan => true | _ => false end).
Proof. sf_order. Qed.

Lemma SFleb_not_nan a b : SFleb a b = true -> a <> S754_nan /\ b <> S754_nan.
Proof. intros; split; intro; sf_order. Qed.

Lemma SFltb_not_nan a b : SFltb a b = true -> a <> S754_nan /\ b <> S754_nan.
Proof. intros; split; intro; sf_order. Qed.

Lemma SFeqb_leb a b : SFeqb a b = true -> SFleb a b = true /\ SFleb b a = true.
Proof. intros; split; sf_order. Qed.

(** The same facts on the primitive numbers. *)

Lemma is_nan_false (x : float) : is_nan x = false <-> Prim2SF x <> S754_nan.
Proof.
  unfold is_nan. rewrite eqb_spec, SFeqb_refl, negb_involutive.
  destruct (Prim2SF x); split; congruence.
Qed.

Lemma leb_trans (a b c : float) :
  leb a b = true -> leb b c = true -> leb a c = true.
Proof. rewrite !leb_spec. apply SFleb_trans. Qed.

Lemma ltb_leb_trans (a b c : float) :
  ltb a b = true -> leb b c = true -> ltb a c = true.
Proof. rewrite !leb_spec, !ltb_spec. apply SFltb_leb_trans. Qed.

Lemma leb_ltb_trans (a b c : float) :
  leb a b = true -> ltb b c = true -> ltb a c = true.
Proof. rewrite !leb_spec, !ltb_spec. apply SFleb_ltb_trans. Qed.

Lemma leb_not_ltb (a b : float) : leb a b = true -> ltb b a = false.
Proof. rewrite !leb_spec, !ltb_spec. apply SFleb_not_ltb. Qed.

Lemma ltb_leb (a b : float) : ltb a b = true -> leb a b = true.
Proof. rewrite !leb_spec, !ltb_spec. apply SFltb_leb. Qed.

Lemma not_ltb_leb (a b : float) :
  is_nan a = false -> is_nan b = false -> ltb a b = false -> leb b a = true.
Proof. rewrite !is_nan_false, !leb_spec, !ltb_spec. apply SFleb_total. Qed.

Lemma leb_refl (a : float) : is_nan a = false -> leb a a = true.
Proof. rewrite is_nan_false, leb_spec. apply SFleb_refl. Qed.

Lemma leb_is_nan (a b : float) :
  leb a b = true -> is_nan a = false /\ is_nan b = false.
Proof. rewrite !is_nan_false, leb_spec. apply SFleb_not_nan. Qed.

Lemma ltb_is_nan (a b : float) :
  ltb a b = true -> is_nan a = false /\ is_nan b = false.
Proof. rewrite !is_nan_false, ltb_spec. apply SFltb_not_nan. Qed.

Lemma eqb_leb (a b : float) :
  eqb a b = true -> leb a b = true /\ leb b a = true.
Proof. rewrite eqb_spec, !leb_spec. apply SFeqb_leb. Qed.

(** Addition commutes, and a division by NaN is NaN. *)
Lemma add_comm (x y : float) : (x + y = y + x)%float.
Proof.
  apply Prim2SF_inj. rewrite !add_spec. unfold SF64add, SFadd.
  destruct (Prim2SF x) as [sx|sx| |sx mx ex], (Prim2SF y) as [sy|sy| |sy my ey];
    try reflexivity.
  - destruct sx, sy; reflexivity.
  - destruct sx, sy; reflexivity.
  - rewrite Z.min_comm. f_equal. apply Z.add_comm.
Qed.

Lemma div_nan (x : float) : (x / nan = nan)%float.
Proof.
  apply Prim2SF_inj. rewrite div_spec. unfold SF64div, SFdiv.
  change (Prim2SF nan) with S754_nan.
  destruct (Prim2SF x); reflexivity.
Qed.

(** [nanmax] and [nanmin] skip NaN and bound what is left. *)

Lemma max_step_spec (acc v : float) :
  (max_step acc v = acc \/ max_step acc v = v) /\
  (is_nan acc = false -> is_nan (max_step acc v) = false /\ leb acc (max_step acc v) = true) /\
  (is_nan v = false -> is_nan (max_step acc v) = false /\ leb v (max_step acc v) = true).
Proof.
  unfold max_step.
  destruct (is_nan v) eqn:Hv, (is_nan acc) eqn:Ha; try destruct (ltb acc v) eqn:Hlt;
    repeat split; intros; try congruence;
    auto using leb_refl, ltb_leb, not_ltb_leb.
Qed.

Lemma min_step_spec (acc v : float) :
  (min_step acc v = acc \/ min_step acc v = v) /\
  (is_nan acc = false -> is_nan (min_step acc v) = false /\ leb (min_step acc v) acc = true) /\
  (is_nan v = false -> is_nan (min_step acc v) = false /\ leb (min_step acc v) v = true).
Proof.
  unfold min_step.
  destruct (is_nan v) eqn:Hv, (is_nan acc) eqn:Ha; try destruct (ltb v acc) eqn:Hlt;
    repeat split; intros; try congruence;
    auto using leb_refl, ltb_leb, not_ltb_leb.
Qed.

Lemma fold_max_spec (l : list float) : forall acc,
  (fold_left max_step l acc = acc \/ In (fold_left max_step l acc) l) /\
  (is_nan acc = false ->
     is_nan (fold_left max_step l acc) = false /\
     leb acc (fold_left max_step l acc) = true) /\
  (forall v, In v l -> is_nan v = false ->
     is_nan (fold_left max_step l acc) = false /\
     leb v (fold_left max_step l acc) = true).
Proof.
  induction l as [|a l IH]; intros acc; simpl.
  - repeat split; auto using leb_refl; contradiction.
  - destruct (IH (max_step acc a)) as (Hin & Hacc & Hall).
    destruct (max_step_spec acc a) as (Hor & Hsa & Hsv).
    split; [|split].
    + destruct Hin as [-> | Hin]; [destruct Hor as [-> | ->]|]; auto.
    + intros Ha. destruct (Hsa Ha) as (Hn & Hle). destruct (Hacc Hn) as (Hn' & Hle').
      split; eauto using leb_trans.
    + intros v [<- | Hv] Hnv; [|auto].
      destruct (Hsv Hnv) as (Hn & Hle). destruct (Hacc Hn) as (Hn' & Hle').
      split; eauto using leb_trans.
Qed.

Lemma fold_min_spec (l : list float) : forall acc,
  (fold_left min_step l acc = acc \/ In (fold_left min_step l acc) l) /\
  (is_nan acc = false ->
     is_nan (fold_left min_step l acc) = false /\
     leb (fold_left min_step l acc) acc = true) /\
  (forall v, In v l -> is_nan v = false ->
     is_nan (fold_left min_step l acc) = false /\
     leb (fold_left min_step l acc) v = true).
Proof.
  induction l as [|a l IH]; intros acc; simpl.
  - repeat split; auto using leb_refl; contradiction.
  - destruct (IH (min_step acc a)) as (Hin & Hacc & Hall).
    destruct (min_step_spec acc a) as (Hor & Hsa & Hsv).
    split; [|split].
    + destruct Hin as [-> | Hin]; [destruct Hor as [-> | ->]|]; auto.
    + intros Ha. destruct (Hsa Ha) as (Hn & Hle). destruct (Hacc Hn) as (Hn' & Hle').
      split; eauto using leb_trans.
    + intros v [<- | Hv] Hnv; [|auto].
      destruct (Hsv Hnv) as (Hn & Hle). destruct (Hacc Hn) as (Hn' & Hle').
      split; eauto using leb_trans.
Qed.

Lemma nanmax_ge (l : list float) (v : float) :
  In v l -> is_nan v = false -> leb v (nanmax l) = true.
Proof. intros Hin Hv. apply (fold_max_spec l nan); assumption. Qed.

Lemma nanmin_le (l : list float) (v : float) :
  In v l -> is_nan v = false -> leb (nanmin l) v = true.
Proof. intros Hin Hv. apply (fold_min_spec l nan); assumption. Qed.

Lemma nanmin_In (l : list float) : is_nan (nanmin l) = false -> In (nanmin l) l.
Proof.
  intros Hn. destruct (fold_min_spec l nan) as ([Heq | Hin] & _); [|exact Hin].
  unfold nanmin in Hn. rewrite Heq in Hn. discriminate.
Qed.

Lemma nanmin_le_nanmax (l : list float) :
  is_nan (nanmin l) = false -> leb (nanmin l) (nanmax l) = true.
Proof. intros Hn. apply nanmax_ge; auto using nanmin_In. Qed.

(** *** Integer parts

    A number's exact value is [num s m * 2^e]; the order of two valid
    numbers is the order of their values. *)

Lemma digits2_pos_bounds (m : positive) :
  (2 ^ (Zpos (digits2_pos m) - 1) <= Zpos m < 2 ^ Zpos (digits2_pos m))%Z.
Proof.
  induction m as [m IH | m IH |]; simpl digits2_pos.
  - rewrite Pos2Z.inj_succ, Z.pow_succ_r by lia.
    replace (Z.succ (Zpos (digits2_pos m)) - 1)%Z
      with (Z.succ (Zpos (digits2_pos m) - 1)) by lia.
    rewrite Z.pow_succ_r by lia. lia.
  - rewrite Pos2Z.inj_succ, Z.pow_succ_r by lia.
    replace (Z.succ (Zpos (digits2_pos m)) - 1)%Z
      with (Z.succ (Zpos (digits2_pos m) - 1)) by lia.
    rewrite Z.pow_succ_r by lia. lia.
  - simpl. lia.
Qed.

Lemma bounded_digits (m : positive) (e : Z) :
  bounded prec emax m e = true ->
  (Zpos m < 2 ^ 53 /\ -1074 <= e /\ (-1074 < e -> 2 ^ 52 <= Zpos m))%Z.
Proof.
  unfold bounded, canonical_mantissa, fexp, SpecFloat.emin, prec, emax.
  intros H. apply andb_prop in H. destruct H as (H & _).
  apply Z.eqb_eq in H.
  pose proof (digits2_pos_bounds m) as (Hlo & Hhi).
  set (d := Zpos (digits2_pos m)) in *.
  assert (Hd : (d <= 53)%Z) by lia.
  split; [|split].
  - apply Z.lt_le_trans with (2 ^ d)%Z; [exact Hhi|].
    apply Z.pow_le_mono_r; lia.
  - lia.
  - intros He. assert (d = 53)%Z by lia. subst d.
    replace 52%Z with (Zpos (digits2_pos m) - 1)%Z by lia. exact Hlo.
Qed.

Lemma bounded_lt_exp (m1 m2 : positive) (e1 e2 : Z) :
  bounded prec emax m1 e1 = true -> bounded prec emax m2 e2 = true ->
  (e1 < e2)%Z -> (Zpos m1 <= Zpos m2 * 2 ^ (e2 - e1))%Z.
Proof.
  intros H1 H2 He.
  apply bounded_digits in H1. apply bounded_digits in H2.
  destruct H1 as (Hm1 & He1 & _). destruct H2 as (_ & _ & Hm2).
  assert (H52 : (2 ^ 52 <= Zpos m2)%Z) by (apply Hm2; lia).
  assert (H2 : (2 ^ 1 <= 2 ^ (e2 - e1))%Z) by (apply Z.pow_le_mono_r; lia).
  change (2 ^ 53)%Z with (2 ^ 52 * 2 ^ 1)%Z in Hm1.
  nia.
Qed.

Lemma shiftl_floor_le_ceil (a e : Z) : (Z.shiftl a e <= - Z.shiftl (- a) e)%Z.
Proof.
  destruct (Z.le_gt_cases 0 e) as [He | He].
  - rewrite !Z.shiftl_mul_pow2 by lia. lia.
  - rewrite !Z.shiftl_div_pow2 by lia.
    assert (Hd : (0 < 2 ^ (- e))%Z) by (apply Z.pow_pos_nonneg; lia).
    pose proof (Z.mul_div_le a _ Hd). pose proof (Z.mul_div_le (- a) _ Hd).
    nia.
Qed.

Lemma shiftl_mono (a b e : Z) : (a <= b)%Z -> (Z.shiftl a e <= Z.shiftl b e)%Z.
Proof.
  intros Hab. destruct (Z.le_gt_cases 0 e) as [He | He].
  - rewrite !Z.shiftl_mul_pow2 by lia.
    apply Z.mul_le_mono_nonneg_r; [apply Z.pow_nonneg; lia | exact Hab].
  - rewrite !Z.shiftl_div_pow2 by lia.
    apply Z.div_le_mono; [apply Z.pow_pos_nonneg; lia | exact Hab].
Qed.

Lemma shiftl_rescale (a e k : Z) :
  (0 <= k)%Z -> Z.shiftl (a * 2 ^ k) e = Z.shiftl a (k + e).
Proof.
  intros Hk. rewrite <- Z.shiftl_mul_pow2 by exact Hk.
  apply Z.shiftl_shiftl. exact Hk.
Qed.

(** The floor of the smaller is at most the ceiling of the larger, the two
    being given at a common exponent [e]. *)
Lemma floor_ceil_scaled (a b e1 e2 : Z) :
  (a * 2 ^ (e1 - Z.min e1 e2) <= b * 2 ^ (e2 - Z.min e1 e2))%Z ->
  (Z.shiftl a e1 <= - Z.shiftl (- b) e2)%Z.
Proof.
  intros H. set (e := Z.min e1 e2) in *.
  replace (Z.shiftl a e1) with (Z.shiftl (a * 2 ^ (e1 - e)) e)
    by (rewrite shiftl_rescale by lia; f_equal; lia).
  replace (Z.shiftl (- b) e2) with (Z.shiftl (- (b * 2 ^ (e2 - e))) e)
    by (rewrite <- Z.mul_opp_l, shiftl_rescale by lia; f_equal; lia).
  eapply Z.le_trans; [apply shiftl_mono, H | apply shiftl_floor_le_ceil].
Qed.

Lemma SFfloor_le_SFceil (a b : spec_float) (fa cb : Z) :
  valid_binary a = true -> valid_binary b = true ->
  SFleb a b = true ->
  SFfloor a = Some fa -> SFceil b = Some cb -> (fa <= cb)%Z.
Proof.
  intros Va Vb Hle Hfa Hcb.
  destruct a as [sa|sa| |sa ma ea], b as [sb|sb| |sb mb eb];
    simpl in Hfa, Hcb; try discriminate;
    injection Hfa as <-; injection Hcb as <-.
  - lia.
  - destruct sb; [sf_order|]. cbn [negb cond_Zopp].
    change (Z.neg mb) with (- Z.pos mb)%Z.
    apply Z.le_trans with (Z.shiftl 0 0); [simpl; lia|].
    apply floor_ceil_scaled. rewrite Z.mul_0_l.
    apply Z.mul_nonneg_nonneg; [lia | apply Z.pow_nonneg; lia].
  - destruct sa; [|sf_order]. cbn [cond_Zopp].
    apply Z.le_trans with (- Z.shiftl (- 0) 0)%Z; [|simpl; lia].
    apply floor_ceil_scaled. rewrite Z.mul_0_l.
    assert (0 <= 2 ^ (ea - Z.min ea 0))%Z by (apply Z.pow_nonneg; lia).
    nia.
  - simpl in Va, Vb.
    replace (cond_Zopp (negb sb) (Z.pos mb)) with (- cond_Zopp sb (Z.pos mb))%Z
      by (destruct sb; reflexivity).
    apply floor_ceil_scaled.
    assert (Ha : (0 < 2 ^ (ea - Z.min ea eb))%Z) by (apply Z.pow_pos_nonneg; lia).
    assert (Hb : (0 < 2 ^ (eb - Z.min ea eb))%Z) by (apply Z.pow_pos_nonneg; lia).
    unfold SFleb, SFcompare in Hle.
    destruct sa, sb; cbn [cond_Zopp]; try discriminate; try nia.
    + destruct (Z.compare_spec ea eb) as [-> | Hlt | Hgt]; try discriminate.
      * rewrite Z.min_id, Z.sub_diag in *. simpl.
        change (Pos.compare_cont Eq ma mb) with (Pos.compare ma mb) in Hle.
        destruct (Pos.compare_spec ma mb); simpl in Hle; try discriminate; lia.
      * pose proof (bounded_lt_exp _ _ _ _ Vb Va Hgt).
        rewrite Z.min_r, Z.sub_diag in * by lia. simpl (2 ^ 0)%Z. lia.
    + destruct (Z.compare_spec ea eb) as [-> | Hlt | Hgt]; try discriminate.
      * rewrite Z.min_id, Z.sub_diag in *. simpl.
        change (Pos.compare_cont Eq ma mb) with (Pos.compare ma mb) in Hle.
        destruct (Pos.compare_spec ma mb); simpl in Hle; try discriminate; lia.
      * pose proof (bounded_lt_exp _ _ _ _ Va Vb Hlt).
        rewrite Z.min_l, Z.sub_diag in * by lia. simpl (2 ^ 0)%Z. lia.
Qed.

Lemma floor_le_ceil (a b : float) (fa cb : Z) :
  leb a b = true -> floor a = Some fa -> ceil b = Some cb -> (fa <= cb)%Z.
Proof.
  unfold floor, ceil. rewrite leb_spec.
  apply SFfloor_le_SFceil; apply Prim2SF_valid.
Qed.

(** *** Counting in binary64

    Adding two positive numbers gives a positive number: the rounding never
    shifts every digit out. *)

Lemma shr_1_m (mrs : shr_record) :
  (0 <= shr_m mrs)%Z -> shr_m (shr_1 mrs) = (shr_m mrs / 2)%Z.
Proof.
  destruct mrs as [m r s]. simpl. intros Hm.
  destruct m as [|p|p]; [reflexivity| |lia].
  destruct p as [p|p|]; simpl shr_m.
  - rewrite Pos2Z.inj_xI. apply Z.div_unique with 1%Z; lia.
  - rewrite Pos2Z.inj_xO. apply Z.div_unique with 0%Z; lia.
  - reflexivity.
Qed.

Lemma pow2_xO (n : positive) : (2 ^ Zpos n~0 = 2 ^ Zpos n * 2 ^ Zpos n)%Z.
Proof. change (Zpos n~0) with (2 * Zpos n)%Z. apply Z.pow_twice_r. Qed.

Lemma pow2_xI (n : positive) : (2 ^ Zpos n~1 = 2 * (2 ^ Zpos n * 2 ^ Zpos n))%Z.
Proof.
  change (Zpos n~1) with (2 * Zpos n + 1)%Z.
  rewrite Z.pow_add_r, Z.pow_twice_r, Z.pow_1_r by lia. lia.
Qed.

Lemma iter_shr_1_m (n : positive) : forall mrs,
  (0 <= shr_m mrs)%Z ->
  shr_m (iter_pos shr_1 n mrs) = (shr_m mrs / 2 ^ Zpos n)%Z.
Proof.
  induction n as [n IH | n IH |]; intros mrs Hm; simpl iter_pos.
  - assert (Hp : (0 < 2 ^ Zpos n)%Z) by (apply Z.pow_pos_nonneg; lia).
    assert (H1 : (0 <= shr_m (shr_1 mrs))%Z)
      by (rewrite shr_1_m by exact Hm; apply Z.div_pos; lia).
    assert (H2 : (0 <= shr_m (iter_pos shr_1 n (shr_1 mrs)))%Z)
      by (rewrite IH by exact H1; apply Z.div_pos; assumption).
    rewrite IH, IH, shr_1_m by assumption.
    rewrite !Z.div_div by lia. rewrite pow2_xI. f_equal; lia.
  - assert (Hp : (0 < 2 ^ Zpos n)%Z) by (apply Z.pow_pos_nonneg; lia).
    assert (H2 : (0 <= shr_m (iter_pos shr_1 n mrs))%Z)
      by (rewrite IH by exact Hm; apply Z.div_pos; assumption).
    rewrite IH, IH by assumption.
    rewrite !Z.div_div by lia. rewrite pow2_xO. reflexivity.
  - rewrite shr_1_m by exact Hm. reflexivity.
Qed.

Lemma shr_fexp_pos (m : positive) (e : Z) (l : location) :
  (-1074 <= e)%Z ->
  (0 < shr_m (fst (shr_fexp prec emax (Zpos m) e l)))%Z /\
  (-1074 <= snd (shr_fexp prec emax (Zpos m) e l))%Z.
Proof.
  intros He. unfold shr_fexp, shr, fexp, SpecFloat.emin, prec, emax. simpl Zdigits2.
  pose proof (digits2_pos_bounds m) as (Hlo & _).
  set (d := Zpos (digits2_pos m)) in *.
  assert (Hrec : shr_m (shr_record_of_loc (Zpos m) l) = Zpos m)
    by (destruct l as [|[ | | ]]; reflexivity).
  destruct (Z.max (d + e - 53) (3 - 1024 - 53) - e)%Z as [|p|p] eqn:Hn;
    simpl fst; simpl snd; rewrite ?Hrec; try (split; lia).
  rewrite iter_shr_1_m by (rewrite Hrec; lia). rewrite Hrec.
  assert (Hp : Zpos p = (d - 53)%Z) by lia.
  split; [|lia].
  apply Z.lt_le_trans with (2 ^ 52)%Z; [reflexivity|].
  apply Z.div_le_lower_bound; [apply Z.pow_pos_nonneg; lia|].
  rewrite Hp, <- Z.pow_add_r by lia.
  replace (d - 53 + 52)%Z with (d - 1)%Z by lia. exact Hlo.
Qed.

Lemma round_nearest_even_pos (m : Z) (l : location) :
  (0 < m)%Z -> (0 < round_nearest_even m l)%Z.
Proof.
  intros Hm. unfold round_nearest_even.
  destruct l as [|[ | | ]]; try destruct (Z.even m); lia.
Qed.

Lemma binary_round_aux_pos (m : positive) (e : Z) (l : location) :
  (-1074 <= e)%Z -> SFpos (binary_round_aux prec emax false (Zpos m) e l).
Proof.
  intros He. unfold binary_round_aux.
  destruct (shr_fexp_pos m e l He) as (Hm1 & He1).
  destruct (shr_fexp prec emax (Zpos m) e l) as [mrs' e']. simpl fst in Hm1. simpl snd in He1.
  pose proof (round_nearest_even_pos _ (loc_of_shr_record mrs') Hm1) as Hr.
  destruct (round_nearest_even (shr_m mrs') (loc_of_shr_record mrs')) as [|m1|m1]; try lia.
  destruct (shr_fexp_pos m1 e' loc_Exact He1) as (Hm2 & _).
  destruct (shr_fexp prec emax (Zpos m1) e' loc_Exact) as [mrs2 e2]. simpl fst in Hm2.
  destruct (shr_m mrs2); try lia.
  destruct (Z.leb e2 (emax - prec)); exact I.
Qed.

Lemma binary_round_pos (m : positive) (e : Z) :
  (-1074 <= e)%Z -> SFpos (binary_round prec emax false m e).
Proof.
  intros He. unfold binary_round, shl_align.
  destruct (fexp prec emax (Zpos (digits2_pos m) + e) - e)%Z eqn:Hn;
    apply binary_round_aux_pos; try exact He.
  unfold fexp, SpecFloat.emin, prec, emax. lia.
Qed.

Lemma SFadd_pos (m1 m2 : positive) (e1 e2 : Z) :
  bounded prec emax m1 e1 = true -> bounded prec emax m2 e2 = true ->
  SFpos (SF64add (S754_finite false m1 e1) (S754_finite false m2 e2)).
Proof.
  intros H1 H2. apply bounded_digits in H1, H2.
  unfold SF64add, SFadd. cbn [cond_Zopp]. simpl Z.add. cbn [binary_normalize].
  apply binary_round_pos. lia.
Qed.

(** A count that has been incremented at least once is not zero. *)
Lemma succ_pos (c : float) :
  Prim2SF c = S754_zero false \/ SFpos (Prim2SF c) -> SFpos (Prim2SF (c + 1)%float).
Proof.
  intros H. rewrite add_spec.
  change (Prim2SF 1) with (S754_finite false 4503599627370496 (-52)).
  pose proof (Prim2SF_valid c) as Hv.
  destruct H as [-> | H]; [exact I|].
  destruct (Prim2SF c) as [s|s| |s m e]; try destruct s; try contradiction.
  - exact I.
  - apply SFadd_pos; [exact Hv | reflexivity].
Qed.

Lemma pos_eqb_zero (c : float) : SFpos (Prim2SF c) -> eqb c 0 = false.
Proof.
  rewrite eqb_spec. change (Prim2SF 0) with (S754_zero false).
  destruct (Prim2SF c) as [s|s| |s m e]; try destruct s; simpl; intros H;
    try contradiction; reflexivity.
Qed.

End Float64Facts.

(** ** Facts on data frames *)

Module DataFrameFacts.
Import DataFrame.

Lemma put_row_fresh (rs : list (nat * list float)) (label : nat) (cells : list float) :
  Forall (fun r => fst r < label) rs ->
  put_row rs label cells = rs ++ [(label, cells)].
Proof.
  induction 1 as [|[l old] rs Hl _ IH]; simpl; [reflexivity|].
  simpl in Hl. destruct (Nat.eqb_spec l label); [lia|]. now rewrite IH.
Qed.

Lemma fold_loc_set_row {A : Type} (f : A -> list float) (cols : list string)
  (l : list A) : forall (k : nat) (rs : list (nat * list float)),
  Forall (fun r => fst r < k) rs ->
  fold_left (fun df ia => loc_set_row df (fst ia) (f (snd ia)))
            (combine (seq k (List.length l)) l) (make cols rs)
  = make cols (rs ++ combine (seq k (List.length l)) (map f l)).
Proof.
  induction l as [|a l IH]; intros k rs Hrs; simpl.
  - now rewrite app_nil_r.
  - unfold loc_set_row at 2. simpl. rewrite put_row_fresh by exact Hrs.
    rewrite IH.
    + now rewrite <- app_assoc.
    + apply Forall_app. split.
      * eapply Forall_impl; [|exact Hrs]. simpl. intros; lia.
      * constructor; [simpl; lia | constructor].
Qed.

Lemma fold_loc_set_row_enumerate {A : Type} (f : A -> list float)
  (cols : list string) (l : list A) :
  fold_left (fun df ia => loc_set_row df (fst ia) (f (snd ia)))
            (enumerate l) (empty cols)
  = make cols (enumerate (map f l)).
Proof.
  unfold enumerate, empty. rewrite fold_loc_set_row by constructor.
  now rewrite length_map.
Qed.

Lemma map_enumerate {A B : Type} (f : A -> B) (l : list A) :
  map (fun r => (fst r, f (snd r))) (enumerate l) = enumerate (map f l).
Proof.
  unfold enumerate. rewrite length_map. generalize 0.
  induction l as [|a l IH]; intros k; simpl; [reflexivity|]. now rewrite IH.
Qed.

Lemma mask_filter {A : Type} (p : A -> bool) (l : list A) :
  map fst (filter (fun rb => snd rb) (combine l (map p l))) = filter p l.
Proof.
  induction l as [|a l IH]; simpl; [reflexivity|].
  destruct (p a); simpl; now rewrite IH.
Qed.

End DataFrameFacts.

Lemma snd_enumerate {A B : Type} (g : A -> B) (l : list A) :
  map (fun r => g (snd r)) (enumerate l) = map g l.
Proof.
  unfold enumerate. generalize 0.
  induction l as [|a l IH]; intros k; simpl; [reflexivity|]. now rewrite IH.
Qed.

Lemma build_frames_ok (measurements : proto.Recording) :
  build_frames measurements
  = Ok (loaded_positions measurements, loaded_magnetics measurements).
Proof.
  unfold build_frames.
  rewrite !DataFrameFacts.fold_loc_set_row_enumerate.
  unfold DataFrame.rename, DataFrame.setitem, DataFrame.getitem. simpl.
  unfold DataFrame.getitem_mask. simpl.
  rewrite map_map. simpl.
  rewrite (DataFrameFacts.map_enumerate (fun c => (c ++ [0%float]) ++ [0%float])), map_map.
  change (fun x => (magnetic_row x ++ [0%float]) ++ [0%float]) with loaded_magnetic_row.
  rewrite (snd_enumerate (fun c => nth 0 c nan)).
  rewrite (map_map (fun r : nat * list float => nth 0 (snd r) nan)).
  rewrite DataFrameFacts.mask_filter.
  unfold loaded_positions, loaded_magnetics, max_position_t.
  rewrite (map_map position_row). reflexivity.
Qed.

Module PosCalcFacts.
Import DataFrame.

Lemma find_row_combine_seq {A : Type} (f : A -> list float) (l : list A) :
  forall s k, find_row (combine (seq s (List.length l)) (map f l)) k
              = if k <? s then None else option_map f (nth_error l (k - s)).
Proof.
  induction l as [|a l IH]; intros s k; simpl.
  - destruct (k <? s); [reflexivity|]. now destruct (k - s).
  - destruct (Nat.eqb_spec s k) as [-> | Hne].
    + rewrite Nat.ltb_irrefl, Nat.sub_diag. reflexivity.
    + rewrite IH. destruct (Nat.ltb_spec k s), (Nat.ltb_spec k (S s)); try lia; auto.
      replace (k - s) with (S (k - S s)) by lia. reflexivity.
Qed.

Lemma find_row_positions (ps : list proto.Position) (k : nat) :
  find_row (rows (positions_of ps)) k = option_map position_row (nth_error ps k).
Proof.
  unfold positions_of, enumerate. simpl. rewrite length_map.
  rewrite find_row_combine_seq. simpl. now rewrite Nat.sub_0_r.
Qed.

Lemma loc_positions_t ps k p :
  nth_error ps k = Some p -> loc (positions_of ps) k "t" = Ok (proto.pos_t p).
Proof. intros H. unfold loc. rewrite find_row_positions, H. reflexivity. Qed.

Lemma loc_positions_x ps k p :
  nth_error ps k = Some p -> loc (positions_of ps) k "x" = Ok (proto.pos_x p).
Proof. intros H. unfold loc. rewrite find_row_positions, H. reflexivity. Qed.

Lemma loc_positions_y ps k p :
  nth_error ps k = Some p -> loc (positions_of ps) k "y" = Ok (proto.pos_y p).
Proof. intros H. unfold loc. rewrite find_row_positions, H. reflexivity. Qed.

Lemma find_row_put_row_same rs label cells old :
  find_row rs label = Some old -> find_row (put_row rs label cells) label = Some cells.
Proof.
  induction rs as [|[l c] rs IH]; simpl; [discriminate|].
  destruct (Nat.eqb_spec l label) as [-> | Hne]; simpl.
  - now rewrite Nat.eqb_refl.
  - intros H. destruct (Nat.eqb_spec l label); [contradiction|]. auto.
Qed.

Lemma find_row_put_row_other rs label cells k :
  k <> label -> find_row (put_row rs label cells) k = find_row rs k.
Proof.
  intros Hk. induction rs as [|[l c] rs IH]; simpl.
  - destruct (Nat.eqb_spec label k); [congruence | reflexivity].
  - destruct (Nat.eqb_spec l label) as [-> | Hne]; simpl.
    + destruct (Nat.eqb_spec label k); [congruence | reflexivity].
    + now rewrite IH.
Qed.

Lemma put_row_index rs label cells old :
  find_row rs label = Some old -> map fst (put_row rs label cells) = map fst rs.
Proof.
  induction rs as [|[l c] rs IH]; simpl; [discriminate|].
  destruct (Nat.eqb_spec l label) as [-> | Hne]; simpl; [reflexivity|].
  intros H. now rewrite IH.
Qed.

Lemma put_row_Forall (P : nat * list float -> Prop) rs label cells :
  Forall P rs -> (forall l, P (l, cells)) -> Forall P (put_row rs label cells).
Proof.
  intros H Hc. induction H as [|[l c] rs Hx Hrs IH]; simpl.
  - constructor; auto.
  - destruct (Nat.eqb l label); constructor; auto.
Qed.

Lemma find_row_Forall (P : nat * list float -> Prop) rs label cells :
  Forall P rs -> find_row rs label = Some cells -> P (label, cells).
Proof.
  induction 1 as [|[l c] rs Hx _ IH]; simpl; [discriminate|].
  destruct (Nat.eqb_spec l label) as [-> | Hne]; [|exact IH].
  intros H. injection H as <-. exact Hx.
Qed.

Lemma find_row_In rs label cells :
  find_row rs label = Some cells -> In label (map fst rs).
Proof.
  induction rs as [|[l c] rs IH]; simpl; [discriminate|].
  destruct (Nat.eqb_spec l label) as [-> | Hne]; auto.
Qed.

(** Labels [0..r] all being there, there are more than [r] rows. *)
Lemma labels_below_len rs r :
  (forall k, k <= r -> find_row rs k <> None) -> r < List.length rs.
Proof.
  intros H.
  assert (Hincl : incl (seq 0 (S r)) (map fst rs)).
  { intros k Hk. apply in_seq in Hk.
    specialize (H k ltac:(lia)). destruct (find_row rs k) eqn:E; [|congruence].
    eapply find_row_In; eauto. }
  apply NoDup_incl_length in Hincl; [|apply seq_NoDup].
  rewrite length_seq, length_map in Hincl. lia.
Qed.

Lemma set_nth_length k v cells : List.length (set_nth k v cells) = List.length cells.
Proof.
  revert k. induction cells as [|c cells IH]; intros [|k]; simpl; auto.
Qed.

Lemma positions_loc_eq (k : nat) (c : string) (w : world) :
  positions_loc k c w = Some (loc (positions (self w)) k c, w).
Proof. reflexivity. Qed.

Lemma magnetics_loc_eq (k : nat) (c : string) (w : world) :
  magnetics_loc k c w = Some (loc (magnetics (self w)) k c, w).
Proof. reflexivity. Qed.

(** One turn of the [while] loop on a loaded recording. *)
Lemma while_loop_eq ps i p0 p1 fuel sx sy row tj w :
  positions (self w) = positions_of ps ->
  nth_error ps i = Some p0 -> nth_error ps (i + 1) = Some p1 ->
  while_loop fuel i sx sy row tj w =
  if ltb tj (proto.pos_t p1) then
    match fuel with
    | O => None
    | S f =>
        let w1 := set_xy w row
                    ((tj - proto.pos_t p0) * sx + proto.pos_x p0)%float
                    ((tj - proto.pos_t p0) * sy + proto.pos_y p0)%float in
        if Nat.leb (len (magnetics (self w1))) (S row) then Some (Ok Return, w1)
        else
          match loc (magnetics (self w1)) (S row) "t" with
          | Ok tj' => while_loop f i sx sy (S row) tj' w1
          | Raise e => Some (Raise e, w1)
          end
    end
  else Some (Ok (Next row tj), w).
Proof.
  intros Hpos H0 H1.
  destruct fuel as [|f]; simpl while_loop; unfold mbind at 1;
    rewrite positions_loc_eq, Hpos, (loc_positions_t _ _ _ H1);
    destruct (ltb tj (proto.pos_t p1)); try reflexivity.
  unfold mbind, magnetics_loc_set, modify, gets. simpl.
  rewrite !Hpos, (loc_positions_t _ _ _ H0), (loc_positions_x _ _ _ H0),
    (loc_positions_y _ _ _ H0).
  destruct (Nat.leb _ _); reflexivity.
Qed.

Lemma put_row_put_row rs label c1 c2 old :
  find_row rs label = Some old ->
  put_row (put_row rs label c1) label c2 = put_row rs label c2.
Proof.
  induction rs as [|[l c] rs IH]; simpl; [discriminate|].
  destruct (Nat.eqb_spec l label) as [-> | Hne]; simpl.
  - now rewrite Nat.eqb_refl.
  - intros H. destruct (Nat.eqb_spec l label); [contradiction|]. now rewrite IH.
Qed.

Lemma set_xy_magnetics w row vx vy cells :
  columns (magnetics (self w)) = magnetics_columns ->
  find_row (rows (magnetics (self w))) row = Some cells ->
  magnetics (self (set_xy w row vx vy))
  = make magnetics_columns
      (put_row (rows (magnetics (self w))) row (upd_xy cells vx vy)).
Proof.
  intros Hc Hr. unfold set_xy. simpl. unfold loc_set at 2.
  rewrite Hc. simpl. rewrite Hr. unfold loc_set. simpl.
  rewrite !Hc. simpl.
  rewrite (find_row_put_row_same _ _ _ _ Hr).
  rewrite (put_row_put_row _ _ _ _ _ Hr). reflexivity.
Qed.

Lemma upd_xy_spec cells vx vy :
  List.length cells = 7 ->
  List.length (upd_xy cells vx vy) = 7 /\
  nth 0 (upd_xy cells vx vy) nan = nth 0 cells nan /\
  nth 5 (upd_xy cells vx vy) nan = vx /\
  nth 6 (upd_xy cells vx vy) nan = vy.
Proof.
  intros H.
  destruct cells as [|c0 [|c1 [|c2 [|c3 [|c4 [|c5 [|c6 [|c7 cells]]]]]]]];
    try discriminate. simpl. auto.
Qed.

Lemma loc_t_wf M k :
  mag_wf M ->
  loc M k "t" = match find_row (rows M) k with
                | Some cells => Ok (nth 0 cells nan)
                | None => Raise KeyError
                end.
Proof. intros (Hc & _). unfold loc. rewrite Hc. reflexivity. Qed.

(** What a run of the loops keeps: the labels, every timestamp, and the rows
    above the cursor. *)
Lemma same_upto_refl row w : same_upto row w w.
Proof. repeat split; auto. Qed.

Lemma same_upto_trans r r' w w' w'' :
  r <= r' -> same_upto r w w' -> same_upto r' w' w'' -> same_upto r w w''.
Proof.
  intros Hr (Hi & Ht & Hb) (Hi' & Ht' & Hb'). repeat split.
  - congruence.
  - intros k. now rewrite Ht', Ht.
  - intros k Hk. rewrite Hb' by lia. now apply Hb.
Qed.

Lemma same_upto_len row w w' :
  same_upto row w w' -> len (magnetics (self w')) = len (magnetics (self w)).
Proof.
  intros (Hi & _). unfold len. rewrite <- (length_map fst), Hi. apply length_map.
Qed.

(** The state one turn of the loop leaves. *)
Lemma set_xy_spec ps w row vx vy cells :
  Inv ps w ->
  find_row (rows (magnetics (self w))) row = Some cells ->
  Inv ps (set_xy w row vx vy) /\
  same_upto row w (set_xy w row vx vy) /\
  find_row (rows (magnetics (self (set_xy w row vx vy)))) row
  = Some (upd_xy cells vx vy) /\
  (forall k, k <> row ->
     find_row (rows (magnetics (self (set_xy w row vx vy)))) k
     = find_row (rows (magnetics (self w))) k).
Proof.
  intros (Hpos & Hc & Hrows) Hr.
  pose proof (find_row_Forall _ _ _ _ Hrows Hr) as Hlen. simpl in Hlen.
  destruct (upd_xy_spec cells vx vy Hlen) as (Hl & H0 & _).
  pose proof (set_xy_magnetics w row vx vy cells Hc Hr) as HM.
  assert (Hsame : find_row (rows (magnetics (self (set_xy w row vx vy)))) row
                  = Some (upd_xy cells vx vy)).
  { rewrite HM. simpl. eapply find_row_put_row_same; eauto. }
  assert (Hother : forall k, k <> row ->
            find_row (rows (magnetics (self (set_xy w row vx vy)))) k
            = find_row (rows (magnetics (self w))) k).
  { intros k Hk. rewrite HM. simpl. now apply find_row_put_row_other. }
  split; [|split; [|split]]; auto.
  - split; [exact Hpos|]. rewrite HM. split; [reflexivity|]. simpl.
    apply put_row_Forall; auto.
  - repeat split.
    + rewrite HM. simpl. eapply put_row_index; eauto.
    + intros k. destruct (Nat.eq_dec k row) as [-> | Hk].
      * rewrite Hsame, Hr. simpl. now rewrite H0.
      * now rewrite Hother.
    + intros k Hk. apply Hother. lia.
Qed.

Lemma cursor_same r w w' row tj :
  same_upto r w w' -> cursor w row tj -> cursor w' row tj.
Proof.
  intros (_ & Ht & _) (cells & Hr & Htj). specialize (Ht row).
  rewrite Hr in Ht. simpl in Ht.
  destruct (find_row (rows (magnetics (self w'))) row) as [cells'|] eqn:Hr';
    [|discriminate].
  exists cells'. split; [exact Hr'|]. simpl in Ht. congruence.
Qed.

(** The [while] loop ends, and keeps what is above the cursor. *)
Lemma while_frame ps i p0 p1 sx sy :
  nth_error ps i = Some p0 -> nth_error ps (i + 1) = Some p1 ->
  forall fuel row tj w,
    Inv ps w -> cursor w row tj ->
    Nat.max 1 (len (magnetics (self w)) - row) <= fuel ->
    exists res w',
      while_loop fuel i sx sy row tj w = Some (res, w') /\
      Inv ps w' /\ same_upto row w w' /\
      (forall row' tj', res = Ok (Next row' tj') ->
         row <= row' /\ cursor w' row' tj' /\ ltb tj' (proto.pos_t p1) = false).
Proof.
  intros H0 H1. induction fuel as [|f IH]; intros row tj w HI Hcur Hfuel; [lia|].
  rewrite (while_loop_eq ps i p0 p1) by (try apply HI; assumption).
  destruct (ltb tj (proto.pos_t p1)) eqn:Hlt.
  2:{ exists (Ok (Next row tj)), w.
      split; [reflexivity|]. split; [exact HI|]. split; [apply same_upto_refl|].
      intros row' tj' E. injection E as <- <-. auto. }
  cbv zeta.
  set (w1 := set_xy w row _ _).
  destruct Hcur as (cells & Hr & Htj).
  destruct (set_xy_spec ps w row
              ((tj - proto.pos_t p0) * sx + proto.pos_x p0)%float
              ((tj - proto.pos_t p0) * sy + proto.pos_y p0)%float cells HI Hr)
    as (HI1 & Hs1 & Hrow1 & Hoth1).
  fold w1 in HI1, Hs1, Hrow1, Hoth1.
  pose proof (same_upto_len _ _ _ Hs1) as Hlen1.
  destruct (Nat.leb_spec (len (magnetics (self w1))) (S row)) as [Hle | Hgt].
  { exists (Ok Return), w1.
    split; [reflexivity|]. split; [exact HI1|]. split; [exact Hs1|]. discriminate. }
  rewrite (loc_t_wf _ _ (proj2 HI1)).
  destruct (find_row (rows (magnetics (self w1))) (S row)) as [cells'|] eqn:Hr'.
  2:{ exists (Raise KeyError), w1.
      split; [reflexivity|]. split; [exact HI1|]. split; [exact Hs1|]. discriminate. }
  destruct (IH (S row) (nth 0 cells' nan) w1 HI1) as (res & w' & Hrun & HI' & Hs' & Hnext).
  { exists cells'. auto. }
  { lia. }
  exists res, w'. split; [exact Hrun|]. split; [exact HI'|]. split.
  - eapply same_upto_trans; [|exact Hs1|exact Hs']. lia.
  - intros row' tj' E. destruct (Hnext row' tj' E) as (Hle & Hc & Hl).
    repeat split; auto; lia.
Qed.

Lemma present_same row r w w' : same_upto row w w' -> present w r -> present w' r.
Proof.
  intros (_ & Ht & _) Hp k Hk Hnone. specialize (Ht k). rewrite Hnone in Ht.
  apply (Hp k Hk). destruct (find_row (rows (magnetics (self w))) k); [discriminate|reflexivity].
Qed.

Lemma cursor_fun w row t t' : cursor w row t -> cursor w row t' -> t = t'.
Proof. intros (c & Hc & <-) (c' & Hc' & <-). congruence. Qed.

Lemma present_len w r : present w r -> r < len (magnetics (self w)).
Proof. apply labels_below_len. Qed.

(** A sample that is not earlier than [t1] stops the [while] loop at the
    latest. *)
Lemma while_before ps i p0 p1 sx sy r tr :
  nth_error ps i = Some p0 -> nth_error ps (i + 1) = Some p1 ->
  ltb tr (proto.pos_t p1) = false ->
  forall fuel row tj w,
    Inv ps w -> cursor w row tj -> row <= r ->
    present w r -> cursor w r tr ->
    Nat.max 1 (len (magnetics (self w)) - row) <= fuel ->
    exists row' tj' w',
      while_loop fuel i sx sy row tj w = Some (Ok (Next row' tj'), w') /\
      Inv ps w' /\ same_upto row w w' /\
      row <= row' <= r /\ cursor w' row' tj'.
Proof.
  intros H0 H1 Htr.
  induction fuel as [|f IH]; intros row tj w HI Hcur Hrow Hpres Hr Hfuel; [lia|].
  rewrite (while_loop_eq ps i p0 p1) by (try apply HI; assumption).
  destruct (ltb tj (proto.pos_t p1)) eqn:Hlt.
  2:{ exists row, tj, w.
      split; [reflexivity|]. split; [exact HI|]. split; [apply same_upto_refl|].
      split; [lia | exact Hcur]. }
  cbv zeta. set (w1 := set_xy w row _ _).
  assert (Hlt' : row < r).
  { destruct (Nat.eq_dec row r) as [-> | Hne]; [|lia].
    rewrite (cursor_fun _ _ _ _ Hcur Hr) in Hlt. congruence. }
  destruct Hcur as (cells & Hc & Htj).
  destruct (set_xy_spec ps w row
              ((tj - proto.pos_t p0) * sx + proto.pos_x p0)%float
              ((tj - proto.pos_t p0) * sy + proto.pos_y p0)%float cells HI Hc)
    as (HI1 & Hs1 & Hrow1 & Hoth1).
  fold w1 in HI1, Hs1, Hrow1, Hoth1.
  pose proof (same_upto_len _ _ _ Hs1) as Hlen1.
  pose proof (present_same _ _ _ _ Hs1 Hpres) as Hpres1.
  pose proof (present_len _ _ Hpres1) as Hlenr.
  destruct (Nat.leb_spec (len (magnetics (self w1))) (S row)) as [Hle | Hgt]; [lia|].
  rewrite (loc_t_wf _ _ (proj2 HI1)).
  destruct (find_row (rows (magnetics (self w1))) (S row)) as [cells'|] eqn:Hr';
    [|exfalso; apply (Hpres1 (S row)); [lia | exact Hr']].
  destruct (IH (S row) (nth 0 cells' nan) w1 HI1) as (row' & tj' & w' & Hrun & HI' & Hs' & Hle' & Hc').
  { exists cells'. auto. }
  { lia. }
  { exact Hpres1. }
  { eapply cursor_same; eauto. }
  { lia. }
  exists row', tj', w'. split; [exact Hrun|]. split; [exact HI'|]. split.
  - eapply same_upto_trans; [|exact Hs1|exact Hs']. lia.
  - split; [lia | exact Hc'].
Qed.

(** The samples from the cursor to row [r] being earlier than [t1], the
    [while] loop assigns row [r] from the pair [(i, i+1)]. *)
Lemma while_reach ps i p0 p1 sx sy r tr :
  nth_error ps i = Some p0 -> nth_error ps (i + 1) = Some p1 ->
  forall fuel row tj w,
    Inv ps w -> cursor w row tj -> row <= r ->
    present w r -> cursor w r tr ->
    (forall k, row <= k <= r ->
       exists tk, cursor w k tk /\ ltb tk (proto.pos_t p1) = true) ->
    Nat.max 1 (len (magnetics (self w)) - row) <= fuel ->
    exists res w',
      while_loop fuel i sx sy row tj w = Some (res, w') /\
      Inv ps w' /\ same_upto row w w' /\
      (exists cells, find_row (rows (magnetics (self w'))) r = Some cells /\
         nth 5 cells nan = ((tr - proto.pos_t p0) * sx + proto.pos_x p0)%float /\
         nth 6 cells nan = ((tr - proto.pos_t p0) * sy + proto.pos_y p0)%float) /\
      (forall row' tj', res = Ok (Next row' tj') -> r < row' /\ cursor w' row' tj').
Proof.
  intros H0 H1.
  induction fuel as [|f IH]; intros row tj w HI Hcur Hrow Hpres Hr Hall Hfuel; [lia|].
  rewrite (while_loop_eq ps i p0 p1) by (try apply HI; assumption).
  destruct (Hall row ltac:(lia)) as (tk & Hck & Hlt).
  rewrite (cursor_fun _ _ _ _ Hck Hcur) in Hlt. rewrite Hlt.
  cbv zeta. set (w1 := set_xy w row _ _).
  destruct Hcur as (cells & Hc & Htj).
  destruct (set_xy_spec ps w row
              ((tj - proto.pos_t p0) * sx + proto.pos_x p0)%float
              ((tj - proto.pos_t p0) * sy + proto.pos_y p0)%float cells HI Hc)
    as (HI1 & Hs1 & Hrow1 & Hoth1).
  fold w1 in HI1, Hs1, Hrow1, Hoth1.
  pose proof (same_upto_len _ _ _ Hs1) as Hlen1.
  pose proof (present_same _ _ _ _ Hs1 Hpres) as Hpres1.
  pose proof (present_len _ _ Hpres1) as Hlenr.
  assert (Hlen7 : List.length cells = 7)
    by (exact (find_row_Forall _ _ _ _ (proj2 (proj2 HI)) Hc)).
  destruct (upd_xy_spec cells
              ((tj - proto.pos_t p0) * sx + proto.pos_x p0)%float
              ((tj - proto.pos_t p0) * sy + proto.pos_y p0)%float Hlen7)
    as (_ & _ & H5 & H6).
  destruct (Nat.eq_dec row r) as [-> | Hne].
  - (* the cursor is on row [r] *)
    assert (tr = tj) by (eapply cursor_fun; [exact Hr | exists cells; auto]). subst tr.
    assert (Hdone : exists cells0,
               find_row (rows (magnetics (self w1))) r = Some cells0 /\
               nth 5 cells0 nan = ((tj - proto.pos_t p0) * sx + proto.pos_x p0)%float /\
               nth 6 cells0 nan = ((tj - proto.pos_t p0) * sy + proto.pos_y p0)%float)
      by (eexists; split; [exact Hrow1 | split; assumption]).
    destruct (Nat.leb_spec (len (magnetics (self w1))) (S r)) as [Hle | Hgt].
    { exists (Ok Return), w1.
      split; [reflexivity|]. split; [exact HI1|]. split; [exact Hs1|].
      split; [exact Hdone | discriminate]. }
    rewrite (loc_t_wf _ _ (proj2 HI1)).
    destruct (find_row (rows (magnetics (self w1))) (S r)) as [cells'|] eqn:Hr'.
    2:{ exists (Raise KeyError), w1.
        split; [reflexivity|]. split; [exact HI1|]. split; [exact Hs1|].
        split; [exact Hdone | discriminate]. }
    destruct (while_frame ps i p0 p1 sx sy H0 H1 f (S r) (nth 0 cells' nan) w1 HI1)
      as (res & w' & Hrun & HI' & Hs' & Hnext).
    { exists cells'. auto. }
    { lia. }
    exists res, w'. split; [exact Hrun|]. split; [exact HI'|]. split.
    + eapply same_upto_trans; [|exact Hs1|exact Hs']. lia.
    + split.
      * destruct Hdone as (cells0 & Hf & Hx & Hy). exists cells0.
        destruct Hs' as (_ & _ & Hb). rewrite Hb by lia. auto.
      * intros row' tj' E. destruct (Hnext row' tj' E) as (Hle & Hc' & _).
        split; [lia | exact Hc'].
  - (* the cursor is above row [r] *)
    destruct (Nat.leb_spec (len (magnetics (self w1))) (S row)) as [Hle | Hgt]; [lia|].
    rewrite (loc_t_wf _ _ (proj2 HI1)).
    destruct (find_row (rows (magnetics (self w1))) (S row)) as [cells'|] eqn:Hr';
      [|exfalso; apply (Hpres1 (S row)); [lia | exact Hr']].
    destruct (IH (S row) (nth 0 cells' nan) w1 HI1)
      as (res & w' & Hrun & HI' & Hs' & Hdone & Hnext).
    { exists cells'. auto. }
    { lia. }
    { exact Hpres1. }
    { eapply cursor_same; eauto. }
    { intros k Hk. destruct (Hall k ltac:(lia)) as (tk' & Hck' & Hlt').
      exists tk'. split; [eapply cursor_same; eauto | exact Hlt']. }
    { lia. }
    exists res, w'. split; [exact Hrun|]. split; [exact HI'|]. split.
    + eapply same_upto_trans; [|exact Hs1|exact Hs']. lia.
    + split; [exact Hdone | exact Hnext].
Qed.

(** One turn of the [for] loop on a loaded recording. *)
Lemma for_loop_cons ps i p0 p1 labels row tj w :
  positions (self w) = positions_of ps ->
  nth_error ps i = Some p0 -> nth_error ps (i + 1) = Some p1 ->
  for_loop (i :: labels) row tj w =
  match while_loop (S (len (magnetics (self w)) - row)) i
                   (speed_x p0 p1) (speed_y p0 p1) row tj w with
  | Some (Ok Return, w') => Some (Ok tt, w')
  | Some (Ok (Next row' tj'), w') => for_loop labels row' tj' w'
  | Some (Raise e, w') => Some (Raise e, w')
  | None => None
  end.
Proof.
  intros Hpos H0 H1. cbn [for_loop]. unfold mbind, gets.
  rewrite !positions_loc_eq, !Hpos.
  rewrite (loc_positions_t _ _ _ H0), (loc_positions_x _ _ _ H0),
    (loc_positions_y _ _ _ H0), (loc_positions_t _ _ _ H1),
    (loc_positions_x _ _ _ H1), (loc_positions_y _ _ _ H1).
  unfold speed_x, speed_y.
  destruct (while_loop _ _ _ _ _ _ _) as [[[[row' tj'|]|e] w']|]; reflexivity.
Qed.

(** The [for] loop ends, and keeps what is above the cursor. *)
Lemma for_frame ps : forall m s row tj w,
  s + m < List.length ps ->
  Inv ps w -> cursor w row tj ->
  exists res w',
    for_loop (seq s m) row tj w = Some (res, w') /\
    Inv ps w' /\ same_upto row w w'.
Proof.
  induction m as [|m IH]; intros s row tj w Hs HI Hcur.
  - exists (Ok tt), w. split; [reflexivity|]. split; [exact HI | apply same_upto_refl].
  - destruct (nth_error ps s) as [p0|] eqn:H0;
      [|apply nth_error_None in H0; lia].
    destruct (nth_error ps (s + 1)) as [p1|] eqn:H1;
      [|apply nth_error_None in H1; lia].
    simpl seq. rewrite (for_loop_cons ps s p0 p1) by (try apply HI; assumption).
    destruct (while_frame ps s p0 p1 (speed_x p0 p1) (speed_y p0 p1) H0 H1
                (S (len (magnetics (self w)) - row)) row tj w HI Hcur ltac:(lia))
      as (res & w1 & Hrun & HI1 & Hs1 & Hnext).
    rewrite Hrun. destruct res as [[row' tj'|]|e].
    + destruct (Hnext row' tj' eq_refl) as (Hle & Hc' & _).
      destruct (IH (S s) row' tj' w1 ltac:(lia) HI1 Hc') as (res & w' & Hrun' & HI' & Hs').
      exists res, w'. split; [exact Hrun'|]. split; [exact HI'|].
      eapply same_upto_trans; [exact Hle | exact Hs1 | exact Hs'].
    + exists (Ok tt), w1. auto.
    + exists (Raise e), w1. auto.
Qed.

(** Row [r] is assigned from the pair [(j, j+1)] when it is not earlier than
    the timestamps [t(s+1) .. t(j)] and the rows up to it are earlier than
    [t(j+1)]. *)
Lemma for_reach ps j p0 p1 r tr :
  nth_error ps j = Some p0 -> nth_error ps (j + 1) = Some p1 ->
  forall m s row tj w,
    s + m < List.length ps -> s <= j < s + m ->
    Inv ps w -> cursor w row tj -> row <= r ->
    present w r -> cursor w r tr ->
    (forall k p, s <= k < j -> nth_error ps (k + 1) = Some p ->
                 ltb tr (proto.pos_t p) = false) ->
    (forall k, row <= k <= r ->
       exists tk, cursor w k tk /\ ltb tk (proto.pos_t p1) = true) ->
    exists res w',
      for_loop (seq s m) row tj w = Some (res, w') /\
      Inv ps w' /\
      exists cells, find_row (rows (magnetics (self w'))) r = Some cells /\
        nth 5 cells nan = interp_x p0 p1 tr /\
        nth 6 cells nan = interp_y p0 p1 tr.
Proof.
  intros Hj0 Hj1.
  induction m as [|m IH]; intros s row tj w Hs Hsj HI Hcur Hrow Hpres Hr Hbefore Hall; [lia|].
  destruct (nth_error ps s) as [q0|] eqn:H0; [|apply nth_error_None in H0; lia].
  destruct (nth_error ps (s + 1)) as [q1|] eqn:H1; [|apply nth_error_None in H1; lia].
  simpl seq. rewrite (for_loop_cons ps s q0 q1) by (try apply HI; assumption).
  destruct (Nat.eq_dec s j) as [-> | Hne].
  - (* the pair the sample belongs to *)
    assert (q0 = p0) by congruence. assert (q1 = p1) by congruence. subst q0 q1.
    destruct (while_reach ps j p0 p1 (speed_x p0 p1) (speed_y p0 p1) r tr Hj0 Hj1
                (S (len (magnetics (self w)) - row)) row tj w HI Hcur Hrow Hpres Hr Hall
                ltac:(lia))
      as (res & w1 & Hrun & HI1 & Hs1 & Hdone & Hnext).
    rewrite Hrun. destruct res as [[row' tj'|]|e].
    + destruct (Hnext row' tj' eq_refl) as (Hlt & Hc').
      destruct (for_frame ps m (S j) row' tj' w1 ltac:(lia) HI1 Hc')
        as (res & w' & Hrun' & HI' & Hs').
      exists res, w'. split; [exact Hrun'|]. split; [exact HI'|].
      destruct Hdone as (cells & Hf & Hx & Hy). exists cells.
      destruct Hs' as (_ & _ & Hb). rewrite Hb by lia. auto.
    + exists (Ok tt), w1. auto.
    + exists (Raise e), w1. auto.
  - (* an earlier pair *)
    destruct (while_before ps s q0 q1 (speed_x q0 q1) (speed_y q0 q1) r tr H0 H1
                (Hbefore s q1 ltac:(lia) H1)
                (S (len (magnetics (self w)) - row)) row tj w HI Hcur Hrow Hpres Hr
                ltac:(lia))
      as (row' & tj' & w1 & Hrun & HI1 & Hs1 & Hle & Hc').
    rewrite Hrun.
    apply (IH (S s) row' tj' w1); auto; try lia.
    + eapply present_same; eauto.
    + eapply cursor_same; eauto.
    + intros k p Hk. apply Hbefore. lia.
    + intros k Hk. destruct (Hall k ltac:(lia)) as (tk & Hck & Hlt).
      exists tk. split; [eapply cursor_same; eauto | exact Hlt].
Qed.

Lemma removelast_seq s n : removelast (seq s n) = seq s (n - 1).
Proof.
  revert s. induction n as [|n IH]; intros s; [reflexivity|].
  destruct n as [|n]; [reflexivity|].
  change (seq s (S (S n))) with (s :: seq (S s) (S n)).
  change (removelast (s :: seq (S s) (S n)))
    with (s :: removelast (seq (S s) (S n))).
  rewrite IH. simpl. now rewrite Nat.sub_0_r.
Qed.

Lemma index_positions ps : index (positions_of ps) = seq 0 (List.length ps).
Proof.
  unfold index, positions_of, enumerate. simpl. rewrite length_map.
  generalize 0. induction ps as [|p ps IH]; intros s; simpl; [reflexivity|].
  now rewrite IH.
Qed.

Lemma magnetics_pos_calc_eq ps w :
  Inv ps w ->
  magnetics_pos_calc w =
  match find_row (rows (magnetics (self w))) 0 with
  | Some cells => for_loop (seq 0 (List.length ps - 1)) 0 (nth 0 cells nan) w
  | None => Some (Raise KeyError, w)
  end.
Proof.
  intros (Hpos & Hwf). unfold magnetics_pos_calc, mbind, gets.
  rewrite magnetics_loc_eq, (loc_t_wf _ _ Hwf).
  destruct (find_row (rows (magnetics (self w))) 0); [|reflexivity].
  now rewrite Hpos, index_positions, removelast_seq.
Qed.

(** [magnetics_pos_calc] ends on every loaded recording. *)
Lemma magnetics_pos_calc_frame ps w :
  Inv ps w ->
  exists res w', magnetics_pos_calc w = Some (res, w') /\ Inv ps w' /\ same_upto 0 w w'.
Proof.
  intros HI. rewrite (magnetics_pos_calc_eq ps w HI).
  destruct (find_row (rows (magnetics (self w))) 0) as [cells|] eqn:Hr.
  - destruct ps as [|p ps].
    + exists (Ok tt), w. split; [reflexivity|]. split; [exact HI | apply same_upto_refl].
    + apply for_frame; [simpl; lia | exact HI | exists cells; auto].
  - exists (Raise KeyError), w. split; [reflexivity|]. split; [exact HI | apply same_upto_refl].
Qed.

(** The sample of row [r] is given the position interpolated from the pair
    [(j, j+1)]. *)
Lemma sample_assigned ps w j p0 p1 r tr :
  Inv ps w ->
  nth_error ps j = Some p0 -> nth_error ps (j + 1) = Some p1 ->
  present w r -> cursor w r tr ->
  (forall k p, k < j -> nth_error ps (k + 1) = Some p ->
               ltb tr (proto.pos_t p) = false) ->
  (forall k, k <= r -> exists tk, cursor w k tk /\ ltb tk (proto.pos_t p1) = true) ->
  exists res w',
    magnetics_pos_calc w = Some (res, w') /\
    Inv ps w' /\
    exists cells, find_row (rows (magnetics (self w'))) r = Some cells /\
      nth 5 cells nan = interp_x p0 p1 tr /\
      nth 6 cells nan = interp_y p0 p1 tr.
Proof.
  intros HI H0 H1 Hpres Hr Hbefore Hall.
  rewrite (magnetics_pos_calc_eq ps w HI).
  destruct (Hall 0 ltac:(lia)) as (t0 & (cells & Hc & Ht0) & _).
  rewrite Hc.
  assert (Hlen : j + 1 < List.length ps) by (apply nth_error_Some; congruence).
  apply (for_reach ps j p0 p1 r tr H0 H1); auto; try lia.
  - exists cells. auto.
  - intros k p Hk. apply Hbefore. lia.
  - intros k Hk. apply Hall. lia.
Qed.

End PosCalcFacts.

Module LoadFacts.
Import DataFrame PosCalcFacts.

Lemma read_recording_eq E w :
  read_recording E w =
  match fs E (pb_file (self w)) with
  | Some (RegularFile content) =>
      match FromString E content with
      | Some m =>
          Some (Ok (loaded_positions m, loaded_magnetics m),
                {| self := set_magnetics (loaded_magnetics m)
                             (set_positions (loaded_positions m) (self w));
                   io := io w ++ [OpenRead (pb_file (self w))] |})
      | None => Some (Raise DecodeError, opened w)
      end
  | Some Directory => Some (Raise IsADirectoryError, opened w)
  | None => Some (Raise (FileNotFoundError (pb_file (self w))), opened w)
  end.
Proof.
  unfold read_recording, open_read.
  cbv beta iota zeta delta [mbind gets emit lift raise ret modify].
  destruct (fs E (pb_file (self w))) as [[content|]|]; try reflexivity.
  cbv beta iota zeta delta [mbind gets emit lift raise ret modify].
  unfold from_string.
  destruct (FromString E content) as [m|]; try reflexivity.
  rewrite build_frames_ok. reflexivity.
Qed.

Lemma read_recording_ok E w pm w' :
  read_recording E w = Some (Ok pm, w') ->
  exists m, deserialized E w m /\
    pm = (loaded_positions m, loaded_magnetics m) /\
    positions (self w') = loaded_positions m /\
    magnetics (self w') = loaded_magnetics m /\
    pb_file (self w') = pb_file (self w).
Proof.
  rewrite read_recording_eq. unfold deserialized.
  destruct (fs E (pb_file (self w))) as [[content|]|]; try discriminate.
  destruct (FromString E content) as [m|] eqn:Hm; try discriminate.
  intros H. injection H as <- <-. exists m. simpl. eauto 10.
Qed.

Lemma read_recording_raise E w e w' :
  read_recording E w = Some (Raise e, w') -> self w' = self w.
Proof.
  rewrite read_recording_eq.
  destruct (fs E (pb_file (self w))) as [[content|]|];
    try destruct (FromString E content); intros H; inversion H; reflexivity.
Qed.

Lemma read_recording_total E w : exists r w', read_recording E w = Some (r, w').
Proof.
  rewrite read_recording_eq.
  destruct (fs E (pb_file (self w))) as [[content|]|];
    try destruct (FromString E content); eauto.
Qed.

Lemma loaded_magnetics_wf m : mag_wf (loaded_magnetics m).
Proof.
  split; [reflexivity|]. simpl. apply Forall_forall. intros [l c] Hr.
  apply filter_In in Hr. destruct Hr as (Hr & _).
  unfold enumerate in Hr. apply in_combine_r in Hr.
  apply in_map_iff in Hr. destruct Hr as (x & <- & _). reflexivity.
Qed.

Lemma Inv_load m w :
  positions (self w) = loaded_positions m ->
  magnetics (self w) = loaded_magnetics m ->
  Inv (proto.positions m) w.
Proof.
  intros Hp Hm. split; [exact Hp|]. rewrite Hm. apply loaded_magnetics_wf.
Qed.

End LoadFacts.

Module GridFacts.

Lemma upd_nth_length {A : Type} (k : nat) (f : A -> A) (l : list A) :
  List.length (upd_nth k f l) = List.length l.
Proof. revert k. induction l as [|a l IH]; intros [|k]; simpl; auto. Qed.

Lemma nth_upd_nth {A : Type} (k k' : nat) (f : A -> A) (l : list A) (d : A) :
  k < List.length l ->
  nth k' (upd_nth k f l) d = if Nat.eqb k k' then f (nth k l d) else nth k' l d.
Proof.
  revert k k'. induction l as [|a l IH]; intros [|k] [|k'] Hk; simpl in *;
    try lia; auto.
  apply IH. lia.
Qed.

Lemma upd_nth_Forall {A : Type} (P : A -> Prop) (k : nat) (f : A -> A) (l : list A) :
  Forall P l -> (forall a, P a -> P (f a)) -> Forall P (upd_nth k f l).
Proof.
  intros H Hf. revert k. induction H as [|a l Ha Hl IH]; intros [|k]; simpl;
    constructor; auto.
Qed.

Lemma rect_upd2 n m g rc f : rect n m g -> rect n m (upd2 g rc f).
Proof.
  intros (Hn & Hm). split.
  - unfold upd2. now rewrite upd_nth_length.
  - apply upd_nth_Forall; [exact Hm|]. intros r Hr. now rewrite upd_nth_length.
Qed.

Lemma rect_shape n m g : 0 < n -> rect n m g -> shape g = (n, m).
Proof.
  intros Hpos (Hn & Hm). unfold shape. rewrite Hn.
  destruct g as [|r g]; [simpl in Hn; lia|]. inversion Hm; subst. reflexivity.
Qed.

Lemma rect_row n m g a : rect n m g -> a < n -> List.length (nth a g []) = m.
Proof.
  intros (Hn & Hm) Ha. rewrite Forall_forall in Hm. apply Hm, nth_In. lia.
Qed.

Lemma get2_upd2 n m g a b a' b' f :
  rect n m g -> a < n -> b < m ->
  get2 (upd2 g (a, b) f) (a', b')
  = if Nat.eqb a a' && Nat.eqb b b' then f (get2 g (a, b)) else get2 g (a', b').
Proof.
  intros Hr Ha Hb. unfold get2, upd2. simpl.
  rewrite nth_upd_nth by (destruct Hr; lia).
  destruct (Nat.eqb_spec a a') as [<- | Hne]; simpl; [|reflexivity].
  rewrite nth_upd_nth by (rewrite (rect_row n m g a Hr Ha); exact Hb).
  reflexivity.
Qed.

Lemma rect_zeros n m : rect n m (zeros n m).
Proof.
  unfold zeros. split; [apply repeat_length|].
  apply Forall_forall. intros r Hr. apply repeat_spec in Hr. subst.
  apply repeat_length.
Qed.

Lemma get2_zeros n m a b : a < n -> b < m -> get2 (zeros n m) (a, b) = 0%float.
Proof.
  intros Ha Hb. unfold get2, zeros. simpl.
  rewrite nth_repeat_lt by assumption. now rewrite nth_repeat_lt.
Qed.

Lemma norm_index_lt n i a : norm_index n i = Some a -> a < n.
Proof.
  unfold norm_index.
  destruct ((0 <=? i) && (i <? Z.of_nat n))%Z eqn:H1.
  - intros H. injection H as <-. apply andb_prop in H1. lia.
  - destruct ((- Z.of_nat n <=? i) && (i <? 0))%Z eqn:H2; [|discriminate].
    intros H. injection H as <-. apply andb_prop in H2. lia.
Qed.

(** One turn of the loop over the magnetic rows. *)
Lemma grid_loop_cons E cols x_min y_min cs l magnetic rs cnt w :
  grid_loop E cols x_min y_min cs ((l, magnetic) :: rs) cnt w =
  match cell_of cols x_min y_min cs magnetic with
  | Raise e => Some (Raise e, w)
  | Ok rowcol =>
      match index2 (the_grid (self w)) (fst rowcol) (snd rowcol) with
      | Raise e => Some (Raise e, w)
      | Ok rc =>
          match row_get cols magnetic "mx" with
          | Raise e => Some (Raise e, w)
          | Ok mx =>
              match row_get cols magnetic "my" with
              | Raise e => Some (Raise e, w)
              | Ok my =>
                  match row_get cols magnetic "mz" with
                  | Raise e => Some (Raise e, w)
                  | Ok mz =>
                      let w1 := with_grid
                                  (upd2 (the_grid (self w)) rc
                                        (fun v => (v + magnitude E mx my mz)%float)) w in
                      match index2 cnt (fst rowcol) (snd rowcol) with
                      | Raise e => Some (Raise e, w1)
                      | Ok rc' =>
                          grid_loop E cols x_min y_min cs rs
                                    (upd2 cnt rc' (fun v => (v + 1)%float)) w1
                      end
                  end
              end
          end
      end
  end.
Proof.
  cbn [grid_loop]. unfold mbind, lift, gets, modify.
  destruct (cell_of cols x_min y_min cs magnetic) as [rowcol|e]; [|reflexivity].
  destruct (index2 (the_grid (self w)) (fst rowcol) (snd rowcol)) as [rc|e]; [|reflexivity].
  destruct (row_get cols magnetic "mx") as [mx|e]; [|reflexivity].
  destruct (row_get cols magnetic "my") as [my|e]; [|reflexivity].
  destruct (row_get cols magnetic "mz") as [mz|e]; [|reflexivity].
  cbn [self io]. unfold with_grid.
  destruct (index2 cnt (fst rowcol) (snd rowcol)) as [rc'|e]; reflexivity.
Qed.

(** The loop ends, and touches neither table. *)
Lemma grid_loop_frame E cols x_min y_min cs : forall rs cnt w,
  exists r w',
    grid_loop E cols x_min y_min cs rs cnt w = Some (r, w') /\
    positions (self w') = positions (self w) /\
    magnetics (self w') = magnetics (self w).
Proof.
  induction rs as [|[l magnetic] rs IH]; intros cnt w.
  - exists (Ok cnt), w. auto.
  - rewrite grid_loop_cons.
    destruct (cell_of cols x_min y_min cs magnetic) as [rowcol|e]; [|eauto].
    destruct (index2 (the_grid (self w)) (fst rowcol) (snd rowcol)) as [rc|e]; [|eauto].
    destruct (row_get cols magnetic "mx") as [mx|e]; [|eauto].
    destruct (row_get cols magnetic "my") as [my|e]; [|eauto].
    destruct (row_get cols magnetic "mz") as [mz|e]; [|eauto].
    cbv zeta.
    destruct (index2 cnt (fst rowcol) (snd rowcol)) as [rc'|e]; [|eauto].
    destruct (IH (upd2 cnt rc' (fun v => (v + 1)%float))
                (with_grid (upd2 (the_grid (self w)) rc
                              (fun v => (v + magnitude E mx my mz)%float)) w))
      as (r & w' & Hrun & Hp & Hm).
    exists r, w'. auto.
Qed.

Lemma index2_rect n m g r c rc :
  0 < n -> rect n m g -> index2 g r c = Ok rc ->
  norm_index n r = Some (fst rc) /\ norm_index m c = Some (snd rc).
Proof.
  intros Hn Hg. unfold index2. rewrite (rect_shape n m g Hn Hg). simpl.
  destruct (norm_index n r), (norm_index m c); try discriminate.
  intros H. injection H as <-. auto.
Qed.

Lemma row_get_magnetics (magnetic : list float) :
  row_get magnetics_columns magnetic "mx" = Ok (nth 1 magnetic nan) /\
  row_get magnetics_columns magnetic "my" = Ok (nth 2 magnetic nan) /\
  row_get magnetics_columns magnetic "mz" = Ok (nth 3 magnetic nan).
Proof. repeat split. Qed.

(** What the loop leaves in each cell of the two arrays. *)
Lemma grid_loop_spec E n m x_min y_min cs :
  0 < n ->
  forall rs cnt w cnt' w',
    rect n m (the_grid (self w)) -> rect n m cnt ->
    grid_loop E magnetics_columns x_min y_min cs rs cnt w = Some (Ok cnt', w') ->
    rect n m (the_grid (self w')) /\ rect n m cnt' /\
    forall a b, a < n -> b < m ->
      get2 (the_grid (self w')) (a, b)
      = fold_left add
          (map (magnitude_of E)
               (samples_in magnetics_columns x_min y_min cs n m (a, b) rs))
          (get2 (the_grid (self w)) (a, b)) /\
      get2 cnt' (a, b)
      = Nat.iter (List.length
                    (samples_in magnetics_columns x_min y_min cs n m (a, b) rs))
                 (fun c => (c + 1)%float) (get2 cnt (a, b)).
Proof.
  intros Hn. induction rs as [|[l magnetic] rs IH]; intros cnt w cnt' w' Hg Hc Hrun.
  - injection Hrun as <- <-. auto.
  - rewrite grid_loop_cons in Hrun.
    destruct (cell_of magnetics_columns x_min y_min cs magnetic) as [[r c]|e] eqn:Hcell;
      [|discriminate].
    cbn [fst snd] in Hrun.
    destruct (index2 (the_grid (self w)) r c) as [[a0 b0]|e] eqn:Hi; [|discriminate].
    destruct (row_get_magnetics magnetic) as (-> & -> & ->) in Hrun.
    cbv zeta in Hrun.
    destruct (index2 cnt r c) as [[a1 b1]|e] eqn:Hi'; [|discriminate].
    destruct (index2_rect n m _ r c _ Hn Hg Hi) as (Ha0 & Hb0).
    destruct (index2_rect n m _ r c _ Hn Hc Hi') as (Ha1 & Hb1).
    cbn [fst snd] in Ha0, Hb0, Ha1, Hb1.
    assert (a1 = a0) by congruence. assert (b1 = b0) by congruence. subst a1 b1.
    pose proof (norm_index_lt _ _ _ Ha0) as Hlta.
    pose proof (norm_index_lt _ _ _ Hb0) as Hltb.
    apply IH in Hrun.
    2:{ unfold with_grid. cbn [self the_grid set_rect_grid_attr rect_grid].
        apply rect_upd2. exact Hg. }
    2:{ apply rect_upd2. exact Hc. }
    destruct Hrun as (Hg' & Hc' & Hcells).
    split; [exact Hg'|]. split; [exact Hc'|].
    intros a b Ha Hb. destruct (Hcells a b Ha Hb) as (Hsum & Hcnt).
    rewrite Hsum, Hcnt. unfold with_grid. cbn [self the_grid set_rect_grid_attr rect_grid].
    rewrite !(get2_upd2 n m) by assumption.
    assert (Hci : cell_index magnetics_columns x_min y_min cs n m magnetic
                  = Some (a0, b0))
      by (unfold cell_index; rewrite Hcell, Ha0, Hb0; reflexivity).
    unfold samples_in. cbn [map filter snd]. rewrite Hci.
    unfold same_cell. cbn [fst snd].
    rewrite (Nat.eqb_sym a a0), (Nat.eqb_sym b b0).
    destruct (Nat.eqb a0 a && Nat.eqb b0 b) eqn:Hab.
    + apply andb_prop in Hab. destruct Hab as (Ea & Eb).
      apply Nat.eqb_eq in Ea, Eb. subst a0 b0.
      cbn [map fold_left List.length]. split; [reflexivity|].
      rewrite Nat.iter_succ_r. reflexivity.
    + auto.
Qed.

(** A call that returns a grid went through every step. *)
Lemma set_rect_grid_ok E cs w g w' :
  set_rect_grid E cs w = Some (Ok g, w') ->
  exists xs ys x_lo x_hi y_lo y_hi x_axis y_axis cnt w1,
    DataFrame.getitem (positions (self w)) "x" = Ok xs /\
    int_floor (Float64.nanmin xs) = Ok x_lo /\
    int_ceil (Float64.nanmax xs) = Ok x_hi /\
    range x_lo x_hi (fst cs) = Ok x_axis /\
    DataFrame.getitem (positions (self w)) "y" = Ok ys /\
    int_floor (Float64.nanmin ys) = Ok y_lo /\
    int_ceil (Float64.nanmax ys) = Ok y_hi /\
    range y_lo y_hi (snd cs) = Ok y_axis /\
    grid_loop E (DataFrame.columns (magnetics (self w)))
              (Float64.nanmin xs) (Float64.nanmin ys) cs
              (DataFrame.rows (magnetics (self w)))
              (zeros (List.length x_axis + 1) (List.length y_axis + 1))
              (with_grid (zeros (List.length x_axis + 1) (List.length y_axis + 1))
                         (with_cell_size cs w))
    = Some (Ok cnt, w1) /\
    g = divide (the_grid (self w1)) (nan_where_zero cnt) /\
    w' = with_grid g w1.
Proof.
  unfold set_rect_grid.
  cbv beta iota zeta delta [mbind lift gets modify ret].
  cbn [self io positions magnetics set_cell_size set_rect_grid_attr].
  destruct (DataFrame.getitem (positions (self w)) "x") as [xs|e] eqn:E1; [|discriminate].
  destruct (int_floor (Float64.nanmin xs)) as [x_lo|e] eqn:E2; [|discriminate].
  destruct (int_ceil (Float64.nanmax xs)) as [x_hi|e] eqn:E3; [|discriminate].
  destruct (range x_lo x_hi (fst cs)) as [x_axis|e] eqn:E4; [|discriminate].
  destruct (DataFrame.getitem (positions (self w)) "y") as [ys|e] eqn:E5; [|discriminate].
  destruct (int_floor (Float64.nanmin ys)) as [y_lo|e] eqn:E6; [|discriminate].
  destruct (int_ceil (Float64.nanmax ys)) as [y_hi|e] eqn:E7; [|discriminate].
  destruct (range y_lo y_hi (snd cs)) as [y_axis|e] eqn:E8; [|discriminate].
  fold (with_cell_size cs w).
  match goal with
  | |- context [grid_loop ?E0 ?c ?a ?b ?d ?rs ?z ?w0] =>
      destruct (grid_loop E0 c a b d rs z w0) as [[[cnt|e] w1]|] eqn:Hloop
  end; try discriminate.
  intros H. injection H as <- <-.
  exists xs, ys, x_lo, x_hi, y_lo, y_hi, x_axis, y_axis, cnt, w1.
  repeat split; try assumption; reflexivity.
Qed.

(** The loop's tables are those of the call, whatever the call ends in. *)
Lemma set_rect_grid_frame E cs w :
  exists r w',
    set_rect_grid E cs w = Some (r, w') /\
    positions (self w') = positions (self w) /\
    magnetics (self w') = magnetics (self w).
Proof.
  unfold set_rect_grid.
  cbv beta iota zeta delta [mbind lift gets modify ret].
  cbn [self io positions magnetics set_cell_size set_rect_grid_attr].
  destruct (DataFrame.getitem (positions (self w)) "x") as [xs|e]; [|eauto].
  destruct (int_floor (Float64.nanmin xs)) as [x_lo|e]; [|eauto].
  destruct (int_ceil (Float64.nanmax xs)) as [x_hi|e]; [|eauto].
  destruct (range x_lo x_hi (fst cs)) as [x_axis|e]; [|eauto].
  destruct (DataFrame.getitem (positions (self w)) "y") as [ys|e]; [|eauto].
  destruct (int_floor (Float64.nanmin ys)) as [y_lo|e]; [|eauto].
  destruct (int_ceil (Float64.nanmax ys)) as [y_hi|e]; [|eauto].
  destruct (range y_lo y_hi (snd cs)) as [y_axis|e]; [|eauto].
  match goal with
  | |- context [grid_loop ?E0 ?c ?a ?b ?d ?rs ?z ?w0] =>
      destruct (grid_loop_frame E0 c a b d rs z w0) as (r & w1 & Hrun & Hp & Hm);
      rewrite Hrun
  end.
  cbn [self positions magnetics set_rect_grid_attr] in Hp, Hm.
  destruct r as [cnt|e]; eauto.
Qed.

Lemma nth_map_lt {A B : Type} (f : A -> B) (l : list A) (k : nat) (d : A) (d' : B) :
  k < List.length l -> nth k (map f l) d' = f (nth k l d).
Proof.
  revert k. induction l as [|a l IH]; intros [|k] Hk; simpl in *; try lia; auto.
  apply IH. lia.
Qed.

Lemma get2_divide n m g c a b :
  rect n m g -> rect n m c -> a < n -> b < m ->
  get2 (divide g c) (a, b) = (get2 g (a, b) / get2 c (a, b))%float.
Proof.
  intros Hg Hc Ha Hb. unfold get2, divide. cbn [fst snd].
  pose proof (rect_row n m g a Hg Ha) as Hra.
  pose proof (rect_row n m c a Hc Ha) as Hca.
  destruct Hg as (Hgn & _), Hc as (Hcn & _).
  rewrite (nth_map_lt _ _ _ ([], [])) by (rewrite length_combine; lia).
  rewrite combine_nth by lia. cbn [fst snd].
  rewrite (nth_map_lt _ _ _ (nan, nan)) by (rewrite length_combine; lia).
  rewrite combine_nth by lia. reflexivity.
Qed.

Lemma rect_nan_where_zero n m c : rect n m c -> rect n m (nan_where_zero c).
Proof.
  intros (Hn & Hm). unfold nan_where_zero. split; [now rewrite length_map|].
  apply Forall_map. eapply Forall_impl; [|exact Hm].
  intros r Hr. simpl. now rewrite length_map.
Qed.

Lemma get2_nan_where_zero n m c a b :
  rect n m c -> a < n -> b < m ->
  get2 (nan_where_zero c) (a, b)
  = if eqb (get2 c (a, b)) 0 then nan else get2 c (a, b).
Proof.
  intros Hc Ha Hb. unfold get2, nan_where_zero. cbn [fst snd].
  pose proof (rect_row n m c a Hc Ha) as Hca. destruct Hc as (Hcn & _).
  rewrite (nth_map_lt _ _ _ []) by lia.
  rewrite (nth_map_lt _ _ _ nan) by lia. reflexivity.
Qed.

Lemma shape_divide n m g c :
  0 < n -> rect n m g -> rect n m c -> shape (divide g c) = (n, m).
Proof.
  intros Hn Hg Hc. apply rect_shape; [exact Hn|].
  destruct Hg as (Hgn & Hgm), Hc as (Hcn & Hcm). unfold divide. split.
  - rewrite length_map, length_combine. lia.
  - apply Forall_map, Forall_forall. intros [r1 r2] Hin. cbn [fst snd].
    rewrite length_map, length_combine.
    rewrite Forall_forall in Hgm, Hcm.
    rewrite (Hgm r1) by (eapply in_combine_l; eauto).
    rewrite (Hcm r2) by (eapply in_combine_r; eauto). lia.
Qed.

Lemma iter_count (k : nat) :
  Nat.iter k (fun c => (c + 1)%float) 0%float = count_float k.
Proof. induction k as [|k IH]; simpl; [reflexivity|]. now rewrite IH. Qed.

Lemma count_float_pos (k : nat) :
  SFpos (Prim2SF (count_float (S k))).
Proof.
  induction k as [|k IH].
  - exact I.
  - change (count_float (S (S k))) with (count_float (S k) + 1)%float.
    apply Float64Facts.succ_pos. right. exact IH.
Qed.

Lemma count_float_nonzero (k : nat) : eqb (count_float (S k)) 0 = false.
Proof. apply Float64Facts.pos_eqb_zero, count_float_pos. Qed.

Lemma range_length a b c l : range a b c = Ok l -> List.length l = range_len a b c.
Proof.
  unfold range. destruct (c =? 0)%Z; [discriminate|].
  intros H. injection H as <-. now rewrite length_map, length_seq.
Qed.

Lemma range_len_one a b : (a <= b)%Z -> Z.of_nat (range_len a b 1) = (b - a)%Z.
Proof.
  intros H. unfold range_len. change (0 <? 1)%Z with true. cbv iota.
  rewrite Z.div_1_r. lia.
Qed.

Lemma int_of_Ok v z r : int_of v z = Ok r -> z = Some r.
Proof.
  unfold int_of. destruct z; [congruence|]. destruct (is_nan v); discriminate.
Qed.

(** The two ends of an axis are in order. *)
Lemma extent_ordered xs lo hi :
  int_floor (Float64.nanmin xs) = Ok lo -> int_ceil (Float64.nanmax xs) = Ok hi ->
  (lo <= hi)%Z.
Proof.
  intros Hlo Hhi. apply int_of_Ok in Hlo, Hhi.
  apply (Float64Facts.floor_le_ceil (Float64.nanmin xs) (Float64.nanmax xs));
    [|assumption|assumption].
  apply Float64Facts.nanmin_le_nanmax. apply Float64Facts.is_nan_false.
  unfold Float64.floor in Hlo. intros Hnan. rewrite Hnan in Hlo. discriminate.
Qed.

End GridFacts.

Module ClaimFacts.
Import DataFrame PosCalcFacts LoadFacts GridFacts.

Lemma loaded_Inv w : loaded w -> exists ps, Inv ps w.
Proof.
  induction 1 as [E w0 pm w Hrun | E w0 r w _ (ps & HI) Hrun
                 | w0 r w _ (ps & HI) Hrun | E cs w0 r w _ (ps & HI) Hrun].
  - apply read_recording_ok in Hrun. destruct Hrun as (m & _ & _ & Hp & Hm & _).
    exists (proto.positions m). now apply Inv_load.
  - destruct r as [pm|e].
    + apply read_recording_ok in Hrun. destruct Hrun as (m & _ & _ & Hp & Hm & _).
      exists (proto.positions m). now apply Inv_load.
    + apply read_recording_raise in Hrun. exists ps.
      destruct HI as (Hp & Hm). split; now rewrite Hrun.
  - destruct (magnetics_pos_calc_frame ps w0 HI) as (r' & w' & Hrun' & HI' & _).
    exists ps. congruence.
  - destruct (set_rect_grid_frame E cs w0) as (r' & w' & Hrun' & Hp & Hm).
    exists ps. assert (w' = w) by congruence. subst w'.
    destruct HI as (Hp0 & Hm0). split; congruence.
Qed.

Lemma cell_positions ps w i t x y :
  Inv ps w -> position_at w i = Some (t, x, y) ->
  exists p, nth_error ps i = Some p /\
    proto.pos_t p = t /\ proto.pos_x p = x /\ proto.pos_y p = y.
Proof.
  intros (Hp & _). unfold position_at, cell, loc. rewrite Hp, find_row_positions.
  destruct (nth_error ps i) as [p|]; [|discriminate]. simpl.
  intros H. injection H as <- <- <-. eauto.
Qed.

Lemma position_t_nth ps w i t :
  Inv ps w -> position_t w i = Some t ->
  exists p, nth_error ps i = Some p /\ proto.pos_t p = t.
Proof.
  intros (Hp & _). unfold position_t, cell, loc. rewrite Hp, find_row_positions.
  destruct (nth_error ps i) as [p|]; [|discriminate]. simpl.
  intros H. injection H as <-. eauto.
Qed.

Lemma magnetic_t_cursor ps w r t :
  Inv ps w -> magnetic_t w r = Some t -> cursor w r t.
Proof.
  intros (_ & Hwf). unfold magnetic_t, cell. rewrite (loc_t_wf _ _ Hwf).
  destruct (find_row (rows (magnetics (self w))) r) as [cells|] eqn:Hr; [|discriminate].
  intros H. injection H as <-. exists cells. auto.
Qed.

Lemma estimate_cells ps w r cells :
  Inv ps w -> find_row (rows (magnetics (self w))) r = Some cells ->
  estimate w r = Some (nth 5 cells nan, nth 6 cells nan).
Proof.
  intros (_ & Hc & _) Hr. unfold estimate, cell, loc. rewrite Hr, Hc. reflexivity.
Qed.

(** Timestamps in ascending order are ordered at any distance. *)
Lemma ascending_le f n : ascending f n ->
  forall a b ta tb, a < b <= n -> f a = Some ta -> f b = Some tb -> leb ta tb = true.
Proof.
  intros Hasc a b. induction b as [|b IH]; intros ta tb Hab Ha Hb; [lia|].
  destruct (Hasc b ltac:(lia)) as (u & v & Hu & Hv & Hle).
  assert (v = tb) by congruence. subst v.
  destruct (Nat.eq_dec a b) as [-> | Hne].
  - assert (u = ta) by congruence. subst u. exact Hle.
  - eapply Float64Facts.leb_trans; [|exact Hle]. apply IH; auto. lia.
Qed.

Lemma ascending_present ps w r tr :
  Inv ps w -> ascending (magnetic_t w) r -> magnetic_t w r = Some tr ->
  forall k, k <= r -> exists tk, cursor w k tk /\ (k < r -> leb tk tr = true).
Proof.
  intros HI Hasc Hr k Hk. destruct (Nat.eq_dec k r) as [-> | Hne].
  - exists tr. split; [eapply magnetic_t_cursor; eauto | lia].
  - destruct (Hasc k ltac:(lia)) as (a & b & Ha & _ & _).
    exists a. split; [eapply magnetic_t_cursor; eauto|].
    intros _. eapply (ascending_le _ _ Hasc k r); eauto. lia.
Qed.

(** The form of [sample_assigned] the claims use. *)
Lemma sample_estimate ps w j p0 p1 r tr :
  Inv ps w ->
  nth_error ps j = Some p0 -> nth_error ps (j + 1) = Some p1 ->
  (forall k, k <= r -> exists tk, cursor w k tk /\ ltb tk (proto.pos_t p1) = true) ->
  cursor w r tr ->
  (forall k p, k < j -> nth_error ps (k + 1) = Some p ->
               ltb tr (proto.pos_t p) = false) ->
  exists res w',
    magnetics_pos_calc w = Some (res, w') /\
    estimate w' r = Some (interp_x p0 p1 tr, interp_y p0 p1 tr).
Proof.
  intros HI H0 H1 Hall Hr Hbefore.
  destruct (sample_assigned ps w j p0 p1 r tr HI H0 H1) as
    (res & w' & Hrun & HI' & cells & Hf & Hx & Hy); auto.
  - intros k Hk. destruct (Hall k Hk) as (tk & (c & Hc & _) & _). congruence.
  - exists res, w'. split; [exact Hrun|].
    rewrite (estimate_cells ps w' r cells HI' Hf). now rewrite Hx, Hy.
Qed.

End ClaimFacts.

(** ** What the calls raise, and what the trimming keeps *)

Module RunFacts.
Import DataFrame PosCalcFacts LoadFacts.

(** The only exception of the loops is the [KeyError] of a missing label. *)
Lemma while_raises ps i p0 p1 sx sy :
  nth_error ps i = Some p0 -> nth_error ps (i + 1) = Some p1 ->
  forall fuel row tj w e w',
    Inv ps w -> cursor w row tj ->
    while_loop fuel i sx sy row tj w = Some (Raise e, w') -> e = KeyError.
Proof.
  intros H0 H1. induction fuel as [|f IH]; intros row tj w e w' HI Hcur;
    rewrite (while_loop_eq ps i p0 p1) by (try apply HI; assumption);
    destruct (ltb tj (proto.pos_t p1)); try discriminate.
  cbv zeta. set (w1 := set_xy w row _ _).
  destruct Hcur as (cells & Hr & Htj).
  destruct (set_xy_spec ps w row
              ((tj - proto.pos_t p0) * sx + proto.pos_x p0)%float
              ((tj - proto.pos_t p0) * sy + proto.pos_y p0)%float cells HI Hr)
    as (HI1 & _).
  fold w1 in HI1.
  destruct (Nat.leb (len (magnetics (self w1))) (S row)); [discriminate|].
  rewrite (loc_t_wf _ _ (proj2 HI1)).
  destruct (find_row (rows (magnetics (self w1))) (S row)) as [cells'|] eqn:Hr'.
  - apply IH; [exact HI1 | exists cells'; auto].
  - intros H. now injection H as <- _.
Qed.

Lemma for_raises ps : forall m s row tj w e w',
  s + m < List.length ps ->
  Inv ps w -> cursor w row tj ->
  for_loop (seq s m) row tj w = Some (Raise e, w') -> e = KeyError.
Proof.
  induction m as [|m IH]; intros s row tj w e w' Hs HI Hcur; [discriminate|].
  destruct (nth_error ps s) as [p0|] eqn:H0; [|apply nth_error_None in H0; lia].
  destruct (nth_error ps (s + 1)) as [p1|] eqn:H1; [|apply nth_error_None in H1; lia].
  simpl seq. rewrite (for_loop_cons ps s p0 p1) by (try apply HI; assumption).
  destruct (while_frame ps s p0 p1 (speed_x p0 p1) (speed_y p0 p1) H0 H1
              (S (len (magnetics (self w)) - row)) row tj w HI Hcur ltac:(lia))
    as (res & w1 & Hrun & HI1 & Hs1 & Hnext).
  rewrite Hrun. destruct res as [[row' tj'|]|e0].
  - destruct (Hnext row' tj' eq_refl) as (_ & Hc' & _).
    apply IH; [lia | exact HI1 | exact Hc'].
  - discriminate.
  - intros H. injection H as <- <-.
    eapply while_raises; [exact H0 | exact H1 | exact HI | exact Hcur | exact Hrun].
Qed.

Lemma magnetics_pos_calc_raises ps w e w' :
  Inv ps w -> magnetics_pos_calc w = Some (Raise e, w') -> e = KeyError.
Proof.
  intros HI. rewrite (magnetics_pos_calc_eq ps w HI).
  destruct (find_row (rows (magnetics (self w))) 0) as [cells|] eqn:Hr.
  - destruct ps as [|p ps]; [discriminate|].
    apply (for_raises (p :: ps)); [simpl; lia | exact HI | exists cells; auto].
  - intros H. now injection H as <- _.
Qed.

(** A lookup in the rows a filter keeps. *)
Lemma find_row_filter (p : nat * list float -> bool) (rs : list (nat * list float))
  (k : nat) :
  NoDup (map fst rs) ->
  find_row (filter p rs) k
  = match find_row rs k with
    | Some cells => if p (k, cells) then Some cells else None
    | None => None
    end.
Proof.
  induction rs as [|[l c] rs IH]; simpl; intros Hnd; [reflexivity|].
  inversion Hnd as [|? ? Hnotin Hnd']; subst.
  destruct (Nat.eqb_spec l k) as [-> | Hne].
  - destruct (p (k, c)) eqn:Hp; simpl.
    + now rewrite Nat.eqb_refl.
    + rewrite IH by exact Hnd'.
      destruct (find_row rs k) eqn:Hf; [|reflexivity].
      exfalso. apply Hnotin. eapply find_row_In; eauto.
  - destruct (p (l, c)); simpl.
    + destruct (Nat.eqb_spec l k); [contradiction|]. now apply IH.
    + now apply IH.
Qed.

Lemma enumerate_labels {A : Type} (l : list A) :
  map fst (enumerate l) = seq 0 (List.length l).
Proof.
  unfold enumerate. generalize 0.
  induction l as [|a l IH]; intros s; simpl; [reflexivity|]. now rewrite IH.
Qed.

(** The row a magnetic record has after loading. *)
Lemma find_row_loaded_magnetics (measurements : proto.Recording) (j : nat) :
  find_row (rows (loaded_magnetics measurements)) j
  = match nth_error (proto.magnetics measurements) j with
    | Some m =>
        if leb (proto.mag_t m) (max_position_t measurements)
        then Some (loaded_magnetic_row m) else None
    | None => None
    end.
Proof.
  unfold loaded_magnetics. cbn [rows].
  rewrite find_row_filter by (rewrite enumerate_labels; apply seq_NoDup).
  unfold enumerate. rewrite length_map, find_row_combine_seq.
  cbn [Nat.ltb Nat.leb]. rewrite Nat.sub_0_r.
  destruct (nth_error (proto.magnetics measurements) j) as [m|]; reflexivity.
Qed.

Lemma getitem_positions_t (ps : list proto.Position) :
  getitem (positions_of ps) "t" = Ok (map proto.pos_t ps).
Proof.
  unfold getitem, positions_of. simpl.
  rewrite (snd_enumerate (fun c => nth 0 c nan)), map_map. reflexivity.
Qed.

(** The constructor, step by step. *)
Lemma init_eq (E : env) (path : string) :
  IPSRecording_new E path =
  let w0 := {| self := self fresh; io := [IsFile path] |} in
  if isfile E path then
    let w1 := {| self := {| pb_file := path;
                            positions := positions (self fresh);
                            magnetics := magnetics (self fresh);
                            rect_grid := None; cell_size := None |};
                 io := [IsFile path] |} in
    match read_recording E w1 with
    | Some (Ok _, w2) =>
        match magnetics_pos_calc w2 with
        | Some (Ok _, w3) => Some (Ok tt, w3)
        | Some (Raise e, w3) => Some (Raise e, w3)
        | None => None
        end
    | Some (Raise e, w2) => Some (Raise e, w2)
    | None => None
    end
  else
    Some (Raise (FileNotFoundError
                   ("The specified path " ++ path ++ " isn't a proper file!")),
          w0).
Proof.
  unfold IPSRecording_new, __init__.
  cbv beta iota zeta delta [mbind emit raise lift modify ret].
  destruct (isfile E path); [|reflexivity]. cbn [negb self io fresh].
  destruct (read_recording E _) as [[[pm|e] w2]|]; reflexivity.
Qed.

(** A constructed object is a loaded recording. *)
Lemma loaded_new (E : env) (path : string) (w : world) :
  IPSRecording_new E path = Some (Ok tt, w) -> loaded w.
Proof.
  rewrite init_eq. cbv zeta. destruct (isfile E path); [|discriminate].
  destruct (read_recording E _) as [[[pm|e] w2]|] eqn:Hread; try discriminate.
  destruct (magnetics_pos_calc w2) as [[[[]|e] w3]|] eqn:Hcalc; try discriminate.
  intros H. injection H as <-.
  eapply loaded_calc; [eapply loaded_read; exact Hread | exact Hcalc].
Qed.

End RunFacts.

(** ** A call of [set_rect_grid] on a loaded recording *)

Module GridRunFacts.
Import DataFrame GridFacts.

Lemma getitem_positions_x (ps : list proto.Position) :
  getitem (positions_of ps) "x" = Ok (map proto.pos_x ps).
Proof.
  unfold getitem, positions_of. simpl.
  rewrite (snd_enumerate (fun c => nth 1 c nan)), map_map. reflexivity.
Qed.

Lemma getitem_positions_y (ps : list proto.Position) :
  getitem (positions_of ps) "y" = Ok (map proto.pos_y ps).
Proof.
  unfold getitem, positions_of. simpl.
  rewrite (snd_enumerate (fun c => nth 2 c nan)), map_map. reflexivity.
Qed.

(** The grid a call returns: its extents, its shape and its cells. *)
Lemma set_rect_grid_spec E ps cs w g w' :
  Inv ps w -> set_rect_grid E cs w = Some (Ok g, w') ->
  exists x_lo x_hi y_lo y_hi x_axis y_axis,
    int_floor (Float64.nanmin (map proto.pos_x ps)) = Ok x_lo /\
    int_ceil (Float64.nanmax (map proto.pos_x ps)) = Ok x_hi /\
    int_floor (Float64.nanmin (map proto.pos_y ps)) = Ok y_lo /\
    int_ceil (Float64.nanmax (map proto.pos_y ps)) = Ok y_hi /\
    range x_lo x_hi (fst cs) = Ok x_axis /\
    range y_lo y_hi (snd cs) = Ok y_axis /\
    shape g = (List.length x_axis + 1, List.length y_axis + 1) /\
    rect_grid (self w') = Some g /\
    forall a b, a < List.length x_axis + 1 -> b < List.length y_axis + 1 ->
      get2 g (a, b)
      = cell_mean E
          (samples_in magnetics_columns
             (Float64.nanmin (map proto.pos_x ps))
             (Float64.nanmin (map proto.pos_y ps)) cs
             (List.length x_axis + 1) (List.length y_axis + 1) (a, b)
             (rows (magnetics (self w)))).
Proof.
  intros (Hpos & Hcols & _) Hrun.
  apply set_rect_grid_ok in Hrun.
  destruct Hrun as (xs & ys & x_lo & x_hi & y_lo & y_hi & x_axis & y_axis & cnt & w1
                    & Hxs & Hxlo & Hxhi & Hxa & Hys & Hylo & Hyhi & Hya & Hloop & Hg & Hw').
  rewrite Hpos, getitem_positions_x in Hxs. injection Hxs as <-.
  rewrite Hpos, getitem_positions_y in Hys. injection Hys as <-.
  rewrite Hcols in Hloop.
  set (n := List.length x_axis + 1) in *. set (m := List.length y_axis + 1) in *.
  assert (Hn : 0 < n) by (unfold n; lia).
  apply (grid_loop_spec E n m _ _ cs Hn) in Hloop;
    [|apply rect_zeros|apply rect_zeros].
  destruct Hloop as (Hrg & Hrc & Hcells).
  exists x_lo, x_hi, y_lo, y_hi, x_axis, y_axis.
  repeat (split; [assumption|]).
  split; [|split].
  - rewrite Hg. apply shape_divide; [exact Hn | exact Hrg|].
    now apply rect_nan_where_zero.
  - rewrite Hw'. reflexivity.
  - intros a b Ha Hb. destruct (Hcells a b Ha Hb) as (Hsum & Hcnt).
    rewrite Hg, (get2_divide n m) by (auto using rect_nan_where_zero).
    rewrite (get2_nan_where_zero n m) by assumption.
    rewrite Hsum, Hcnt.
    change (get2 (the_grid (self (with_grid (zeros n m) (with_cell_size cs w)))) (a, b))
      with (get2 (zeros n m) (a, b)).
    rewrite (get2_zeros n m a b Ha Hb), iter_count.
    destruct (samples_in _ _ _ _ _ _ _ _) as [|s S]; cbn [cell_mean].
    + cbn [List.length count_float map fold_left].
      change (eqb 0 0) with true. cbv iota. apply Float64Facts.div_nan.
    + cbn [List.length]. rewrite count_float_nonzero. reflexivity.
Qed.






End GridRunFacts.

(** ** What [magnetics_pos_calc] leaves alone *)

Module FrameFacts.
Import DataFrame PosCalcFacts.

Lemma same_but_magnetics_refl w : same_but_magnetics w w.
Proof. repeat split. Qed.

Lemma same_but_magnetics_trans w1 w2 w3 :
  same_but_magnetics w1 w2 -> same_but_magnetics w2 w3 -> same_but_magnetics w1 w3.
Proof.
  intros (A1 & A2 & A3 & A4 & A5) (B1 & B2 & B3 & B4 & B5).
  repeat split; congruence.
Qed.

Lemma same_measurements_refl M : same_measurements M M.
Proof. repeat split. Qed.

Lemma same_measurements_trans M1 M2 M3 :
  same_measurements M1 M2 -> same_measurements M2 M3 -> same_measurements M1 M3.
Proof.
  intros (A1 & A2 & A3) (B1 & B2 & B3). split; [congruence|]. split; [congruence|].
  intros label. now rewrite B3, A3.
Qed.

(** The loops write to the magnetic table only. *)
Lemma while_loop_others : forall fuel i sx sy row tj w r w',
  while_loop fuel i sx sy row tj w = Some (r, w') -> same_but_magnetics w w'.
Proof.
  induction fuel as [|f IH]; intros i sx sy row tj w r w' H; cbn [while_loop] in H;
    cbv beta iota zeta delta
      [mbind positions_loc magnetics_loc magnetics_loc_set gets lift modify ret
       raise out_of_fuel] in H;
    cbn [self io positions magnetics set_magnetics] in H.
  - destruct (loc (positions (self w)) (i + 1) "t") as [t1|e];
      [destruct (ltb tj t1)|]; try discriminate;
      injection H as <- <-; apply same_but_magnetics_refl.
  - destruct (loc (positions (self w)) (i + 1) "t") as [t1|e];
      [|injection H as <- <-; apply same_but_magnetics_refl].
    destruct (ltb tj t1); [|injection H as <- <-; apply same_but_magnetics_refl].
    destruct (loc (positions (self w)) i "t") as [ti|e];
      [|injection H as <- <-; apply same_but_magnetics_refl].
    destruct (loc (positions (self w)) i "x") as [xi|e];
      [|injection H as <- <-; apply same_but_magnetics_refl].
    destruct (loc (positions (self w)) i "y") as [yi|e];
      [|injection H as <- <-; repeat split].
    match type of H with
    | (if ?c then _ else _) _ = _ => destruct c
    end; cbv beta in H; cbn [self magnetics set_magnetics] in H;
      [injection H as <- <-; repeat split|].
    match type of H with
    | match ?l with _ => _ end = _ => destruct l as [tj'|e]
    end; [|injection H as <- <-; repeat split].
    apply IH in H. destruct H as (B1 & B2 & B3 & B4 & B5).
    repeat split; assumption.
Qed.

Lemma for_loop_others : forall labels row tj w r w',
  for_loop labels row tj w = Some (r, w') -> same_but_magnetics w w'.
Proof.
  induction labels as [|i labels IH]; intros row tj w r w' H; cbn [for_loop] in H.
  - injection H as <- <-. apply same_but_magnetics_refl.
  - cbv beta iota zeta delta [mbind positions_loc gets lift ret] in H.
    repeat match type of H with
    | match loc ?df ?k ?c with _ => _ end = _ =>
        destruct (loc df k c);
        [|injection H as <- <-; apply same_but_magnetics_refl]
    end.
    match type of H with
    | match ?run with _ => _ end = _ =>
        destruct run as [[[[row' tj'|]|e] w1]|] eqn:Hrun
    end; try discriminate.
    + apply while_loop_others in Hrun. apply IH in H.
      eapply same_but_magnetics_trans; eassumption.
    + apply while_loop_others in Hrun. now injection H as <- <-.
    + apply while_loop_others in Hrun. now injection H as <- <-.
Qed.

Lemma magnetics_pos_calc_others w r w' :
  magnetics_pos_calc w = Some (r, w') -> same_but_magnetics w w'.
Proof.
  unfold magnetics_pos_calc.
  cbv beta iota zeta delta [mbind magnetics_loc gets lift].
  destruct (loc (magnetics (self w)) 0 "t") as [tj|e].
  - apply for_loop_others.
  - intros H. injection H as <- <-. apply same_but_magnetics_refl.
Qed.

(** One turn of the [while] loop keeps the measured cells. *)
Lemma measured_upd_xy cells vx vy :
  List.length cells = 7 -> measured (upd_xy cells vx vy) = measured cells.
Proof.
  intros H.
  destruct cells as [|c0 [|c1 [|c2 [|c3 [|c4 [|c5 [|c6 [|c7 cells]]]]]]]];
    try discriminate. reflexivity.
Qed.

Lemma set_xy_measurements ps w row vx vy cells :
  Inv ps w ->
  find_row (rows (magnetics (self w))) row = Some cells ->
  same_measurements (magnetics (self w)) (magnetics (self (set_xy w row vx vy))).
Proof.
  intros (Hpos & Hc & Hrows) Hr.
  pose proof (find_row_Forall _ _ _ _ Hrows Hr) as Hlen. simpl in Hlen.
  rewrite (set_xy_magnetics w row vx vy cells Hc Hr).
  split; [now rewrite Hc|]. split.
  - unfold index. cbn [rows]. eapply put_row_index; eauto.
  - intros label. cbn [rows]. destruct (Nat.eq_dec label row) as [-> | Hne].
    + rewrite (find_row_put_row_same _ _ _ _ Hr), Hr. cbn [option_map].
      now rewrite measured_upd_xy.
    + now rewrite find_row_put_row_other.
Qed.

Lemma while_measurements ps i p0 p1 sx sy :
  nth_error ps i = Some p0 -> nth_error ps (i + 1) = Some p1 ->
  forall fuel row tj w r w',
    Inv ps w -> cursor w row tj ->
    while_loop fuel i sx sy row tj w = Some (r, w') ->
    same_measurements (magnetics (self w)) (magnetics (self w')).
Proof.
  intros H0 H1. induction fuel as [|f IH]; intros row tj w r w' HI Hcur;
    rewrite (while_loop_eq ps i p0 p1) by (try apply HI; assumption);
    destruct (ltb tj (proto.pos_t p1)); try discriminate;
    try (intros H; injection H as <- <-; apply same_measurements_refl).
  cbv zeta. set (w1 := set_xy w row _ _).
  destruct Hcur as (cells & Hr & Htj).
  destruct (set_xy_spec ps w row
              ((tj - proto.pos_t p0) * sx + proto.pos_x p0)%float
              ((tj - proto.pos_t p0) * sy + proto.pos_y p0)%float cells HI Hr)
    as (HI1 & _).
  pose proof (set_xy_measurements ps w row
                ((tj - proto.pos_t p0) * sx + proto.pos_x p0)%float
                ((tj - proto.pos_t p0) * sy + proto.pos_y p0)%float cells HI Hr)
    as Hstep.
  fold w1 in HI1, Hstep.
  destruct (Nat.leb (len (magnetics (self w1))) (S row));
    [intros H; injection H as <- <-; exact Hstep|].
  rewrite (loc_t_wf _ _ (proj2 HI1)).
  destruct (find_row (rows (magnetics (self w1))) (S row)) as [cells'|] eqn:Hr'.
  - intros H. apply IH in H; [|exact HI1|exists cells'; auto].
    eapply same_measurements_trans; eassumption.
  - intros H. injection H as <- <-. exact Hstep.
Qed.

Lemma for_measurements ps : forall m s row tj w r w',
  s + m < List.length ps ->
  Inv ps w -> cursor w row tj ->
  for_loop (seq s m) row tj w = Some (r, w') ->
  same_measurements (magnetics (self w)) (magnetics (self w')).
Proof.
  induction m as [|m IH]; intros s row tj w r w' Hs HI Hcur.
  - intros H. injection H as <- <-. apply same_measurements_refl.
  - destruct (nth_error ps s) as [p0|] eqn:H0; [|apply nth_error_None in H0; lia].
    destruct (nth_error ps (s + 1)) as [p1|] eqn:H1;
      [|apply nth_error_None in H1; lia].
    simpl seq. rewrite (for_loop_cons ps s p0 p1) by (try apply HI; assumption).
    destruct (while_frame ps s p0 p1 (speed_x p0 p1) (speed_y p0 p1) H0 H1
                (S (len (magnetics (self w)) - row)) row tj w HI Hcur ltac:(lia))
      as (res & w1 & Hrun & HI1 & Hs1 & Hnext).
    rewrite Hrun.
    pose proof (while_measurements ps s p0 p1 _ _ H0 H1 _ _ _ _ _ _ HI Hcur Hrun)
      as Hstep.
    destruct res as [[row' tj'|]|e0].
    + destruct (Hnext row' tj' eq_refl) as (_ & Hc' & _).
      intros H. apply IH in H; [|lia|exact HI1|exact Hc'].
      eapply same_measurements_trans; eassumption.
    + intros H. now injection H as <- <-.
    + intros H. now injection H as <- <-.
Qed.

Lemma magnetics_pos_calc_measurements ps w r w' :
  Inv ps w -> magnetics_pos_calc w = Some (r, w') ->
  same_measurements (magnetics (self w)) (magnetics (self w')).
Proof.
  intros HI. rewrite (magnetics_pos_calc_eq ps w HI).
  destruct (find_row (rows (magnetics (self w))) 0) as [cells|] eqn:Hr.
  - destruct ps as [|p ps].
    + intros H. injection H as <- <-. apply same_measurements_refl.
    + apply (for_measurements (p :: ps)); [simpl; lia | exact HI | exists cells; auto].
  - intros H. injection H as <- <-. apply same_measurements_refl.
Qed.

End FrameFacts.

(** ** Running a call again *)

Module ReplayFacts.
Import DataFrame PosCalcFacts GridFacts.

Lemma upd_xy_same cells vx vy :
  List.length cells = 7 -> nth 5 cells nan = vx -> nth 6 cells nan = vy ->
  upd_xy cells vx vy = cells.
Proof.
  intros H.
  destruct cells as [|c0 [|c1 [|c2 [|c3 [|c4 [|c5 [|c6 [|c7 cells]]]]]]]];
    try discriminate.
  cbn. intros <- <-. reflexivity.
Qed.

Lemma put_row_same rs label cells :
  find_row rs label = Some cells -> put_row rs label cells = rs.
Proof.
  induction rs as [|[l c] rs IH]; simpl; [discriminate|].
  destruct (Nat.eqb_spec l label) as [-> | Hne].
  - intros H. now injection H as ->.
  - intros H. now rewrite IH.
Qed.

(** Writing to a row the position it holds changes nothing. *)
Lemma set_xy_same ps v row vx vy cells :
  Inv ps v ->
  find_row (rows (magnetics (self v))) row = Some cells ->
  nth 5 cells nan = vx -> nth 6 cells nan = vy ->
  set_xy v row vx vy = v.
Proof.
  intros (Hpos & Hc & Hrows) Hr Hx Hy.
  pose proof (find_row_Forall _ _ _ _ Hrows Hr) as Hlen. simpl in Hlen.
  pose proof (set_xy_magnetics v row vx vy cells Hc Hr) as HM.
  rewrite (upd_xy_same cells vx vy Hlen Hx Hy), (put_row_same _ _ _ Hr) in HM.
  unfold set_xy in *. cbn [self magnetics set_magnetics] in HM. rewrite HM.
  destruct v as [[pb P M g c] tr]. cbn in *.
  destruct M as [cols rs]. cbn in *. now subst cols.
Qed.

Lemma same_upto_weaken b w w' : same_upto b w w' -> same_upto 0 w w'.
Proof. intros (Hi & Ht & _). repeat split; auto. intros k Hk. lia. Qed.

(** A run of the [while] loop, started again on a state that holds what the
    run wrote, ends the same way and changes nothing. *)
Lemma while_replay ps i p0 p1 sx sy :
  nth_error ps i = Some p0 -> nth_error ps (i + 1) = Some p1 ->
  forall fuel row tj w res w1,
    Inv ps w -> cursor w row tj ->
    Nat.max 1 (len (magnetics (self w)) - row) <= fuel ->
    while_loop fuel i sx sy row tj w = Some (res, w1) ->
    forall v,
      Inv ps v -> same_upto 0 w1 v ->
      (forall k, row <= k ->
         (forall row' tj', res = Ok (Next row' tj') -> k < row') ->
         find_row (rows (magnetics (self v))) k
         = find_row (rows (magnetics (self w1))) k) ->
      while_loop fuel i sx sy row tj v = Some (res, v).
Proof.
  intros H0 H1. induction fuel as [|f IH];
    intros row tj w res w1 HI Hcur Hfuel Hrun v HIv Hsame Hrows; [lia|].
  rewrite (while_loop_eq ps i p0 p1) in Hrun by (try apply HI; assumption).
  rewrite (while_loop_eq ps i p0 p1) by (try apply HIv; assumption).
  destruct (ltb tj (proto.pos_t p1)) eqn:Hlt.
  2:{ now injection Hrun as <- <-. }
  cbv zeta in Hrun |- *.
  set (vx := ((tj - proto.pos_t p0) * sx + proto.pos_x p0)%float) in *.
  set (vy := ((tj - proto.pos_t p0) * sy + proto.pos_y p0)%float) in *.
  set (wa := set_xy w row vx vy) in *.
  destruct Hcur as (cells & Hr & Htj).
  destruct (set_xy_spec ps w row vx vy cells HI Hr) as (HIa & Hsa & Hrowa & _).
  fold wa in HIa, Hsa, Hrowa.
  pose proof (same_upto_len _ _ _ Hsa) as Hlena.
  pose proof (same_upto_len _ _ _ Hsame) as Hlenv.
  assert (Hlen7 : List.length cells = 7)
    by (exact (find_row_Forall _ _ _ _ (proj2 (proj2 HI)) Hr)).
  destruct (upd_xy_spec cells vx vy Hlen7) as (_ & _ & H5 & H6).
  (* the row the run wrote is in [v] already *)
  assert (Hstep : find_row (rows (magnetics (self w1))) row
                  = Some (upd_xy cells vx vy) ->
                  (forall row' tj', res = Ok (Next row' tj') -> row < row') ->
                  set_xy v row vx vy = v).
  { intros Hw1 Hbound. apply (set_xy_same ps v row vx vy (upd_xy cells vx vy) HIv);
      [|exact H5|exact H6].
    rewrite Hrows; [exact Hw1 | lia | exact Hbound]. }
  destruct (Nat.leb_spec (len (magnetics (self wa))) (S row)) as [Hle | Hgt].
  - injection Hrun as <- <-.
    rewrite Hstep; [|exact Hrowa|discriminate].
    destruct (Nat.leb_spec (len (magnetics (self v))) (S row));
      [reflexivity | exfalso; lia].
  - rewrite (loc_t_wf _ _ (proj2 HIa)) in Hrun.
    destruct (find_row (rows (magnetics (self wa))) (S row)) as [cells'|] eqn:Hr'.
    + destruct (while_frame ps i p0 p1 sx sy H0 H1 f (S row) (nth 0 cells' nan) wa HIa)
        as (res0 & w0 & Hrun0 & HI0 & Hs0 & Hnext0).
      { exists cells'. auto. }
      { lia. }
      rewrite Hrun in Hrun0. injection Hrun0 as <- <-.
      pose proof (same_upto_len _ _ _ Hs0) as Hlen0.
      rewrite Hstep.
      * destruct (Nat.leb_spec (len (magnetics (self v))) (S row));
        [exfalso; lia|].
        rewrite (loc_t_wf _ _ (proj2 HIv)).
        assert (Ht : option_map (fun c => nth 0 c nan)
                       (find_row (rows (magnetics (self v))) (S row))
                     = Some (nth 0 cells' nan)).
        { destruct Hsame as (_ & Htv & _). rewrite Htv.
          destruct Hs0 as (_ & Ht0 & _). rewrite Ht0, Hr'. reflexivity. }
        destruct (find_row (rows (magnetics (self v))) (S row)) as [cv|];
          [|discriminate].
        cbn [option_map] in Ht. injection Ht as ->.
        apply (IH (S row) (nth 0 cells' nan) wa res w1); auto.
        -- exists cells'. auto.
        -- lia.
        -- intros k Hk Hb. apply Hrows; [lia | exact Hb].
      * destruct Hs0 as (_ & _ & Hb0). rewrite Hb0 by lia. exact Hrowa.
      * intros row' tj' E. destruct (Hnext0 row' tj' E) as (Hle' & _). lia.
    + injection Hrun as <- <-.
      rewrite Hstep; [|exact Hrowa|discriminate].
      destruct (Nat.leb_spec (len (magnetics (self v))) (S row));
        [exfalso; lia|].
      rewrite (loc_t_wf _ _ (proj2 HIv)).
      destruct Hsame as (_ & Htv & _). specialize (Htv (S row)).
      rewrite Hr' in Htv.
      destruct (find_row (rows (magnetics (self v))) (S row)); [discriminate|].
      reflexivity.
Qed.

Lemma for_replay ps : forall m s row tj w r w',
  s + m < List.length ps ->
  Inv ps w -> cursor w row tj ->
  for_loop (seq s m) row tj w = Some (r, w') ->
  for_loop (seq s m) row tj w' = Some (r, w').
Proof.
  induction m as [|m IH]; intros s row tj w r w' Hs HI Hcur Hrun.
  - injection Hrun as <- <-. reflexivity.
  - destruct (nth_error ps s) as [p0|] eqn:H0; [|apply nth_error_None in H0; lia].
    destruct (nth_error ps (s + 1)) as [p1|] eqn:H1;
      [|apply nth_error_None in H1; lia].
    simpl seq in *.
    rewrite (for_loop_cons ps s p0 p1) in Hrun by (try apply HI; assumption).
    destruct (while_frame ps s p0 p1 (speed_x p0 p1) (speed_y p0 p1) H0 H1
                (S (len (magnetics (self w)) - row)) row tj w HI Hcur ltac:(lia))
      as (res & w1 & Hrun1 & HI1 & Hs1 & Hnext).
    rewrite Hrun1 in Hrun.
    pose proof (same_upto_len _ _ _ Hs1) as Hlen1.
    destruct res as [[row' tj'|]|e0].
    + destruct (Hnext row' tj' eq_refl) as (Hle & Hc' & _).
      destruct (for_frame ps m (S s) row' tj' w1 ltac:(lia) HI1 Hc')
        as (r0 & w0 & Hrun0 & HI0 & Hs0).
      rewrite Hrun in Hrun0. injection Hrun0 as <- <-.
      pose proof (same_upto_len _ _ _ Hs0) as Hlen0.
      rewrite (for_loop_cons ps s p0 p1) by (try apply HI0; assumption).
      replace (len (magnetics (self w'))) with (len (magnetics (self w)))
        by congruence.
      rewrite (while_replay ps s p0 p1 _ _ H0 H1
                 (S (len (magnetics (self w)) - row)) row tj w _ _ HI Hcur
                 ltac:(lia) Hrun1
                 w' HI0 (same_upto_weaken _ _ _ Hs0)).
      * apply (IH (S s) row' tj' w1); auto. lia.
      * intros k Hk Hb. destruct Hs0 as (_ & _ & Hb0). apply Hb0.
        apply (Hb row' tj' eq_refl).
    + injection Hrun as <- <-.
      rewrite (for_loop_cons ps s p0 p1) by (try apply HI1; assumption).
      rewrite Hlen1.
      rewrite (while_replay ps s p0 p1 _ _ H0 H1
                 (S (len (magnetics (self w)) - row)) row tj w _ _ HI Hcur
                 ltac:(lia) Hrun1
                 w1 HI1 (same_upto_refl 0 w1)); [reflexivity|].
      intros; reflexivity.
    + injection Hrun as <- <-.
      rewrite (for_loop_cons ps s p0 p1) by (try apply HI1; assumption).
      rewrite Hlen1.
      rewrite (while_replay ps s p0 p1 _ _ H0 H1
                 (S (len (magnetics (self w)) - row)) row tj w _ _ HI Hcur
                 ltac:(lia) Hrun1
                 w1 HI1 (same_upto_refl 0 w1)); [reflexivity|].
      intros; reflexivity.
Qed.

Lemma magnetics_pos_calc_replay ps w r w' :
  Inv ps w -> magnetics_pos_calc w = Some (r, w') ->
  magnetics_pos_calc w' = Some (r, w').
Proof.
  intros HI Hrun.
  destruct (magnetics_pos_calc_frame ps w HI) as (r0 & w0 & Hrun0 & HI' & Hs).
  rewrite Hrun in Hrun0. injection Hrun0 as <- <-.
  rewrite (magnetics_pos_calc_eq ps w HI) in Hrun.
  rewrite (magnetics_pos_calc_eq ps w' HI').
  destruct Hs as (_ & Ht & _). specialize (Ht 0).
  destruct (find_row (rows (magnetics (self w))) 0) as [cells|] eqn:Hr.
  - destruct (find_row (rows (magnetics (self w'))) 0) as [cells'|];
      [|discriminate].
    cbn [option_map] in Ht. injection Ht as ->.
    destruct ps as [|p ps].
    + cbn in Hrun |- *. now injection Hrun as <- <-.
    + apply (for_replay (p :: ps) _ _ _ _ w); [simpl; lia | exact HI| |exact Hrun].
      exists cells. auto.
  - injection Hrun as <- <-. now rewrite Hr.
Qed.

(** The loop over the magnetic rows reads the grid it fills and nothing else
    of the object. *)
Lemma grid_loop_sim E cols x_min y_min cs : forall rs cnt w v r w1,
  the_grid (self w) = the_grid (self v) ->
  grid_loop E cols x_min y_min cs rs cnt w = Some (r, w1) ->
  exists v1,
    grid_loop E cols x_min y_min cs rs cnt v = Some (r, v1) /\
    the_grid (self v1) = the_grid (self w1).
Proof.
  induction rs as [|[l magnetic] rs IH]; intros cnt w v r w1 Hg.
  - intros H. injection H as <- <-. exists v. auto.
  - rewrite !grid_loop_cons. rewrite <- Hg.
    destruct (cell_of cols x_min y_min cs magnetic) as [rowcol|e];
      [|intros H; injection H as <- <-; eauto].
    destruct (index2 (the_grid (self w)) (fst rowcol) (snd rowcol)) as [rc|e];
      [|intros H; injection H as <- <-; eauto].
    destruct (row_get cols magnetic "mx") as [mx|e];
      [|intros H; injection H as <- <-; eauto].
    destruct (row_get cols magnetic "my") as [my|e];
      [|intros H; injection H as <- <-; eauto].
    destruct (row_get cols magnetic "mz") as [mz|e];
      [|intros H; injection H as <- <-; eauto].
    cbv zeta.
    destruct (index2 cnt (fst rowcol) (snd rowcol)) as [rc'|e];
      [|intros H; injection H as <- <-; eexists; split; reflexivity].
    apply IH. reflexivity.
Qed.

End ReplayFacts.

(** ** Rows the interpolation does not reach, and the grid loop *)

Module KeepFacts.
Import DataFrame PosCalcFacts GridFacts.

(** A row whose timestamp is not earlier than [t(i+1)] is not written by the
    [while] loop of the pair [(i, i+1)]. *)
Lemma while_keeps ps i p0 p1 sx sy label cells :
  nth_error ps i = Some p0 -> nth_error ps (i + 1) = Some p1 ->
  ltb (nth 0 cells nan) (proto.pos_t p1) = false ->
  forall fuel row tj w r w',
    Inv ps w -> cursor w row tj ->
    find_row (rows (magnetics (self w))) label = Some cells ->
    while_loop fuel i sx sy row tj w = Some (r, w') ->
    find_row (rows (magnetics (self w'))) label = Some cells.
Proof.
  intros H0 H1 Hlate.
  induction fuel as [|f IH]; intros row tj w r w' HI Hcur Hrow;
    rewrite (while_loop_eq ps i p0 p1) by (try apply HI; assumption);
    destruct (ltb tj (proto.pos_t p1)) eqn:Hlt; try discriminate;
    try (intros H; injection H as <- <-; exact Hrow).
  cbv zeta. set (w1 := set_xy w row _ _).
  destruct Hcur as (cells0 & Hr & Htj).
  assert (Hne : label <> row).
  { intros ->. rewrite Hr in Hrow. injection Hrow as ->. congruence. }
  destruct (set_xy_spec ps w row
              ((tj - proto.pos_t p0) * sx + proto.pos_x p0)%float
              ((tj - proto.pos_t p0) * sy + proto.pos_y p0)%float cells0 HI Hr)
    as (HI1 & _ & _ & Hother).
  fold w1 in HI1, Hother.
  assert (Hrow1 : find_row (rows (magnetics (self w1))) label = Some cells)
    by (rewrite Hother; assumption).
  destruct (Nat.leb (len (magnetics (self w1))) (S row));
    [intros H; injection H as <- <-; exact Hrow1|].
  rewrite (loc_t_wf _ _ (proj2 HI1)).
  destruct (find_row (rows (magnetics (self w1))) (S row)) as [cells'|] eqn:Hr'.
  - apply IH; [exact HI1 | exists cells'; auto | exact Hrow1].
  - intros H. injection H as <- <-. exact Hrow1.
Qed.

Lemma for_keeps ps label cells :
  (forall k p, 1 <= k -> nth_error ps k = Some p ->
               ltb (nth 0 cells nan) (proto.pos_t p) = false) ->
  forall m s row tj w r w',
    s + m < List.length ps ->
    Inv ps w -> cursor w row tj ->
    find_row (rows (magnetics (self w))) label = Some cells ->
    for_loop (seq s m) row tj w = Some (r, w') ->
    find_row (rows (magnetics (self w'))) label = Some cells.
Proof.
  intros Hlate.
  induction m as [|m IH]; intros s row tj w r w' Hs HI Hcur Hrow.
  - intros H. injection H as <- <-. exact Hrow.
  - destruct (nth_error ps s) as [p0|] eqn:H0; [|apply nth_error_None in H0; lia].
    destruct (nth_error ps (s + 1)) as [p1|] eqn:H1;
      [|apply nth_error_None in H1; lia].
    simpl seq. rewrite (for_loop_cons ps s p0 p1) by (try apply HI; assumption).
    destruct (while_frame ps s p0 p1 (speed_x p0 p1) (speed_y p0 p1) H0 H1
                (S (len (magnetics (self w)) - row)) row tj w HI Hcur ltac:(lia))
      as (res & w1 & Hrun & HI1 & Hs1 & Hnext).
    rewrite Hrun.
    pose proof (while_keeps ps s p0 p1 _ _ label cells H0 H1
                  (Hlate (s + 1) p1 ltac:(lia) H1) _ _ _ _ _ _ HI Hcur Hrow Hrun)
      as Hrow1.
    destruct res as [[row' tj'|]|e0].
    + destruct (Hnext row' tj' eq_refl) as (_ & Hc' & _).
      apply IH; [lia | exact HI1 | exact Hc' | exact Hrow1].
    + intros H. now injection H as <- <-.
    + intros H. now injection H as <- <-.
Qed.

Lemma magnetics_pos_calc_keeps ps w r w' label cells :
  Inv ps w ->
  (forall k p, 1 <= k -> nth_error ps k = Some p ->
               ltb (nth 0 cells nan) (proto.pos_t p) = false) ->
  find_row (rows (magnetics (self w))) label = Some cells ->
  magnetics_pos_calc w = Some (r, w') ->
  find_row (rows (magnetics (self w'))) label = Some cells.
Proof.
  intros HI Hlate Hrow. rewrite (magnetics_pos_calc_eq ps w HI).
  destruct (find_row (rows (magnetics (self w))) 0) as [cells0|] eqn:Hr.
  - destruct ps as [|p ps].
    + intros H. now injection H as <- <-.
    + apply (for_keeps (p :: ps) label cells Hlate);
        [simpl; lia | exact HI | exists cells0; auto | exact Hrow].
  - intros H. now injection H as <- <-.
Qed.

(** The loop over the magnetic rows writes to [rect_grid] only. *)
Lemma grid_loop_others E cols x_min y_min cs : forall rs cnt w r w',
  grid_loop E cols x_min y_min cs rs cnt w = Some (r, w') ->
  same_but_grid w w' /\ cell_size (self w') = cell_size (self w).
Proof.
  induction rs as [|[l magnetic] rs IH]; intros cnt w r w'.
  - intros H. injection H as <- <-. repeat split.
  - rewrite grid_loop_cons.
    destruct (cell_of cols x_min y_min cs magnetic) as [rowcol|e];
      [|intros H; injection H as <- <-; repeat split].
    destruct (index2 (the_grid (self w)) (fst rowcol) (snd rowcol)) as [rc|e];
      [|intros H; injection H as <- <-; repeat split].
    destruct (row_get cols magnetic "mx") as [mx|e];
      [|intros H; injection H as <- <-; repeat split].
    destruct (row_get cols magnetic "my") as [my|e];
      [|intros H; injection H as <- <-; repeat split].
    destruct (row_get cols magnetic "mz") as [mz|e];
      [|intros H; injection H as <- <-; repeat split].
    cbv zeta.
    destruct (index2 cnt (fst rowcol) (snd rowcol)) as [rc'|e];
      [|intros H; injection H as <- <-; repeat split].
    intros H. apply IH in H. destruct H as ((B1 & B2 & B3 & B4) & B5).
    repeat split; assumption.
Qed.

(** What the loop raises on a loaded magnetic table. *)
Lemma int_ceil_floordiv_raises v c e :
  int_ceil_floordiv v c = Raise e -> e = ValueError \/ e = OverflowError.
Proof.
  unfold int_ceil_floordiv.
  destruct (Float64.ceil v) as [z|].
  - destruct (c =? 0)%Z; [|discriminate].
    destruct (z =? 0)%Z; intros H; injection H as <-; auto.
  - destruct (is_nan v); [intros H; injection H as <-; auto|].
    destruct (c =? 0)%Z; intros H; injection H as <-; auto.
Qed.

Lemma cell_of_raises x_min y_min cs magnetic e :
  cell_of magnetics_columns x_min y_min cs magnetic = Raise e ->
  e = ValueError \/ e = OverflowError.
Proof.
  unfold cell_of.
  change (row_get magnetics_columns magnetic "x") with (Ok (nth 5 magnetic nan)).
  change (row_get magnetics_columns magnetic "y") with (Ok (nth 6 magnetic nan)).
  cbn [bind].
  destruct (int_ceil_floordiv _ (fst cs)) as [r|e1] eqn:E1;
    [|intros H; injection H as <-; eapply int_ceil_floordiv_raises; eauto].
  destruct (int_ceil_floordiv _ (snd cs)) as [c|e2] eqn:E2;
    [discriminate|intros H; injection H as <-; eapply int_ceil_floordiv_raises; eauto].
Qed.

Lemma index2_raises g r c e : index2 g r c = Raise e -> e = IndexError.
Proof.
  unfold index2.
  destruct (norm_index (fst (shape g)) r), (norm_index (snd (shape g)) c);
    try discriminate;
    intros H; injection H as <-; reflexivity.
Qed.

Lemma grid_loop_raises E x_min y_min cs : forall rs cnt w e w',
  grid_loop E magnetics_columns x_min y_min cs rs cnt w = Some (Raise e, w') ->
  e = ValueError \/ e = OverflowError \/ e = IndexError.
Proof.
  induction rs as [|[l magnetic] rs IH]; intros cnt w e w'; [discriminate|].
  rewrite grid_loop_cons.
  destruct (cell_of magnetics_columns x_min y_min cs magnetic) as [rowcol|e1] eqn:Hc.
  2:{ intros H. injection H as <- _. apply cell_of_raises in Hc. tauto. }
  destruct (index2 (the_grid (self w)) (fst rowcol) (snd rowcol)) as [rc|e1] eqn:Hi.
  2:{ intros H. injection H as <- _. apply index2_raises in Hi. tauto. }
  destruct (row_get_magnetics magnetic) as (-> & -> & ->). cbv zeta.
  destruct (index2 cnt (fst rowcol) (snd rowcol)) as [rc'|e1] eqn:Hi'.
  2:{ intros H. injection H as <- _. apply index2_raises in Hi'. tauto. }
  apply IH.
Qed.

End KeepFacts.

(** ** Time-ordered samples *)

Module SortedFacts.
Import DataFrame PosCalcFacts.

(** A predicate that holds of an element whenever it holds of the next one
    holds of a prefix of the list: the elements a filter keeps are the first
    ones. *)
Lemma closed_head {A : Type} (p : A -> bool) (l : list A) :
  (forall j a b, nth_error l j = Some a -> nth_error l (S j) = Some b ->
                 p b = true -> p a = true) ->
  forall j a b, nth_error l 0 = Some a -> nth_error l j = Some b ->
                p b = true -> p a = true.
Proof.
  intros Hclosed. induction j as [|j IH]; intros a b Ha Hb Hp.
  - congruence.
  - destruct (nth_error l j) as [c|] eqn:Hc.
    + apply (IH a c Ha eq_refl). eapply Hclosed; eauto.
    + apply nth_error_None in Hc.
      assert (S j < List.length l) by (apply nth_error_Some; congruence). lia.
Qed.

Lemma filter_prefix {A : Type} (p : A -> bool) (l : list A) :
  (forall j a b, nth_error l j = Some a -> nth_error l (S j) = Some b ->
                 p b = true -> p a = true) ->
  forall k, k < List.length (filter p l) ->
            exists a, nth_error l k = Some a /\ p a = true.
Proof.
  induction l as [|x l IH]; intros Hclosed k Hk; [simpl in Hk; lia|].
  assert (Hclosed' : forall j a b, nth_error l j = Some a ->
                       nth_error l (S j) = Some b -> p b = true -> p a = true)
    by (intros j a b Ha Hb; apply (Hclosed (S j) a b Ha Hb)).
  simpl in Hk. destruct (p x) eqn:Hx.
  - destruct k as [|k]; [exists x; auto|].
    simpl in Hk. apply (IH Hclosed' k). lia.
  - exfalso. destruct (filter p l) as [|y ys] eqn:Hf; [simpl in Hk; lia|].
    assert (Hin : In y (filter p l)) by (rewrite Hf; left; reflexivity).
    apply filter_In in Hin. destruct Hin as (Hin & Hy).
    apply In_nth_error in Hin. destruct Hin as (j & Hj).
    assert (p x = true)
      by (apply (closed_head p (x :: l) Hclosed (S j) x y eq_refl Hj Hy)).
    congruence.
Qed.

Lemma filter_combine_length {A : Type} (f : A -> list float) (p : A -> bool)
  (q : nat * list float -> bool) (l : list A) :
  (forall k a, q (k, f a) = p a) ->
  forall s, List.length (filter q (combine (seq s (List.length l)) (map f l)))
            = List.length (filter p l).
Proof.
  intros Hq. induction l as [|a l IH]; intros s; simpl; [reflexivity|].
  rewrite Hq. destruct (p a); simpl; now rewrite IH.
Qed.

(** The labels of a loaded MagneticTable whose records are in time order are
    [0 .. n-1]. *)
Lemma loaded_magnetics_contiguous (m : proto.Recording) :
  (forall j a b, nth_error (proto.magnetics m) j = Some a ->
                 nth_error (proto.magnetics m) (S j) = Some b ->
                 leb (proto.mag_t a) (proto.mag_t b) = true) ->
  forall k, k < len (loaded_magnetics m) ->
            find_row (rows (loaded_magnetics m)) k <> None.
Proof.
  intros Hasc k Hk. rewrite RunFacts.find_row_loaded_magnetics.
  unfold len, loaded_magnetics, enumerate in Hk. cbn [rows] in Hk.
  rewrite length_map in Hk.
  rewrite (filter_combine_length loaded_magnetic_row
             (fun a => leb (proto.mag_t a) (max_position_t m))) in Hk
    by reflexivity.
  apply filter_prefix in Hk.
  - destruct Hk as (a & -> & ->). discriminate.
  - intros j a b Ha Hb Hle. eapply Float64Facts.leb_trans; [|exact Hle]. eauto.
Qed.

(** With every label below the number of rows there, the loops find each row
    they look up. *)
Lemma while_returns ps i p0 p1 sx sy :
  nth_error ps i = Some p0 -> nth_error ps (i + 1) = Some p1 ->
  forall fuel row tj w e w',
    Inv ps w -> cursor w row tj ->
    (forall k, k < len (magnetics (self w)) ->
               find_row (rows (magnetics (self w))) k <> None) ->
    while_loop fuel i sx sy row tj w <> Some (Raise e, w').
Proof.
  intros H0 H1. induction fuel as [|f IH]; intros row tj w e w' HI Hcur Hall;
    rewrite (while_loop_eq ps i p0 p1) by (try apply HI; assumption);
    destruct (ltb tj (proto.pos_t p1)); try discriminate.
  cbv zeta. set (w1 := set_xy w row _ _).
  destruct Hcur as (cells & Hr & Htj).
  destruct (set_xy_spec ps w row
              ((tj - proto.pos_t p0) * sx + proto.pos_x p0)%float
              ((tj - proto.pos_t p0) * sy + proto.pos_y p0)%float cells HI Hr)
    as (HI1 & Hs1 & _).
  fold w1 in HI1, Hs1.
  pose proof (same_upto_len _ _ _ Hs1) as Hlen1.
  assert (Hall1 : forall k, k < len (magnetics (self w1)) ->
                            find_row (rows (magnetics (self w1))) k <> None).
  { intros k Hk Hnone. rewrite Hlen1 in Hk. apply (Hall k Hk).
    destruct Hs1 as (_ & Ht & _). specialize (Ht k). rewrite Hnone in Ht.
    destruct (find_row (rows (magnetics (self w))) k); [discriminate|reflexivity]. }
  destruct (Nat.leb_spec (len (magnetics (self w1))) (S row)) as [Hle | Hgt];
    [discriminate|].
  rewrite (loc_t_wf _ _ (proj2 HI1)).
  destruct (find_row (rows (magnetics (self w1))) (S row)) as [cells'|] eqn:Hr'.
  - apply IH; [exact HI1 | exists cells'; auto | exact Hall1].
  - exfalso. apply (Hall1 (S row) Hgt Hr').
Qed.

Lemma for_returns ps : forall m s row tj w e w',
  s + m < List.length ps ->
  Inv ps w -> cursor w row tj ->
  (forall k, k < len (magnetics (self w)) ->
             find_row (rows (magnetics (self w))) k <> None) ->
  for_loop (seq s m) row tj w <> Some (Raise e, w').
Proof.
  induction m as [|m IH]; intros s row tj w e w' Hs HI Hcur Hall; [discriminate|].
  destruct (nth_error ps s) as [p0|] eqn:H0; [|apply nth_error_None in H0; lia].
  destruct (nth_error ps (s + 1)) as [p1|] eqn:H1; [|apply nth_error_None in H1; lia].
  simpl seq. rewrite (for_loop_cons ps s p0 p1) by (try apply HI; assumption).
  destruct (while_frame ps s p0 p1 (speed_x p0 p1) (speed_y p0 p1) H0 H1
              (S (len (magnetics (self w)) - row)) row tj w HI Hcur ltac:(lia))
    as (res & w1 & Hrun & HI1 & Hs1 & Hnext).
  rewrite Hrun. destruct res as [[row' tj'|]|e0].
  - destruct (Hnext row' tj' eq_refl) as (_ & Hc' & _).
    apply IH; [lia | exact HI1 | exact Hc'|].
    intros k Hk Hnone. rewrite (same_upto_len _ _ _ Hs1) in Hk. apply (Hall k Hk).
    destruct Hs1 as (_ & Ht & _). specialize (Ht k). rewrite Hnone in Ht.
    destruct (find_row (rows (magnetics (self w))) k); [discriminate|reflexivity].
  - discriminate.
  - exfalso.
    exact (while_returns ps s p0 p1 _ _ H0 H1 _ _ _ _ e0 w1 HI Hcur Hall Hrun).
Qed.

Lemma magnetics_pos_calc_returns ps w :
  Inv ps w ->
  0 < len (magnetics (self w)) ->
  (forall k, k < len (magnetics (self w)) ->
             find_row (rows (magnetics (self w))) k <> None) ->
  exists w', magnetics_pos_calc w = Some (Ok tt, w').
Proof.
  intros HI Hlen Hall.
  destruct (magnetics_pos_calc_frame ps w HI) as (r & w' & Hrun & _).
  destruct r as [[]|e]; [eauto|]. exfalso. revert Hrun.
  rewrite (magnetics_pos_calc_eq ps w HI).
  destruct (find_row (rows (magnetics (self w))) 0) as [cells|] eqn:Hr.
  - destruct ps as [|p ps]; [discriminate|].
    apply (for_returns (p :: ps)); [simpl; lia | exact HI | exists cells; auto | exact Hall].
  - exfalso. apply (Hall 0 Hlen Hr).
Qed.

End SortedFacts.

(** * The claims of the specification *)

Import ClaimFacts.

(** C1. Interpolation boundary case: on a loaded recording whose ground-truth
    rows [i] and [i+1] are [(t0,x0,y0)] and [(t1,x1,y1)], the timestamps of the
    rows up to [i] being in ascending order, and whose first magnetic sample is
    taken at [tm] with [t0 <= tm < t1], [magnetics_pos_calc] ends and leaves
    that sample the position [x0 + (tm - t0) * ((x1 - x0) / (t1 - t0))], and
    the same in [y]: the velocity is computed first, then multiplied by the
    time offset.  ([t0 < t1] follows from [t0 <= tm < t1].) *)
Theorem interpolation_boundary_case
  (w : world) (i : nat) (t0 x0 y0 t1 x1 y1 tm : float) :
  loaded w ->
  position_at w i = Some (t0, x0, y0) ->
  position_at w (i + 1) = Some (t1, x1, y1) ->
  ascending (position_t w) i ->
  magnetic_t w 0 = Some tm ->
  leb t0 tm = true -> ltb tm t1 = true ->
  exists res w',
    magnetics_pos_calc w = Some (res, w') /\
    estimate w' 0
    = Some ((x0 + (tm - t0) * ((x1 - x0) / (t1 - t0)))%float,
            (y0 + (tm - t0) * ((y1 - y0) / (t1 - t0)))%float).
Proof.
  intros Hl H0 H1 Hasc Hm Hle Hlt.
  destruct (loaded_Inv w Hl) as (ps & HI).
  destruct (cell_positions ps w i _ _ _ HI H0) as (p0 & Hp0 & <- & <- & <-).
  destruct (cell_positions ps w (i + 1) _ _ _ HI H1) as (p1 & Hp1 & <- & <- & <-).
  pose proof (magnetic_t_cursor ps w 0 tm HI Hm) as Hcur.
  destruct (sample_estimate ps w i p0 p1 0 tm HI Hp0 Hp1) as (res & w' & Hrun & Hest).
  - intros k Hk. assert (k = 0) by lia. subst k. exists tm. auto.
  - exact Hcur.
  - intros k p Hk Hp. apply Float64Facts.leb_not_ltb.
    destruct (Nat.eq_dec (k + 1) i) as [E | Hne].
    + rewrite E in Hp. assert (p = p0) by congruence. subst p. exact Hle.
    + eapply Float64Facts.leb_trans; [|exact Hle].
      apply (ascending_le _ _ Hasc (k + 1) i); [lia| |].
      * unfold position_t, cell. rewrite (proj1 HI).
        now rewrite (PosCalcFacts.loc_positions_t _ _ _ Hp).
      * unfold position_t, cell. rewrite (proj1 HI).
        now rewrite (PosCalcFacts.loc_positions_t _ _ _ Hp0).
  - exists res, w'. split; [exact Hrun|]. rewrite Hest.
    unfold interp_x, interp_y. now rewrite !(Float64Facts.add_comm (_ * _)).
Qed.

(** C2. Interval assignment edge case: on a loaded recording with the
    ground-truth rows [i+1] and [i+2], hence at least three of them, the
    timestamps of both tables being in ascending order up to the rows at hand
    and [t(i+1) < t(i+2)], a magnetic sample [r] whose timestamp equals
    [t(i+1)] is given its position from the pair [(i+1, i+2)]: the loop for
    the pair [(i, i+1)] stops at it, its condition being a strict [<]. *)
Theorem interval_assignment_edge_case
  (w : world) (i r : nat) (t1 x1 y1 t2 x2 y2 tm : float) :
  loaded w ->
  position_at w (i + 1) = Some (t1, x1, y1) ->
  position_at w (i + 2) = Some (t2, x2, y2) ->
  ascending (position_t w) (i + 1) ->
  ltb t1 t2 = true ->
  magnetic_t w r = Some tm ->
  ascending (magnetic_t w) r ->
  eqb tm t1 = true ->
  exists res w',
    magnetics_pos_calc w = Some (res, w') /\
    estimate w' r
    = Some (((tm - t1) * ((x2 - x1) / (t2 - t1)) + x1)%float,
            ((tm - t1) * ((y2 - y1) / (t2 - t1)) + y1)%float).
Proof.
  intros Hl H1 H2 Hasc Hlt Hm Hmasc Heq.
  destruct (loaded_Inv w Hl) as (ps & HI).
  destruct (cell_positions ps w (i + 1) _ _ _ HI H1) as (p1 & Hp1 & <- & <- & <-).
  destruct (cell_positions ps w (i + 2) _ _ _ HI H2) as (p2 & Hp2 & <- & <- & <-).
  replace (i + 2) with (i + 1 + 1) in Hp2 by lia.
  destruct (Float64Facts.eqb_leb _ _ Heq) as (Hle1 & Hle2).
  pose proof (magnetic_t_cursor ps w r tm HI Hm) as Hcur.
  destruct (sample_estimate ps w (i + 1) p1 p2 r tm HI Hp1 Hp2) as (res & w' & Hrun & Hest).
  - intros k Hk.
    destruct (ascending_present ps w r tm HI Hmasc Hm k Hk) as (tk & Hck & Hletk).
    exists tk. split; [exact Hck|].
    destruct (Nat.eq_dec k r) as [-> | Hne].
    + rewrite (PosCalcFacts.cursor_fun _ _ _ _ Hck Hcur).
      eapply Float64Facts.leb_ltb_trans; eauto.
    + eapply Float64Facts.leb_ltb_trans; [|exact Hlt].
      eapply Float64Facts.leb_trans; [|exact Hle1]. apply Hletk. lia.
  - exact Hcur.
  - intros k p Hk Hp. apply Float64Facts.leb_not_ltb.
    destruct (Nat.eq_dec (k + 1) (i + 1)) as [E | Hne].
    + rewrite E in Hp. assert (p = p1) by congruence. subst p. exact Hle2.
    + eapply Float64Facts.leb_trans; [|exact Hle2].
      apply (ascending_le _ _ Hasc (k + 1) (i + 1)); [lia| |].
      * unfold position_t, cell. rewrite (proj1 HI).
        now rewrite (PosCalcFacts.loc_positions_t _ _ _ Hp).
      * unfold position_t, cell. rewrite (proj1 HI).
        now rewrite (PosCalcFacts.loc_positions_t _ _ _ Hp1).
  - exists res, w'. split; [exact Hrun|]. rewrite Hest. reflexivity.
Qed.

(** C3. No lower bound: on a loaded recording whose first magnetic sample is
    taken at [tm], strictly before the first and the second ground-truth
    timestamps, [magnetics_pos_calc] ends and leaves that sample the position
    [(tm - t0) * speed + x0] extrapolated with the velocity of the first pair:
    the sample is not skipped. *)
Theorem early_sample_extrapolated
  (w : world) (t0 x0 y0 t1 x1 y1 tm : float) :
  loaded w ->
  position_at w 0 = Some (t0, x0, y0) ->
  position_at w 1 = Some (t1, x1, y1) ->
  magnetic_t w 0 = Some tm ->
  ltb tm t0 = true -> ltb tm t1 = true ->
  exists res w',
    magnetics_pos_calc w = Some (res, w') /\
    estimate w' 0
    = Some (((tm - t0) * ((x1 - x0) / (t1 - t0)) + x0)%float,
            ((tm - t0) * ((y1 - y0) / (t1 - t0)) + y0)%float).
Proof.
  intros Hl H0 H1 Hm Hlt0 Hlt1.
  destruct (loaded_Inv w Hl) as (ps & HI).
  destruct (cell_positions ps w 0 _ _ _ HI H0) as (p0 & Hp0 & <- & <- & <-).
  destruct (cell_positions ps w 1 _ _ _ HI H1) as (p1 & Hp1 & <- & <- & <-).
  pose proof (magnetic_t_cursor ps w 0 tm HI Hm) as Hcur.
  destruct (sample_estimate ps w 0 p0 p1 0 tm HI Hp0 Hp1) as (res & w' & Hrun & Hest).
  - intros k Hk. assert (k = 0) by lia. subst k. exists tm. auto.
  - exact Hcur.
  - intros k p Hk. lia.
  - exists res, w'. split; [exact Hrun|]. rewrite Hest. reflexivity.
Qed.

(** C4 (as amended). Column contract: a run of [read_recording] that returns
    tables returns, and stores, a PositionTable with the columns
    [t, x, y, floor, type, accuracy] and one row per position record of the
    deserialized message, in source order, and a MagneticTable with the columns
    [t, mx, my, mz, accuracy, x, y] and one row, in source order and under its
    source index, per magnetic record whose [t] is at most the largest
    ground-truth [t], with [x] and [y] set to [0.0]. *)
Theorem load_column_contract
  (E : env) (w : world) (P M : DataFrame.t) (w' : world) :
  read_recording E w = Some (Ok (P, M), w') ->
  exists measurements,
    deserialized E w measurements /\
    DataFrame.columns P = ["t"; "x"; "y"; "floor"; "type"; "accuracy"]%string /\
    DataFrame.columns M = ["t"; "mx"; "my"; "mz"; "accuracy"; "x"; "y"]%string /\
    DataFrame.rows P = enumerate (map position_row (proto.positions measurements)) /\
    DataFrame.rows M
    = filter (fun r => leb (row_t r) (max_position_t measurements))
        (enumerate
           (map (fun m => [proto.mag_t m; proto.mag_x m; proto.mag_y m;
                           proto.mag_z m; proto.mag_accuracy m; 0%float; 0%float])
                (proto.magnetics measurements))) /\
    positions (self w') = P /\ magnetics (self w') = M.
Proof.
  intros Hrun. apply LoadFacts.read_recording_ok in Hrun.
  destruct Hrun as (m & Hd & Hpm & Hp & Hm & _). injection Hpm as -> ->.
  exists m. repeat split; auto.
Qed.

Lemma load_column_contract_witness :
  exists measurements,
    deserialized Example.E (Example.at_path "walk.pb") measurements /\
    DataFrame.columns (loaded_positions Example.walk)
    = ["t"; "x"; "y"; "floor"; "type"; "accuracy"]%string /\
    DataFrame.columns (loaded_magnetics Example.walk)
    = ["t"; "mx"; "my"; "mz"; "accuracy"; "x"; "y"]%string /\
    DataFrame.rows (loaded_positions Example.walk)
    = enumerate (map position_row (proto.positions measurements)) /\
    DataFrame.rows (loaded_magnetics Example.walk)
    = filter (fun r => leb (row_t r) (max_position_t measurements))
        (enumerate
           (map (fun m => [proto.mag_t m; proto.mag_x m; proto.mag_y m;
                           proto.mag_z m; proto.mag_accuracy m; 0%float; 0%float])
                (proto.magnetics measurements))) /\
    positions (self (Example.read "walk.pb")) = loaded_positions Example.walk /\
    magnetics (self (Example.read "walk.pb")) = loaded_magnetics Example.walk.
Proof.
  apply (load_column_contract Example.E (Example.at_path "walk.pb")).
  vm_compute. reflexivity.
Defined.

(** C4, the claim as worded fails: the message of [late.pb] holds one
    magnetic record, taken after the only ground-truth point, and the
    MagneticTable [read_recording] returns has no row. *)
Lemma load_rows_counterexample :
  exists P M w',
    read_recording Example.E (Example.at_path "late.pb") = Some (Ok (P, M), w') /\
    deserialized Example.E (Example.at_path "late.pb") Example.late /\
    List.length (proto.magnetics Example.late) = 1 /\
    DataFrame.rows M = [].
Proof.
  eexists _, _, _. split; [vm_compute; reflexivity|].
  split; [|split; reflexivity].
  exists [Byte.x02]. split; reflexivity.
Qed.

(** C5. Magnetics trimming: after a run of [read_recording] that returns
    tables, every row of the MagneticTable has [t <= max(PositionTable.t)], and
    no magnetic record of the message with a later timestamp has a row. *)
Theorem magnetics_trimming
  (E : env) (w : world) (P M : DataFrame.t) (w' : world) :
  read_recording E w = Some (Ok (P, M), w') ->
  exists ts measurements,
    DataFrame.getitem P "t" = Ok ts /\
    magnetics (self w') = M /\
    (forall r, In r (DataFrame.rows M) -> leb (row_t r) (Float64.nanmax ts) = true) /\
    deserialized E w measurements /\
    (forall j m, nth_error (proto.magnetics measurements) j = Some m ->
                 ltb (Float64.nanmax ts) (proto.mag_t m) = true ->
                 DataFrame.find_row (DataFrame.rows M) j = None).
Proof.
  intros Hrun. apply LoadFacts.read_recording_ok in Hrun.
  destruct Hrun as (m & Hd & Hpm & Hp & Hm & _). injection Hpm as -> ->.
  exists (map proto.pos_t (proto.positions m)), m.
  split; [apply RunFacts.getitem_positions_t|]. split; [exact Hm|].
  split; [|split; [exact Hd|]].
  - intros r Hr. simpl in Hr. apply filter_In in Hr. apply Hr.
  - intros j mg Hj Hlt. rewrite RunFacts.find_row_loaded_magnetics, Hj.
    destruct (leb (proto.mag_t mg) (max_position_t m)) eqn:Hle; [|reflexivity].
    apply Float64Facts.leb_not_ltb in Hle. unfold max_position_t in Hle. congruence.
Qed.

Lemma magnetics_trimming_witness :
  exists ts measurements,
    DataFrame.getitem (loaded_positions Example.walk) "t" = Ok ts /\
    magnetics (self (Example.read "walk.pb")) = loaded_magnetics Example.walk /\
    (forall r, In r (DataFrame.rows (loaded_magnetics Example.walk)) ->
               leb (row_t r) (Float64.nanmax ts) = true) /\
    deserialized Example.E (Example.at_path "walk.pb") measurements /\
    (forall j m, nth_error (proto.magnetics measurements) j = Some m ->
                 ltb (Float64.nanmax ts) (proto.mag_t m) = true ->
                 DataFrame.find_row (DataFrame.rows (loaded_magnetics Example.walk)) j
                 = None).
Proof.
  apply (magnetics_trimming Example.E (Example.at_path "walk.pb")).
  vm_compute. reflexivity.
Defined.

(** C10. Idempotence of the load: under one environment, hence an unchanged
    file, a run of [read_recording] that returned the tables [pm] returns the
    same tables when it is run again on any later state of the object, and
    stores them in place of the tables held before, whatever those were. *)
Theorem load_idempotent
  (E : env) (w w1 v : world) (pm : DataFrame.t * DataFrame.t) :
  read_recording E w = Some (Ok pm, w1) ->
  pb_file (self v) = pb_file (self w) ->
  exists v',
    read_recording E v = Some (Ok pm, v') /\
    positions (self v') = fst pm /\ magnetics (self v') = snd pm.
Proof.
  intros Hrun Hpath. rewrite LoadFacts.read_recording_eq in Hrun |- *.
  rewrite Hpath.
  destruct (fs E (pb_file (self w))) as [[content|]|]; try discriminate.
  destruct (FromString E content) as [m|]; try discriminate.
  injection Hrun as <- _. eexists. split; [reflexivity|]. split; reflexivity.
Qed.

Lemma load_idempotent_witness :
  exists v',
    read_recording Example.E (Example.new "walk.pb")
    = Some (Ok (loaded_positions Example.walk, loaded_magnetics Example.walk), v') /\
    positions (self v') = loaded_positions Example.walk /\
    magnetics (self v') = loaded_magnetics Example.walk.
Proof.
  apply (load_idempotent Example.E (Example.at_path "walk.pb")
           (Example.read "walk.pb") (Example.new "walk.pb")).
  - vm_compute. reflexivity.
  - reflexivity.
Defined.

(** C8. NotFound on a missing file: when the path is not an existing regular
    file, constructing the object raises [FileNotFoundError] with a message
    that holds the path; the only file-system call made is the [isfile] test,
    so nothing has been read, deserialized or interpolated, and no attribute
    has been set.  When the path is an existing regular file, the construction
    ends, and not in a [FileNotFoundError]. *)
Theorem not_found_on_missing_file (E : env) (path : string) :
  if isfile E path then
    exists r w,
      IPSRecording_new E path = Some (r, w) /\
      forall msg, r <> Raise (FileNotFoundError msg)
  else
    IPSRecording_new E path
    = Some (Raise (FileNotFoundError
                     ("The specified path " ++ path ++ " isn't a proper file!")),
            {| self := self fresh; io := [IsFile path] |}).
Proof.
  rewrite RunFacts.init_eq. cbv zeta.
  destruct (isfile E path) eqn:Hf; [|reflexivity].
  match goal with
  | |- context [read_recording E ?w1] =>
      destruct (LoadFacts.read_recording_total E w1) as (r & w2 & Hread);
      pose proof Hread as Heq; rewrite LoadFacts.read_recording_eq in Heq;
      rewrite Hread
  end.
  cbn [self pb_file] in Heq. unfold isfile in Hf.
  destruct (fs E path) as [[content|]|]; try discriminate.
  destruct (FromString E content) as [m|].
  - injection Heq as <- <-.
    match goal with
    | |- context [magnetics_pos_calc ?w2] =>
        assert (HI : Inv (proto.positions m) w2)
          by (apply LoadFacts.Inv_load; reflexivity);
        destruct (PosCalcFacts.magnetics_pos_calc_frame _ _ HI)
          as (res & w3 & Hcalc & _);
        rewrite Hcalc
    end.
    destruct res as [[]|e].
    + eexists _, _. split; [reflexivity | discriminate].
    + apply (RunFacts.magnetics_pos_calc_raises _ _ _ _ HI) in Hcalc. subst e.
      eexists _, _. split; [reflexivity | discriminate].
  - injection Heq as <- <-.
    eexists _, _. split; [reflexivity | discriminate].
Qed.

(** C6. Grid shape: on a loaded recording, the grid a call of [set_rect_grid]
    returns has the shape [(len(x_axis) + 1, len(y_axis) + 1)], the axes being
    the ranges from [floor(min)] to [ceil(max)] of the PositionTable's [x] and
    [y] columns stepped by the cell sizes; the MagneticTable plays no part in
    it.  For the cell size [[1, 1]] this is
    [(ceil(max x) - floor(min x) + 1, ceil(max y) - floor(min y) + 1)]. *)
Theorem grid_shape (E : env) (w : world) (cs : Z * Z) (g : ndarray) (w' : world) :
  loaded w ->
  set_rect_grid E cs w = Some (Ok g, w') ->
  exists xs ys x_lo x_hi y_lo y_hi x_axis y_axis,
    DataFrame.getitem (positions (self w)) "x" = Ok xs /\
    DataFrame.getitem (positions (self w)) "y" = Ok ys /\
    int_floor (Float64.nanmin xs) = Ok x_lo /\
    int_ceil (Float64.nanmax xs) = Ok x_hi /\
    int_floor (Float64.nanmin ys) = Ok y_lo /\
    int_ceil (Float64.nanmax ys) = Ok y_hi /\
    range x_lo x_hi (fst cs) = Ok x_axis /\
    range y_lo y_hi (snd cs) = Ok y_axis /\
    shape g = (List.length x_axis + 1, List.length y_axis + 1) /\
    (cs = (1, 1)%Z ->
     Z.of_nat (fst (shape g)) = (x_hi - x_lo + 1)%Z /\
     Z.of_nat (snd (shape g)) = (y_hi - y_lo + 1)%Z).
Proof.
  intros Hl Hrun. destruct (ClaimFacts.loaded_Inv w Hl) as (ps & HI).
  destruct (GridRunFacts.set_rect_grid_spec E ps cs w g w' HI Hrun)
    as (x_lo & x_hi & y_lo & y_hi & x_axis & y_axis
        & Hxlo & Hxhi & Hylo & Hyhi & Hxa & Hya & Hshape & _).
  exists (map proto.pos_x ps), (map proto.pos_y ps),
    x_lo, x_hi, y_lo, y_hi, x_axis, y_axis.
  rewrite (proj1 HI).
  split; [apply GridRunFacts.getitem_positions_x|].
  split; [apply GridRunFacts.getitem_positions_y|].
  repeat (split; [assumption|]).
  intros ->. rewrite Hshape. cbn [fst snd] in *.
  rewrite (GridFacts.range_length _ _ _ _ Hxa), (GridFacts.range_length _ _ _ _ Hya).
  rewrite !Nat2Z.inj_add.
  rewrite (GridFacts.range_len_one _ _ (GridFacts.extent_ordered _ _ _ Hxlo Hxhi)).
  rewrite (GridFacts.range_len_one _ _ (GridFacts.extent_ordered _ _ _ Hylo Hyhi)).
  split; reflexivity.
Qed.



(** ** The claims on the example recordings *)

Lemma interpolation_boundary_case_witness :
  exists res w',
    magnetics_pos_calc (Example.read "walk.pb") = Some (res, w') /\
    estimate w' 0
    = Some ((0 + (0.5 - 0) * ((4 - 0) / (2 - 0)))%float,
            (0 + (0.5 - 0) * ((2 - 0) / (2 - 0)))%float).
Proof.
  apply (interpolation_boundary_case (Example.read "walk.pb") 0
           0%float 0%float 0%float 2%float 4%float 2%float 0.5%float).
  - apply (loaded_read Example.E (Example.at_path "walk.pb")
             (loaded_positions Example.walk, loaded_magnetics Example.walk)).
    vm_compute. reflexivity.
  - vm_compute. reflexivity.
  - vm_compute. reflexivity.
  - intros k Hk. lia.
  - vm_compute. reflexivity.
  - vm_compute. reflexivity.
  - vm_compute. reflexivity.
Defined.

Lemma interval_assignment_edge_case_witness :
  exists res w',
    magnetics_pos_calc (Example.read "walk.pb") = Some (res, w') /\
    estimate w' 1
    = Some (((2 - 2) * ((4 - 4) / (4 - 2)) + 4)%float,
            ((2 - 2) * ((6 - 2) / (4 - 2)) + 2)%float).
Proof.
  apply (interval_assignment_edge_case (Example.read "walk.pb") 0 1
           2%float 4%float 2%float 4%float 4%float 6%float 2%float).
  - apply (loaded_read Example.E (Example.at_path "walk.pb")
             (loaded_positions Example.walk, loaded_magnetics Example.walk)).
    vm_compute. reflexivity.
  - vm_compute. reflexivity.
  - vm_compute. reflexivity.
  - intros k Hk. assert (k = 0) as -> by lia.
    exists 0%float, 2%float. repeat split; vm_compute; reflexivity.
  - vm_compute. reflexivity.
  - vm_compute. reflexivity.
  - intros k Hk. assert (k = 0) as -> by lia.
    exists 0.5%float, 2%float. repeat split; vm_compute; reflexivity.
  - vm_compute. reflexivity.
Defined.

Lemma early_sample_extrapolated_witness :
  exists res w',
    magnetics_pos_calc (Example.read "early.pb") = Some (res, w') /\
    estimate w' 0
    = Some (((0.5 - 1) * ((4 - 0) / (3 - 1)) + 0)%float,
            ((0.5 - 1) * ((2 - 0) / (3 - 1)) + 0)%float).
Proof.
  apply (early_sample_extrapolated (Example.read "early.pb")
           1%float 0%float 0%float 3%float 4%float 2%float 0.5%float).
  - apply (loaded_read Example.E (Example.at_path "early.pb")
             (loaded_positions Example.early, loaded_magnetics Example.early)).
    vm_compute. reflexivity.
  - vm_compute. reflexivity.
  - vm_compute. reflexivity.
  - vm_compute. reflexivity.
  - vm_compute. reflexivity.
  - vm_compute. reflexivity.
Defined.

Lemma grid_shape_witness :
  exists xs ys x_lo x_hi y_lo y_hi x_axis y_axis,
    DataFrame.getitem (positions (self (Example.new "walk.pb"))) "x" = Ok xs /\
    DataFrame.getitem (positions (self (Example.new "walk.pb"))) "y" = Ok ys /\
    int_floor (Float64.nanmin xs) = Ok x_lo /\
    int_ceil (Float64.nanmax xs) = Ok x_hi /\
    int_floor (Float64.nanmin ys) = Ok y_lo /\
    int_ceil (Float64.nanmax ys) = Ok y_hi /\
    range x_lo x_hi (fst (1, 1)%Z) = Ok x_axis /\
    range y_lo y_hi (snd (1, 1)%Z) = Ok y_axis /\
    shape (Example.grid "walk.pb" (1, 1)%Z)
    = (List.length x_axis + 1, List.length y_axis + 1) /\
    ((1, 1)%Z = (1, 1)%Z ->
     Z.of_nat (fst (shape (Example.grid "walk.pb" (1, 1)%Z))) = (x_hi - x_lo + 1)%Z /\
     Z.of_nat (snd (shape (Example.grid "walk.pb" (1, 1)%Z))) = (y_hi - y_lo + 1)%Z).
Proof.
  apply (grid_shape Example.E (Example.new "walk.pb") (1, 1)%Z
           (Example.grid "walk.pb" (1, 1)%Z) (Example.gridded "walk.pb" (1, 1)%Z)).
  - apply (RunFacts.loaded_new Example.E "walk.pb"). vm_compute. reflexivity.
  - vm_compute. reflexivity.
Defined.




(** * Further properties of the code *)

(** ** [magnetics_pos_calc] *)

(** X1. On a loaded recording [magnetics_pos_calc] ends: it returns [None], or
    raises the [KeyError] of a label missing from the MagneticTable, and
    nothing else. *)
Theorem magnetics_pos_calc_ends (w : world) :
  loaded w ->
  exists r w',
    magnetics_pos_calc w = Some (r, w') /\ (r = Ok tt \/ r = Raise KeyError).
Proof.
  intros Hl. destruct (ClaimFacts.loaded_Inv w Hl) as (ps & HI).
  destruct (PosCalcFacts.magnetics_pos_calc_frame ps w HI) as (r & w' & Hrun & _).
  exists r, w'. split; [exact Hrun|].
  destruct r as [[]|e]; [left; reflexivity|].
  right. f_equal. eapply RunFacts.magnetics_pos_calc_raises; eauto.
Qed.

Lemma magnetics_pos_calc_ends_witness :
  exists r w',
    magnetics_pos_calc (Example.read "walk.pb") = Some (r, w') /\
    (r = Ok tt \/ r = Raise KeyError).
Proof.
  apply (magnetics_pos_calc_ends (Example.read "walk.pb")).
  apply (loaded_read Example.E (Example.at_path "walk.pb")
           (loaded_positions Example.walk, loaded_magnetics Example.walk)).
  vm_compute. reflexivity.
Defined.

(** X2. [magnetics_pos_calc] writes the [x] and [y] cells of the
    MagneticTable only: whatever it ends in, the path, the PositionTable, the
    grid, the cell size and the file-system trace are as before, and the
    MagneticTable has the same columns, the same labels in the same order and
    the same [t], [mx], [my], [mz] and [accuracy] in every row. *)
Theorem magnetics_pos_calc_writes_estimates_only (w : world) (r : result unit) (w' : world) :
  loaded w ->
  magnetics_pos_calc w = Some (r, w') ->
  same_but_magnetics w w' /\
  same_measurements (magnetics (self w)) (magnetics (self w')).
Proof.
  intros Hl Hrun. destruct (ClaimFacts.loaded_Inv w Hl) as (ps & HI). split.
  - eapply FrameFacts.magnetics_pos_calc_others; eauto.
  - eapply FrameFacts.magnetics_pos_calc_measurements; eauto.
Qed.

Lemma magnetics_pos_calc_writes_estimates_only_witness :
  same_but_magnetics (Example.read "walk.pb") (Runs.calc (Example.read "walk.pb")) /\
  same_measurements (magnetics (self (Example.read "walk.pb")))
                    (magnetics (self (Runs.calc (Example.read "walk.pb")))).
Proof.
  apply (magnetics_pos_calc_writes_estimates_only (Example.read "walk.pb") (Ok tt)).
  - apply (loaded_read Example.E (Example.at_path "walk.pb")
             (loaded_positions Example.walk, loaded_magnetics Example.walk)).
    vm_compute. reflexivity.
  - vm_compute. reflexivity.
Defined.

(** X3. When the MagneticTable has no row labelled [0], [magnetics_pos_calc]
    raises [KeyError] at its first statement and changes nothing. *)
Theorem first_row_missing_KeyError (w : world) :
  loaded w ->
  DataFrame.find_row (DataFrame.rows (magnetics (self w))) 0 = None ->
  magnetics_pos_calc w = Some (Raise KeyError, w).
Proof.
  intros Hl Hnone. destruct (ClaimFacts.loaded_Inv w Hl) as (ps & HI).
  rewrite (PosCalcFacts.magnetics_pos_calc_eq ps w HI), Hnone. reflexivity.
Qed.

Lemma first_row_missing_KeyError_witness :
  magnetics_pos_calc (Example.read "late.pb")
  = Some (Raise KeyError, Example.read "late.pb").
Proof.
  apply (first_row_missing_KeyError (Example.read "late.pb")).
  - apply (loaded_read Example.E (Example.at_path "late.pb")
             (loaded_positions Example.late, loaded_magnetics Example.late)).
    vm_compute. reflexivity.
  - vm_compute. reflexivity.
Defined.

(** X4. Constructing an object from a message that has no magnetic record,
    or whose first magnetic record is not at or before the latest ground-truth
    timestamp (as when it has no ground-truth record), raises [KeyError]: the
    file has been read and both tables built, and the interpolation fails on
    the missing row [0]. *)
Theorem construction_KeyError
  (E : env) (path : string) (content : list Byte.byte) (m : proto.Recording) :
  fs E path = Some (RegularFile content) ->
  FromString E content = Some m ->
  (forall mg, nth_error (proto.magnetics m) 0 = Some mg ->
              leb (proto.mag_t mg) (max_position_t m) = false) ->
  IPSRecording_new E path
  = Some (Raise KeyError,
          {| self := {| pb_file := path;
                        positions := loaded_positions m;
                        magnetics := loaded_magnetics m;
                        rect_grid := None; cell_size := None |};
             io := [IsFile path; OpenRead path] |}).
Proof.
  intros Hfs Hm Hfirst. rewrite RunFacts.init_eq. cbv zeta.
  unfold isfile. rewrite Hfs.
  rewrite LoadFacts.read_recording_eq. cbn [self pb_file io]. rewrite Hfs, Hm.
  cbn [app fresh self positions magnetics set_positions set_magnetics
       rect_grid cell_size pb_file].
  match goal with
  | |- context [magnetics_pos_calc ?w2] =>
      assert (HI : Inv (proto.positions m) w2)
        by (apply LoadFacts.Inv_load; reflexivity);
      rewrite (PosCalcFacts.magnetics_pos_calc_eq _ w2 HI)
  end.
  unfold set_magnetics, set_positions.
  cbn [self magnetics positions pb_file rect_grid cell_size].
  rewrite RunFacts.find_row_loaded_magnetics.
  destruct (nth_error (proto.magnetics m) 0) as [mg|] eqn:H0; [|reflexivity].
  rewrite (Hfirst mg eq_refl). reflexivity.
Qed.

Lemma construction_KeyError_witness :
  IPSRecording_new Example.E "late.pb"
  = Some (Raise KeyError,
          {| self := {| pb_file := "late.pb";
                        positions := loaded_positions Example.late;
                        magnetics := loaded_magnetics Example.late;
                        rect_grid := None; cell_size := None |};
             io := [IsFile "late.pb"; OpenRead "late.pb"] |}).
Proof.
  apply (construction_KeyError Example.E "late.pb" [Byte.x02] Example.late).
  - reflexivity.
  - reflexivity.
  - intros mg H. injection H as <-. vm_compute. reflexivity.
Defined.

(** X5. With at most one ground-truth row there is no interval to interpolate
    in: [magnetics_pos_calc] returns at once and leaves every estimate as it
    was, provided the MagneticTable has its row [0]. *)
Theorem single_ground_truth_row (w : world) :
  loaded w ->
  DataFrame.len (positions (self w)) <= 1 ->
  DataFrame.find_row (DataFrame.rows (magnetics (self w))) 0 <> None ->
  magnetics_pos_calc w = Some (Ok tt, w).
Proof.
  intros Hl Hlen Hrow. destruct (ClaimFacts.loaded_Inv w Hl) as (ps & HI).
  rewrite (PosCalcFacts.magnetics_pos_calc_eq ps w HI).
  destruct (DataFrame.find_row (DataFrame.rows (magnetics (self w))) 0);
    [|congruence].
  rewrite (proj1 HI) in Hlen. unfold DataFrame.len, positions_of, enumerate in Hlen.
  cbn [DataFrame.rows] in Hlen.
  rewrite length_combine, length_seq, length_map, Nat.min_id in Hlen.
  replace (List.length ps - 1) with 0 by lia. reflexivity.
Qed.

Lemma single_ground_truth_row_witness :
  magnetics_pos_calc (Runs.read "lone.pb") = Some (Ok tt, Runs.read "lone.pb").
Proof.
  apply (single_ground_truth_row (Runs.read "lone.pb")).
  - apply (loaded_read Runs.E (Example.at_path "lone.pb")
             (loaded_positions Runs.lone, loaded_magnetics Runs.lone)).
    vm_compute. reflexivity.
  - vm_compute. lia.
  - vm_compute. discriminate.
Defined.

(** X6. A magnetic row whose timestamp is earlier than no ground-truth
    timestamp from the second one on is never written: a sample taken at or
    after the last ground-truth timestamp survives the trimming when it is
    taken exactly then, and keeps the position it had, [(0.0, 0.0)] after a
    load. *)
Theorem late_rows_untouched
  (w : world) (r : result unit) (w' : world) (label : nat) (cells : list float) :
  loaded w ->
  magnetics_pos_calc w = Some (r, w') ->
  DataFrame.find_row (DataFrame.rows (magnetics (self w))) label = Some cells ->
  (forall k t, 1 <= k -> position_t w k = Some t -> ltb (nth 0 cells nan) t = false) ->
  DataFrame.find_row (DataFrame.rows (magnetics (self w'))) label = Some cells.
Proof.
  intros Hl Hrun Hrow Hlate. destruct (ClaimFacts.loaded_Inv w Hl) as (ps & HI).
  apply (KeepFacts.magnetics_pos_calc_keeps ps w r w' label cells HI); auto.
  intros k p Hk Hp. apply (Hlate k); [exact Hk|].
  unfold position_t, cell. rewrite (proj1 HI).
  now rewrite (PosCalcFacts.loc_positions_t _ _ _ Hp).
Qed.

Lemma late_rows_untouched_witness :
  DataFrame.find_row
    (DataFrame.rows (magnetics (self (Runs.calc (Runs.read "ending.pb"))))) 1
  = Some [2; 1; 0; 0; 1; 0; 0]%float.
Proof.
  apply (late_rows_untouched (Runs.read "ending.pb") (Ok tt)).
  - apply (loaded_read Runs.E (Example.at_path "ending.pb")
             (loaded_positions Runs.ending, loaded_magnetics Runs.ending)).
    vm_compute. reflexivity.
  - vm_compute. reflexivity.
  - vm_compute. reflexivity.
  - intros k t Hk. destruct k as [|[|k]]; [lia| |].
    + vm_compute. intros H. injection H as <-. reflexivity.
    + vm_compute. discriminate.
Defined.

(** ** [set_rect_grid] *)

(** X7. A call of [set_rect_grid] ends on every object, in a grid or in an
    exception; either way the path, both tables and the file-system trace are
    as before, and [cell_size] holds the argument, which is stored before
    anything is checked. *)
Theorem set_rect_grid_ends (E : env) (w : world) (cs : Z * Z) :
  exists r w',
    set_rect_grid E cs w = Some (r, w') /\
    same_but_grid w w' /\
    cell_size (self w') = Some cs.
Proof.
  unfold set_rect_grid.
  cbv beta iota zeta delta [mbind lift gets modify ret].
  cbn [self io positions magnetics set_cell_size set_rect_grid_attr].
  destruct (DataFrame.getitem (positions (self w)) "x") as [xs|e];
    [|eexists _, _; repeat split].
  destruct (int_floor (Float64.nanmin xs)) as [x_lo|e]; [|eexists _, _; repeat split].
  destruct (int_ceil (Float64.nanmax xs)) as [x_hi|e]; [|eexists _, _; repeat split].
  destruct (range x_lo x_hi (fst cs)) as [x_axis|e]; [|eexists _, _; repeat split].
  destruct (DataFrame.getitem (positions (self w)) "y") as [ys|e];
    [|eexists _, _; repeat split].
  destruct (int_floor (Float64.nanmin ys)) as [y_lo|e]; [|eexists _, _; repeat split].
  destruct (int_ceil (Float64.nanmax ys)) as [y_hi|e]; [|eexists _, _; repeat split].
  destruct (range y_lo y_hi (snd cs)) as [y_axis|e]; [|eexists _, _; repeat split].
  match goal with
  | |- context [grid_loop ?E0 ?c ?a ?b ?d ?rs ?z ?w0] =>
      destruct (GridFacts.grid_loop_frame E0 c a b d rs z w0) as (r & w1 & Hrun & _);
      destruct (KeepFacts.grid_loop_others E0 c a b d rs z w0 r w1 Hrun)
        as ((B1 & B2 & B3 & B4) & B5);
      rewrite Hrun
  end.
  cbn [self io pb_file positions magnetics cell_size] in B1, B2, B3, B4, B5.
  destruct r as [cnt|e]; eexists _, _; (split; [reflexivity|]);
    repeat split; assumption.
Qed.

(** X8. With no ground-truth row there are no extents: on a loaded recording
    whose PositionTable is empty, [set_rect_grid] raises [ValueError] (the
    minimum of an empty column is NaN, which [int] rejects), having stored the
    cell size and nothing else. *)
Theorem no_ground_truth_ValueError (E : env) (w : world) (cs : Z * Z) :
  loaded w ->
  DataFrame.rows (positions (self w)) = [] ->
  set_rect_grid E cs w = Some (Raise ValueError, with_cell_size cs w).
Proof.
  intros Hl Hrows. destruct (ClaimFacts.loaded_Inv w Hl) as (ps & Hpos & _).
  rewrite Hpos in Hrows. destruct ps as [|p ps]; [|discriminate].
  unfold set_rect_grid.
  cbv beta iota zeta delta [mbind lift gets modify ret].
  cbn [self io positions magnetics set_cell_size set_rect_grid_attr].
  rewrite Hpos. reflexivity.
Qed.

Lemma no_ground_truth_ValueError_witness :
  set_rect_grid Runs.E (1, 1)%Z (Runs.read "nothing.pb")
  = Some (Raise ValueError, with_cell_size (1, 1)%Z (Runs.read "nothing.pb")).
Proof.
  apply (no_ground_truth_ValueError Runs.E (Runs.read "nothing.pb") (1, 1)%Z).
  - apply (loaded_read Runs.E (Example.at_path "nothing.pb")
             (loaded_positions Runs.nothing, loaded_magnetics Runs.nothing)).
    vm_compute. reflexivity.
  - vm_compute. reflexivity.
Defined.

(** X9. No lookup fails on a loaded recording: when the computation of
    [set_rect_grid], called with a cell size of two integers and the drawing
    of the figure aside, ends in an exception, it is the [ValueError] or
    [OverflowError] of a NaN or infinite extent or offset or of a zero cell
    size, or the [IndexError] of a sample whose cell lies outside the
    allocated arrays, and never the [KeyError] of a missing column. *)
Theorem set_rect_grid_raises_only
  (E : env) (w : world) (cs : Z * Z) (e : exn) (w' : world) :
  loaded w ->
  set_rect_grid E cs w = Some (Raise e, w') ->
  e = ValueError \/ e = OverflowError \/ e = IndexError.
Proof.
  intros Hl. destruct (ClaimFacts.loaded_Inv w Hl) as (ps & Hpos & Hcols & _).
  assert (Hint : forall v z e0, int_of v z = Raise e0 ->
                                e0 = ValueError \/ e0 = OverflowError \/ e0 = IndexError).
  { intros v z e0. unfold int_of. destruct z; [discriminate|].
    destruct (is_nan v); intros H; injection H as <-; auto. }
  assert (Hrange : forall a b c e0, range a b c = Raise e0 ->
                                    e0 = ValueError \/ e0 = OverflowError \/ e0 = IndexError).
  { intros a b c e0. unfold range. destruct (c =? 0)%Z; [|discriminate].
    intros H; injection H as <-; auto. }
  unfold set_rect_grid.
  cbv beta iota zeta delta [mbind lift gets modify ret].
  cbn [self io positions magnetics set_cell_size set_rect_grid_attr].
  rewrite Hpos, GridRunFacts.getitem_positions_x, GridRunFacts.getitem_positions_y, Hcols.
  destruct (int_floor _) as [x_lo|e1] eqn:E1;
    [|intros H; injection H as <- _; eapply Hint; exact E1].
  destruct (int_ceil _) as [x_hi|e1] eqn:E2;
    [|intros H; injection H as <- _; eapply Hint; exact E2].
  destruct (range x_lo x_hi (fst cs)) as [x_axis|e1] eqn:E3;
    [|intros H; injection H as <- _; eapply Hrange; exact E3].
  destruct (int_floor (Float64.nanmin (map proto.pos_y ps))) as [y_lo|e1] eqn:E4;
    [|intros H; injection H as <- _; eapply Hint; exact E4].
  destruct (int_ceil (Float64.nanmax (map proto.pos_y ps))) as [y_hi|e1] eqn:E5;
    [|intros H; injection H as <- _; eapply Hint; exact E5].
  destruct (range y_lo y_hi (snd cs)) as [y_axis|e1] eqn:E6;
    [|intros H; injection H as <- _; eapply Hrange; exact E6].
  match goal with
  | |- context [grid_loop ?E0 ?c ?a ?b ?d ?rs ?z ?w0] =>
      destruct (grid_loop E0 c a b d rs z w0) as [[[cnt|e1] w1]|] eqn:Hloop
  end; try discriminate.
  intros H. injection H as <- _. eapply KeepFacts.grid_loop_raises; exact Hloop.
Qed.

Lemma set_rect_grid_raises_only_witness :
  IndexError = ValueError \/ IndexError = OverflowError \/ IndexError = IndexError.
Proof.
  apply (set_rect_grid_raises_only Example.E (Example.new "walk.pb") (-1, -1)%Z IndexError
           (Example.gridded "walk.pb" (-1, -1)%Z)).
  - apply (RunFacts.loaded_new Example.E "walk.pb"). vm_compute. reflexivity.
  - vm_compute. reflexivity.
Defined.

(** X10. The shape for any cell size: on a loaded recording, a grid returned
    for the cell size [(cw, ch)] has [ceil((x_hi - x_lo) / cw) + 1] rows when
    [cw] is positive, and one row when [cw] is negative, the range of the axis
    being empty then; likewise for its columns and [ch].  Here
    [x_lo = floor(min x)] and [x_hi = ceil(max x)] over the PositionTable,
    and [x_lo <= x_hi]. *)
Theorem grid_shape_by_cell_size
  (E : env) (w : world) (cs : Z * Z) (g : ndarray) (w' : world) :
  loaded w ->
  set_rect_grid E cs w = Some (Ok g, w') ->
  exists xs ys x_lo x_hi y_lo y_hi,
    DataFrame.getitem (positions (self w)) "x" = Ok xs /\
    DataFrame.getitem (positions (self w)) "y" = Ok ys /\
    int_floor (Float64.nanmin xs) = Ok x_lo /\
    int_ceil (Float64.nanmax xs) = Ok x_hi /\
    int_floor (Float64.nanmin ys) = Ok y_lo /\
    int_ceil (Float64.nanmax ys) = Ok y_hi /\
    (x_lo <= x_hi)%Z /\ (y_lo <= y_hi)%Z /\
    fst cs <> 0%Z /\ snd cs <> 0%Z /\
    Z.of_nat (fst (shape g))
    = (if (0 <? fst cs)%Z then (x_hi - x_lo + fst cs - 1) / fst cs + 1 else 1)%Z /\
    Z.of_nat (snd (shape g))
    = (if (0 <? snd cs)%Z then (y_hi - y_lo + snd cs - 1) / snd cs + 1 else 1)%Z.
Proof.
  intros Hl Hrun. destruct (ClaimFacts.loaded_Inv w Hl) as (ps & HI).
  destruct (GridRunFacts.set_rect_grid_spec E ps cs w g w' HI Hrun)
    as (x_lo & x_hi & y_lo & y_hi & x_axis & y_axis
        & Hxlo & Hxhi & Hylo & Hyhi & Hxa & Hya & Hshape & _).
  pose proof (GridFacts.extent_ordered _ _ _ Hxlo Hxhi) as Hx.
  pose proof (GridFacts.extent_ordered _ _ _ Hylo Hyhi) as Hy.
  assert (Hlen : forall lo hi c axis,
            (lo <= hi)%Z -> range lo hi c = Ok axis ->
            c <> 0%Z /\
            Z.of_nat (List.length axis + 1)
            = (if (0 <? c)%Z then (hi - lo + c - 1) / c + 1 else 1)%Z).
  { intros lo hi c axis Hle Hr.
    rewrite (GridFacts.range_length _ _ _ _ Hr).
    unfold range in Hr. destruct (Z.eqb_spec c 0) as [|Hc]; [discriminate|].
    split; [exact Hc|]. rewrite Nat2Z.inj_add. unfold range_len.
    destruct (Z.ltb_spec 0 c) as [Hpos | Hneg].
    - rewrite Z2Nat.id; [reflexivity|]. apply Z.div_pos; lia.
    - assert (Hq : ((lo - hi - c - 1) / (- c) < 1)%Z)
        by (apply Z.div_lt_upper_bound; lia).
      set (q := ((lo - hi - c - 1) / (- c))%Z) in *.
      replace (Z.to_nat q) with 0 by lia. reflexivity. }
  destruct (Hlen _ _ _ _ Hx Hxa) as (Hcx & Hnx).
  destruct (Hlen _ _ _ _ Hy Hya) as (Hcy & Hny).
  exists (map proto.pos_x ps), (map proto.pos_y ps), x_lo, x_hi, y_lo, y_hi.
  rewrite (proj1 HI).
  split; [apply GridRunFacts.getitem_positions_x|].
  split; [apply GridRunFacts.getitem_positions_y|].
  rewrite Hshape. cbn [fst snd]. repeat (split; [assumption|]). assumption.
Qed.

Lemma grid_shape_by_cell_size_witness :
  exists xs ys x_lo x_hi y_lo y_hi,
    DataFrame.getitem (positions (self (Example.new "walk.pb"))) "x" = Ok xs /\
    DataFrame.getitem (positions (self (Example.new "walk.pb"))) "y" = Ok ys /\
    int_floor (Float64.nanmin xs) = Ok x_lo /\
    int_ceil (Float64.nanmax xs) = Ok x_hi /\
    int_floor (Float64.nanmin ys) = Ok y_lo /\
    int_ceil (Float64.nanmax ys) = Ok y_hi /\
    (x_lo <= x_hi)%Z /\ (y_lo <= y_hi)%Z /\
    fst (2, 3)%Z <> 0%Z /\ snd (2, 3)%Z <> 0%Z /\
    Z.of_nat (fst (shape (Example.grid "walk.pb" (2, 3)%Z)))
    = (if (0 <? fst (2, 3))%Z
       then (x_hi - x_lo + fst (2, 3) - 1) / fst (2, 3) + 1 else 1)%Z /\
    Z.of_nat (snd (shape (Example.grid "walk.pb" (2, 3)%Z)))
    = (if (0 <? snd (2, 3))%Z
       then (y_hi - y_lo + snd (2, 3) - 1) / snd (2, 3) + 1 else 1)%Z.
Proof.
  apply (grid_shape_by_cell_size Example.E (Example.new "walk.pb") (2, 3)%Z
           (Example.grid "walk.pb" (2, 3)%Z) (Example.gridded "walk.pb" (2, 3)%Z)).
  - apply (RunFacts.loaded_new Example.E "walk.pb"). vm_compute. reflexivity.
  - vm_compute. reflexivity.
Defined.

(** ** The constructor and [read_recording] *)

(** X11. A constructed object: when [IPSRecording(path)] returns, the path is
    stored, the file system has been asked once whether the path is a file and
    the file has been opened once, in that order; no grid and no cell size are
    set; the PositionTable is the one loaded from the file's message, and the
    MagneticTable is the loaded one up to its [x] and [y] cells. *)
Theorem construction_postcondition (E : env) (path : string) (w : world) :
  IPSRecording_new E path = Some (Ok tt, w) ->
  pb_file (self w) = path /\
  io w = [IsFile path; OpenRead path] /\
  rect_grid (self w) = None /\
  cell_size (self w) = None /\
  exists content measurements,
    fs E path = Some (RegularFile content) /\
    FromString E content = Some measurements /\
    positions (self w) = loaded_positions measurements /\
    same_measurements (loaded_magnetics measurements) (magnetics (self w)).
Proof.
  rewrite RunFacts.init_eq. cbv zeta.
  destruct (isfile E path); [|discriminate].
  rewrite LoadFacts.read_recording_eq. cbn [self pb_file io].
  destruct (fs E path) as [[content|]|] eqn:Hfs; try discriminate.
  destruct (FromString E content) as [m|] eqn:Hfrom; try discriminate.
  match goal with
  | |- context [magnetics_pos_calc ?w2] =>
      assert (HI : Inv (proto.positions m) w2)
        by (apply LoadFacts.Inv_load; reflexivity);
      destruct (magnetics_pos_calc w2) as [[[[]|e] w3]|] eqn:Hcalc
  end; try discriminate.
  intros H. injection H as <-.
  destruct (FrameFacts.magnetics_pos_calc_others _ _ _ Hcalc)
    as (B1 & B2 & B3 & B4 & B5).
  pose proof (FrameFacts.magnetics_pos_calc_measurements _ _ _ _ HI Hcalc) as Hm.
  cbn [self io pb_file positions magnetics rect_grid cell_size
       set_magnetics set_positions fresh app] in B1, B2, B3, B4, B5, Hm.
  split; [exact B1|]. split; [exact B5|]. split; [exact B3|]. split; [exact B4|].
  exists content, m. split; [reflexivity|]. split; [exact Hfrom|].
  split; [exact B2 | exact Hm].
Qed.

Lemma construction_postcondition_witness :
  pb_file (self (Example.new "walk.pb")) = "walk.pb"%string /\
  io (Example.new "walk.pb") = [IsFile "walk.pb"; OpenRead "walk.pb"] /\
  rect_grid (self (Example.new "walk.pb")) = None /\
  cell_size (self (Example.new "walk.pb")) = None /\
  exists content measurements,
    fs Example.E "walk.pb" = Some (RegularFile content) /\
    FromString Example.E content = Some measurements /\
    positions (self (Example.new "walk.pb")) = loaded_positions measurements /\
    same_measurements (loaded_magnetics measurements)
                      (magnetics (self (Example.new "walk.pb"))).
Proof.
  apply (construction_postcondition Example.E "walk.pb" (Example.new "walk.pb")).
  vm_compute. reflexivity.
Defined.

(** X12. A load that fails changes nothing but the trace: when
    [read_recording] raises, the file was opened and both tables, the path,
    the grid and the cell size are as before.  It raises
    [FileNotFoundError] when the path names nothing, [IsADirectoryError] when
    it names a directory, and the deserializer's [DecodeError] when the file's
    bytes are no message. *)
Theorem failed_read_keeps_object (E : env) (w : world) (e : exn) (w' : world) :
  read_recording E w = Some (Raise e, w') ->
  self w' = self w /\
  io w' = io w ++ [OpenRead (pb_file (self w))] /\
  ((exists msg, e = FileNotFoundError msg) /\ fs E (pb_file (self w)) = None
   \/ e = IsADirectoryError /\ fs E (pb_file (self w)) = Some Directory
   \/ e = DecodeError /\
      exists content,
        fs E (pb_file (self w)) = Some (RegularFile content) /\
        FromString E content = None).
Proof.
  rewrite LoadFacts.read_recording_eq.
  destruct (fs E (pb_file (self w))) as [[content|]|].
  - destruct (FromString E content) as [m|] eqn:Hm; [discriminate|].
    intros H. injection H as <- <-. repeat split.
    right. right. split; [reflexivity|]. exists content. auto.
  - intros H. injection H as <- <-. repeat split. right. left. auto.
  - intros H. injection H as <- <-. repeat split. left. split; [eauto | reflexivity].
Qed.

Lemma failed_read_keeps_object_witness :
  self (opened (Example.new "walk.pb")) = self (Example.new "walk.pb") /\
  io (opened (Example.new "walk.pb"))
  = io (Example.new "walk.pb") ++ [OpenRead (pb_file (self (Example.new "walk.pb")))] /\
  ((exists msg, FileNotFoundError "walk.pb" = FileNotFoundError msg) /\
   fs Runs.E (pb_file (self (Example.new "walk.pb"))) = None
   \/ FileNotFoundError "walk.pb" = IsADirectoryError /\
      fs Runs.E (pb_file (self (Example.new "walk.pb"))) = Some Directory
   \/ FileNotFoundError "walk.pb" = DecodeError /\
      exists content,
        fs Runs.E (pb_file (self (Example.new "walk.pb"))) = Some (RegularFile content) /\
        FromString Runs.E content = None).
Proof.
  apply (failed_read_keeps_object Runs.E (Example.new "walk.pb")
           (FileNotFoundError "walk.pb") (opened (Example.new "walk.pb"))).
  vm_compute. reflexivity.
Defined.

(** ** Which samples are kept, and where they are put *)

(** X13. Interpolation of any sample: on a loaded recording whose ground-truth
    timestamps are ascending up to row [j] and whose magnetic timestamps are
    ascending up to row [r], a magnetic sample [r] taken at [tm] with
    [t(j) <= tm < t(j+1)] is given the position
    [(tm - t(j)) * speed + x(j)] of the pair [(j, j+1)], and likewise in
    [y]; the run of [magnetics_pos_calc] ends. *)
Theorem every_sample_interpolated
  (w : world) (j r : nat) (t0 x0 y0 t1 x1 y1 tm : float) :
  loaded w ->
  position_at w j = Some (t0, x0, y0) ->
  position_at w (j + 1) = Some (t1, x1, y1) ->
  ascending (position_t w) j ->
  magnetic_t w r = Some tm ->
  ascending (magnetic_t w) r ->
  leb t0 tm = true -> ltb tm t1 = true ->
  exists res w',
    magnetics_pos_calc w = Some (res, w') /\
    estimate w' r
    = Some (((tm - t0) * ((x1 - x0) / (t1 - t0)) + x0)%float,
            ((tm - t0) * ((y1 - y0) / (t1 - t0)) + y0)%float).
Proof.
  intros Hl H0 H1 Hasc Hm Hmasc Hle Hlt.
  destruct (ClaimFacts.loaded_Inv w Hl) as (ps & HI).
  destruct (ClaimFacts.cell_positions ps w j _ _ _ HI H0) as (p0 & Hp0 & <- & <- & <-).
  destruct (ClaimFacts.cell_positions ps w (j + 1) _ _ _ HI H1)
    as (p1 & Hp1 & <- & <- & <-).
  pose proof (ClaimFacts.magnetic_t_cursor ps w r tm HI Hm) as Hcur.
  destruct (ClaimFacts.sample_estimate ps w j p0 p1 r tm HI Hp0 Hp1)
    as (res & w' & Hrun & Hest).
  - intros k Hk.
    destruct (ClaimFacts.ascending_present ps w r tm HI Hmasc Hm k Hk)
      as (tk & Hck & Hletk).
    exists tk. split; [exact Hck|].
    destruct (Nat.eq_dec k r) as [-> | Hne].
    + now rewrite (PosCalcFacts.cursor_fun _ _ _ _ Hck Hcur).
    + eapply Float64Facts.leb_ltb_trans; [|exact Hlt]. apply Hletk. lia.
  - exact Hcur.
  - intros k p Hk Hp. apply Float64Facts.leb_not_ltb.
    destruct (Nat.eq_dec (k + 1) j) as [Ej | Hne].
    + rewrite Ej in Hp. assert (p = p0) by congruence. subst p. exact Hle.
    + eapply Float64Facts.leb_trans; [|exact Hle].
      apply (ClaimFacts.ascending_le _ _ Hasc (k + 1) j); [lia| |].
      * unfold position_t, cell. rewrite (proj1 HI).
        now rewrite (PosCalcFacts.loc_positions_t _ _ _ Hp).
      * unfold position_t, cell. rewrite (proj1 HI).
        now rewrite (PosCalcFacts.loc_positions_t _ _ _ Hp0).
  - exists res, w'. split; [exact Hrun|]. rewrite Hest. reflexivity.
Qed.

Lemma every_sample_interpolated_witness :
  exists res w',
    magnetics_pos_calc (Example.read "walk.pb") = Some (res, w') /\
    estimate w' 2
    = Some (((3 - 2) * ((4 - 4) / (4 - 2)) + 4)%float,
            ((3 - 2) * ((6 - 2) / (4 - 2)) + 2)%float).
Proof.
  apply (every_sample_interpolated (Example.read "walk.pb") 1 2
           2%float 4%float 2%float 4%float 4%float 6%float 3%float).
  - apply (loaded_read Example.E (Example.at_path "walk.pb")
             (loaded_positions Example.walk, loaded_magnetics Example.walk)).
    vm_compute. reflexivity.
  - vm_compute. reflexivity.
  - vm_compute. reflexivity.
  - intros k Hk. assert (k = 0) as -> by lia.
    exists 0%float, 2%float. repeat split; vm_compute; reflexivity.
  - vm_compute. reflexivity.
  - intros k Hk. destruct k as [|[|k]]; [| |lia].
    + exists 0.5%float, 2%float. repeat split; vm_compute; reflexivity.
    + exists 2%float, 3%float. repeat split; vm_compute; reflexivity.
  - vm_compute. reflexivity.
  - vm_compute. reflexivity.
Defined.

(** X14. What the trimming keeps: a magnetic record taken no later than some
    ground-truth record has a row in the loaded MagneticTable, under its
    source index, holding its five fields followed by [x = y = 0.0]. *)
Theorem trimming_keeps
  (E : env) (w : world) (P M : DataFrame.t) (w' : world) :
  read_recording E w = Some (Ok (P, M), w') ->
  exists measurements,
    deserialized E w measurements /\
    forall j m i p,
      nth_error (proto.magnetics measurements) j = Some m ->
      nth_error (proto.positions measurements) i = Some p ->
      leb (proto.mag_t m) (proto.pos_t p) = true ->
      DataFrame.find_row (DataFrame.rows M) j
      = Some [proto.mag_t m; proto.mag_x m; proto.mag_y m; proto.mag_z m;
              proto.mag_accuracy m; 0%float; 0%float].
Proof.
  intros Hrun. apply LoadFacts.read_recording_ok in Hrun.
  destruct Hrun as (ms & Hd & Hpm & _). injection Hpm as -> ->.
  exists ms. split; [exact Hd|].
  intros j m i p Hj Hi Hle.
  rewrite RunFacts.find_row_loaded_magnetics, Hj.
  assert (Hmax : leb (proto.mag_t m) (max_position_t ms) = true).
  { eapply Float64Facts.leb_trans; [exact Hle|].
    apply Float64Facts.nanmax_ge.
    - apply in_map. eapply nth_error_In; eauto.
    - apply (Float64Facts.leb_is_nan _ _ Hle). }
  rewrite Hmax. reflexivity.
Qed.

Lemma trimming_keeps_witness :
  exists measurements,
    deserialized Example.E (Example.at_path "walk.pb") measurements /\
    forall j m i p,
      nth_error (proto.magnetics measurements) j = Some m ->
      nth_error (proto.positions measurements) i = Some p ->
      leb (proto.mag_t m) (proto.pos_t p) = true ->
      DataFrame.find_row (DataFrame.rows (loaded_magnetics Example.walk)) j
      = Some [proto.mag_t m; proto.mag_x m; proto.mag_y m; proto.mag_z m;
              proto.mag_accuracy m; 0%float; 0%float].
Proof.
  apply (trimming_keeps Example.E (Example.at_path "walk.pb")
           (loaded_positions Example.walk) (loaded_magnetics Example.walk)
           (Example.read "walk.pb")).
  vm_compute. reflexivity.
Defined.

(** X15. A magnetic record whose timestamp is NaN has no row after loading,
    whatever the ground-truth timestamps are: the comparison that builds the
    mask is false on it. *)
Theorem nan_timestamp_dropped
  (E : env) (w : world) (P M : DataFrame.t) (w' : world)
  (measurements : proto.Recording) (j : nat) (m : proto.Magnetic) :
  read_recording E w = Some (Ok (P, M), w') ->
  deserialized E w measurements ->
  nth_error (proto.magnetics measurements) j = Some m ->
  is_nan (proto.mag_t m) = true ->
  DataFrame.find_row (DataFrame.rows M) j = None.
Proof.
  intros Hrun (content & Hfs & Hfrom) Hj Hnan.
  apply LoadFacts.read_recording_ok in Hrun.
  destruct Hrun as (ms & (content' & Hfs' & Hfrom') & Hpm & _).
  injection Hpm as -> ->.
  assert (content' = content) by congruence. subst content'.
  assert (ms = measurements) by congruence. subst ms.
  rewrite RunFacts.find_row_loaded_magnetics, Hj.
  destruct (leb (proto.mag_t m) (max_position_t measurements)) eqn:Hle; [|reflexivity].
  apply Float64Facts.leb_is_nan in Hle. destruct Hle as (Hn & _). congruence.
Qed.

Lemma nan_timestamp_dropped_witness :
  DataFrame.find_row (DataFrame.rows (loaded_magnetics Unstamped.gap)) 1 = None.
Proof.
  apply (nan_timestamp_dropped Unstamped.E (Example.at_path "gap.pb")
           (loaded_positions Unstamped.gap) (loaded_magnetics Unstamped.gap)
           (Unstamped.read "gap.pb") Unstamped.gap 1 (Example.Mg nan 1 0 0)).
  - vm_compute. reflexivity.
  - exists [Byte.x20]. split; reflexivity.
  - reflexivity.
  - reflexivity.
Defined.

(** ** Well-formed input, and calls made again *)

(** X16. Time-ordered samples: when the file's message has its magnetic
    records in ascending time order and the first of them is not later than
    the latest ground-truth timestamp, constructing the object returns: the
    trimming drops a tail of the records only, so the labels of the
    MagneticTable are [0 .. n-1] and no lookup of the interpolation fails. *)
Theorem time_ordered_construction
  (E : env) (path : string) (content : list Byte.byte) (m : proto.Recording) :
  fs E path = Some (RegularFile content) ->
  FromString E content = Some m ->
  (exists first,
     nth_error (proto.magnetics m) 0 = Some first /\
     leb (proto.mag_t first) (max_position_t m) = true) ->
  (forall j a b,
     nth_error (proto.magnetics m) j = Some a ->
     nth_error (proto.magnetics m) (S j) = Some b ->
     leb (proto.mag_t a) (proto.mag_t b) = true) ->
  exists w, IPSRecording_new E path = Some (Ok tt, w).
Proof.
  intros Hfs Hm (first & Hfirst & Hle) Hasc.
  rewrite RunFacts.init_eq. cbv zeta. unfold isfile. rewrite Hfs.
  rewrite LoadFacts.read_recording_eq. cbn [self pb_file io]. rewrite Hfs, Hm.
  match goal with
  | |- context [magnetics_pos_calc ?w2] =>
      assert (HI : Inv (proto.positions m) w2)
        by (apply LoadFacts.Inv_load; reflexivity);
      destruct (SortedFacts.magnetics_pos_calc_returns _ w2 HI) as (w3 & Hcalc)
  end.
  - apply PosCalcFacts.present_len. intros k Hk. assert (k = 0) as -> by lia.
    cbn [self magnetics set_magnetics].
    rewrite RunFacts.find_row_loaded_magnetics, Hfirst, Hle. discriminate.
  - cbn [self magnetics set_magnetics].
    apply SortedFacts.loaded_magnetics_contiguous. exact Hasc.
  - rewrite Hcalc. eauto.
Qed.

Lemma time_ordered_construction_witness :
  exists w, IPSRecording_new Example.E "pair.pb" = Some (Ok tt, w).
Proof.
  apply (time_ordered_construction Example.E "pair.pb" [Byte.x04] Example.pair).
  - reflexivity.
  - reflexivity.
  - exists (Example.Mg 1 3 4 0). split; [reflexivity | vm_compute; reflexivity].
  - intros j a b Ha Hb. destruct j as [|[|[|j]]].
    + injection Ha as <-. injection Hb as <-. vm_compute. reflexivity.
    + injection Ha as <-. injection Hb as <-. vm_compute. reflexivity.
    + discriminate.
    + discriminate.
Defined.



(** X18. [magnetics_pos_calc] is idempotent: on a loaded recording, a second
    run right after a run ends the same way and leaves the object exactly as
    the first run left it.  The estimates do not depend on the positions the
    rows held before. *)
Theorem magnetics_pos_calc_idempotent (w : world) (r : result unit) (w' : world) :
  loaded w ->
  magnetics_pos_calc w = Some (r, w') ->
  magnetics_pos_calc w' = Some (r, w').
Proof.
  intros Hl Hrun. destruct (ClaimFacts.loaded_Inv w Hl) as (ps & HI).
  eapply ReplayFacts.magnetics_pos_calc_replay; eauto.
Qed.

Lemma magnetics_pos_calc_idempotent_witness :
  magnetics_pos_calc (Runs.calc (Example.read "walk.pb"))
  = Some (Ok tt, Runs.calc (Example.read "walk.pb")).
Proof.
  apply (magnetics_pos_calc_idempotent (Example.read "walk.pb") (Ok tt)).
  - apply (loaded_read Example.E (Example.at_path "walk.pb")
             (loaded_positions Example.walk, loaded_magnetics Example.walk)).
    vm_compute. reflexivity.
  - vm_compute. reflexivity.
Defined.

(** X19. The outcome of [set_rect_grid] is a function of the two tables and
    the cell size: on two objects with the same PositionTable and the same
    MagneticTable the call ends in the same grid or in the same exception,
    whatever grid, cell size or path they held; a returned grid is also what
    [rect_grid] holds afterwards.  Calling it twice in a row returns the same
    grid twice. *)
Theorem grid_depends_on_tables
  (E : env) (w v : world) (cs : Z * Z) (r : result ndarray) (w' : world) :
  positions (self v) = positions (self w) ->
  magnetics (self v) = magnetics (self w) ->
  set_rect_grid E cs w = Some (r, w') ->
  exists v',
    set_rect_grid E cs v = Some (r, v') /\
    forall g, r = Ok g ->
      rect_grid (self v') = Some g /\ rect_grid (self w') = Some g.
Proof.
  intros HP HM. unfold set_rect_grid.
  cbv beta iota zeta delta [mbind lift gets modify ret].
  cbn [self io positions magnetics set_cell_size set_rect_grid_attr].
  rewrite HP, HM.
  destruct (DataFrame.getitem (positions (self w)) "x") as [xs|e];
    [|intros H; injection H as <- <-; eexists; split; [reflexivity|discriminate]].
  destruct (int_floor (Float64.nanmin xs)) as [x_lo|e];
    [|intros H; injection H as <- <-; eexists; split; [reflexivity|discriminate]].
  destruct (int_ceil (Float64.nanmax xs)) as [x_hi|e];
    [|intros H; injection H as <- <-; eexists; split; [reflexivity|discriminate]].
  destruct (range x_lo x_hi (fst cs)) as [x_axis|e];
    [|intros H; injection H as <- <-; eexists; split; [reflexivity|discriminate]].
  destruct (DataFrame.getitem (positions (self w)) "y") as [ys|e];
    [|intros H; injection H as <- <-; eexists; split; [reflexivity|discriminate]].
  destruct (int_floor (Float64.nanmin ys)) as [y_lo|e];
    [|intros H; injection H as <- <-; eexists; split; [reflexivity|discriminate]].
  destruct (int_ceil (Float64.nanmax ys)) as [y_hi|e];
    [|intros H; injection H as <- <-; eexists; split; [reflexivity|discriminate]].
  destruct (range y_lo y_hi (snd cs)) as [y_axis|e];
    [|intros H; injection H as <- <-; eexists; split; [reflexivity|discriminate]].
  match goal with
  | |- match grid_loop ?E0 ?c ?a ?b ?d ?rs ?z ?w0 with _ => _ end = _ ->
       exists v', match grid_loop _ _ _ _ _ _ _ ?v0 with _ => _ end = _ /\ _ =>
      destruct (grid_loop E0 c a b d rs z w0) as [[r1 w1]|] eqn:Hloop;
        [|discriminate];
      destruct (ReplayFacts.grid_loop_sim E0 c a b d rs z w0 v0 r1 w1 eq_refl Hloop)
        as (v1 & Hloopv & Hgrid);
      rewrite Hloopv
  end.
  destruct r1 as [cnt|e].
  - cbn [self io set_rect_grid_attr the_grid rect_grid].
    intros H. injection H as <- <-. eexists. split.
    + rewrite Hgrid. reflexivity.
    + intros g Hg. injection Hg as <-. split; reflexivity.
  - intros H. injection H as <- <-. eexists. split; [reflexivity | discriminate].
Qed.

Lemma grid_depends_on_tables_witness :
  exists v',
    set_rect_grid Example.E (1, 1)%Z (Example.gridded "walk.pb" (2, 3)%Z)
    = Some (Ok (Example.grid "walk.pb" (1, 1)%Z), v') /\
    forall g, Ok (Example.grid "walk.pb" (1, 1)%Z) = Ok g ->
      rect_grid (self v') = Some g /\
      rect_grid (self (Example.gridded "walk.pb" (1, 1)%Z)) = Some g.
Proof.
  apply (grid_depends_on_tables Example.E (Example.new "walk.pb")
           (Example.gridded "walk.pb" (2, 3)%Z) (1, 1)%Z).
  - vm_compute. reflexivity.
  - vm_compute. reflexivity.
  - vm_compute. reflexivity.
Defined.
